(** * MrClean: the interactive venv / node_modules cleaner

    A shallow embedding of [MrClean.py].  The filesystem is a tree of
    files and directories addressed by paths; the process is a small
    state-and-error monad over a world made of the tree, the removals the
    operating system would refuse, the lines still to be read on standard
    input, the messages printed so far and the [stats] dictionary.

    What the embedding leaves out: symbolic links; text outside ASCII in
    the answers typed; existence tests that raise instead of answering;
    and a [shutil.rmtree] that fails half-way (a refused removal leaves
    the tree as it was).  Sizes are printed as byte counts, not through
    [format_size].  The two unbounded loops and the recursion of the wipe
    run on a budget of [fuel]; that a sufficient budget always exists is
    proved at the end. *)

From Stdlib Require Import ZArith List String Ascii Bool Lia Arith Permutation.
Import ListNotations.

Local Open Scope string_scope.
Local Open Scope list_scope.
Local Open Scope Z_scope.

Set Implicit Arguments.
Set Warnings "-register-all".

(** ** Paths *)

Module PathLib.

(** A [pathlib.Path] that has been resolved: the components below the
    filesystem root, outermost first.  The root itself is []. *)
Definition path := list string.

(** [path / name] *)
Definition div (p : path) (name : string) : path := p ++ [name].

(** [path.name]: the final component, empty for the root. *)
Definition name (p : path) : string := last p "".

(** [path.parent]: the root is its own parent. *)
Definition parent (p : path) : path := removelast p.

Fixpoint path_eqb (p q : path) : bool :=
  match p, q with
  | [], [] => true
  | a :: p', b :: q' => String.eqb a b && path_eqb p' q'
  | _, _ => false
  end.

(** Paths are ordered like the lists of their components, components
    by code point; this is the order [sorted] uses on [Path] objects. *)
Fixpoint path_leb (p q : path) : bool :=
  match p, q with
  | [], _ => true
  | _ :: _, [] => false
  | a :: p', b :: q' =>
      match String.compare a b with
      | Lt => true
      | Gt => false
      | Eq => path_leb p' q'
      end
  end.

Fixpoint insert_sorted (p : path) (l : list path) : list path :=
  match l with
  | [] => [p]
  | q :: l' => if path_leb p q then p :: l else q :: insert_sorted p l'
  end.

(** [sorted(paths)]: stable, ascending. *)
Definition sorted (l : list path) : list path :=
  fold_right insert_sorted [] l.

(** [p.relative_to(base)] for a [base] that is a prefix of [p]. *)
Definition relative_to (p base : path) : path := skipn (List.length base) p.

(** [l.index(p)], [None] standing for [ValueError]. *)
Fixpoint index (l : list path) (p : path) : option Z :=
  match l with
  | [] => None
  | q :: l' => if path_eqb q p then Some 0
               else option_map Z.succ (index l' p)
  end.

Fixpoint is_prefix (p q : path) : bool :=
  match p, q with
  | [], _ => true
  | a :: p', b :: q' => String.eqb a b && is_prefix p' q'
  | _ :: _, [] => false
  end.

Fixpoint mem (p : path) (l : list path) : bool :=
  match l with
  | [] => false
  | q :: l' => path_eqb q p || mem p l'
  end.

(** No path occurs twice. *)
Fixpoint distinct (l : list path) : bool :=
  match l with
  | [] => true
  | p :: l' => negb (mem p l') && distinct l'
  end.

End PathLib.
Export PathLib.

(** ** The filesystem *)

Module FS.

(** A file with its [st_size], or a directory with the entries
    [iterdir] yields, in the order it yields them.  A directory that is
    not [readable] refuses to be listed. *)
Inductive node : Type :=
| File (size : Z)
| Dir (readable : bool) (entries : list (string * node)).

Fixpoint find_entry (nm : string) (es : list (string * node)) : option node :=
  match es with
  | [] => None
  | (k, n) :: es' => if String.eqb k nm then Some n else find_entry nm es'
  end.

(** The node a path leads to, if any. *)
Fixpoint lookup (n : node) (p : path) : option node :=
  match p with
  | [] => Some n
  | nm :: p' =>
      match n with
      | File _ => None
      | Dir _ es =>
          match find_entry nm es with
          | Some c => lookup c p'
          | None => None
          end
      end
  end.

(** [path.exists()] *)
Definition exists_ (fs : node) (p : path) : bool :=
  match lookup fs p with Some _ => true | None => false end.

(** [path.is_dir()] *)
Definition is_dir (fs : node) (p : path) : bool :=
  match lookup fs p with Some (Dir _ _) => true | _ => false end.

(** [path.is_file()] *)
Definition is_file (fs : node) (p : path) : bool :=
  match lookup fs p with Some (File _) => true | _ => false end.

(** The exceptions the program meets. *)
Inductive exc : Type :=
| PermissionError (cause : string)
| FileNotFoundError
| NotADirectoryError
| OtherOSError (cause : string)
| EOFError
| IndexError
| ValueError.

(** [isinstance(e, OSError)]; [PermissionError] is one of its subclasses. *)
Definition is_OSError (e : exc) : bool :=
  match e with
  | PermissionError _ | FileNotFoundError | NotADirectoryError
  | OtherOSError _ => true
  | EOFError | IndexError | ValueError => false
  end.

(** [path.iterdir()]: the children's paths, or the error it raises. *)
Definition iterdir (fs : node) (p : path) : list path + exc :=
  match lookup fs p with
  | None => inr FileNotFoundError
  | Some (File _) => inr NotADirectoryError
  | Some (Dir false _) => inr (PermissionError "Permission denied")
  | Some (Dir true es) => inl (map (fun e => div p (fst e)) es)
  end.

(** The files below a node, as [rglob] reaches them: a directory that
    cannot be listed yields nothing, and the walk goes on elsewhere. *)
Fixpoint total_files (n : node) : Z :=
  match n with
  | File size => size
  | Dir readable es =>
      if readable then
        (fix over (es : list (string * node)) : Z :=
           match es with
           | [] => 0
           | (_, c) :: es' => total_files c + over es'
           end) es
      else 0
  end.

Definition remove_entry (nm : string) (es : list (string * node))
  : list (string * node) :=
  filter (fun e => negb (String.eqb (fst e) nm)) es.

Fixpoint update_entry (nm : string) (f : node -> node)
         (es : list (string * node)) : list (string * node) :=
  match es with
  | [] => []
  | (k, n) :: es' =>
      if String.eqb k nm then (k, f n) :: es'
      else (k, n) :: update_entry nm f es'
  end.

(** The tree once the entry a path names, and all below it, is gone. *)
Fixpoint remove_at (p : path) (n : node) : node :=
  match p with
  | [] => n
  | nm :: p' =>
      match n with
      | File _ => n
      | Dir r es =>
          match p' with
          | [] => Dir r (remove_entry nm es)
          | _ :: _ => Dir r (update_entry nm (remove_at p') es)
          end
      end
  end.

(** The tree once several entries are gone, one after the other. *)
Definition remove_all (ps : list path) (n : node) : node :=
  fold_left (fun n p => remove_at p n) ps n.

End FS.
Export FS.

(** ** Detector ([is_venv], [is_node_modules]) *)

Module Detector.

(** The [type_] strings 'venv' and 'node_modules'. *)
Inductive kind : Type := VirtualEnv | DependencyCache.

Definition indicators (p : path) : list path :=
  [ div p "pyvenv.cfg";
    div (div p "bin") "activate";
    div (div p "Scripts") "activate.bat" ].

Definition is_venv (fs : node) (p : path) : bool :=
  if negb (is_dir fs p) then false
  else existsb (exists_ fs) (indicators p).

Definition is_node_modules (fs : node) (p : path) : bool :=
  is_dir fs p && String.eqb (name p) "node_modules".

(** The [if is_venv ... elif is_node_modules ...] chain that
    [find_cleanable_in_dir] runs on a directory entry. *)
Definition classify (fs : node) (p : path) : option kind :=
  if is_venv fs p then Some VirtualEnv
  else if is_node_modules fs p then Some DependencyCache
  else None.

End Detector.
Export Detector.

(** ** Scanner ([get_dir_size], [find_cleanable_in_dir], [get_subdirs],
       [scan_recursive]) *)

Module Scanner.

Definition get_dir_size (fs : node) (p : path) : Z :=
  match lookup fs p with
  | Some (Dir r es) => total_files (Dir r es)
  | _ => 0
  end.

Definition entry : Type := path * kind * Z.

Definition entry_path (e : entry) : path := fst (fst e).
Definition entry_kind (e : entry) : kind := snd (fst e).
Definition entry_size (e : entry) : Z := snd e.

(** One turn of the loop of [find_cleanable_in_dir]. *)
Definition cleanable_of (fs : node) (e : path) : list entry :=
  if negb (is_dir fs e) then []
  else match classify fs e with
       | Some k => [(e, k, get_dir_size fs e)]
       | None => []
       end.

(** [iterdir] raises subclasses of [OSError] only, and the [except]
    clause swallows them before any entry has been seen. *)
Definition find_cleanable_in_dir (fs : node) (directory : path) : list entry :=
  match iterdir fs directory with
  | inl entries => flat_map (cleanable_of fs) entries
  | inr _ => []
  end.

Definition navigable (fs : node) (e : path) : bool :=
  is_dir fs e && negb (is_venv fs e) && negb (is_node_modules fs e).

Definition get_subdirs (fs : node) (directory : path) : list path :=
  match iterdir fs directory with
  | inl entries => sorted (filter (navigable fs) entries)
  | inr _ => sorted []
  end.

(** One turn of the loop of [scan_dir], the two [nonlocal] counters
    threaded through; [descend] is the recursive call. *)
Definition scan_step (fs : node) (descend : path -> Z * Z -> Z * Z)
           (acc : Z * Z) (e : path) : Z * Z :=
  if negb (is_dir fs e) then acc
  else if is_venv fs e || is_node_modules fs e
       then (fst acc + 1, snd acc + get_dir_size fs e)
       else descend e acc.

(** [levels] is [max_depth + 1 - depth]: the test [depth > max_depth]
    is [levels = 0], and [depth + 1] is one level fewer. *)
Fixpoint scan_dir (fs : node) (levels : nat) (current_path : path)
         (acc : Z * Z) : Z * Z :=
  match levels with
  | O => acc
  | S levels' =>
      match iterdir fs current_path with
      | inr _ => acc
      | inl entries =>
          fold_left (scan_step fs (scan_dir fs levels')) entries acc
      end
  end.

Definition scan_recursive (fs : node) (directory : path) (max_depth : Z)
  : Z * Z :=
  scan_dir fs (Z.to_nat (max_depth + 1)) directory (0, 0).

(** The directory lists no name twice, as on any real filesystem. *)
Definition lists_once (fs : node) (directory : path) : bool :=
  match iterdir fs directory with
  | inl entries => distinct entries
  | inr _ => true
  end.

End Scanner.
Export Scanner.

(** ** The process: world, results, and the monad the program runs in *)

Module Proc.

(** The [stats] dictionary that [main] creates and every deleting
    function updates in place. *)
Record stats_t : Type := mkStats {
  total_freed : Z;
  deleted_count : Z
}.

(** What the program prints, one constructor per [print] (or run of
    [print]s) of the source, carrying the values the text is built
    from.  Sizes are kept as byte counts: [format_size] only changes
    how they read. *)
Inductive msg : Type :=
| MBanner
| MPathMissing (search_path : path)
| MSummary (deleted freed : Z)
| MErrorDeleting (p : path) (e : exc)
| MWipeDeleted (rel : path) (size : Z)
| MCurrent (directory : path)
| MCleanableItems (items : list (string * kind * Z)) (subtotal : Z)
| MNoCleanable
| MRecursiveScan (count size : Z)
| MSubdirectories (names : list string)
| MNoSubdirectories
| MActions
| MOptWipe
| MOptClean
| MOptNavigate (n : Z)
| MOptRecursive
| MOptUp
| MOptNext
| MOptPrev
| MOptSkip
| MOptQuit
| MPromptChoice
| MQuitting
| MScanning
| MFound (count : Z)
| MPotential (size : Z)
| MNoneFound
| MPromptEnter
| MWiping (dirname : string)
| MFreedTree (freed : Z)
| MCleanDeleted (dirname : string)
| MFreed (freed : Z)
| MNoMoreFolders
| MAlreadyFirst
| MInvalidNumber (n : Z)
| MInvalidChoice.

(** [refused] lists the removals the operating system turns down (a
    file in use, a permission denied), each with the error it raises. *)
Record world : Type := mkWorld {
  fs : node;
  refused : list (path * exc);
  stdin : list string;
  stdout : list msg;
  stats : stats_t
}.

(** How a computation ends: with a value, with an exception on its way
    up, with [sys.exit], or because the model's recursion budget ran
    out. *)
Inductive res (A : Type) : Type :=
| Ok (a : A)
| Raised (e : exc)
| Exited (code : Z)
| OutOfFuel.
Arguments Raised {A} e.
Arguments Exited {A} code.
Arguments OutOfFuel {A}.

Definition M (A : Type) : Type := world -> res A * world.

Definition ret {A} (a : A) : M A := fun w => (Ok a, w).

Definition bind {A B} (m : M A) (k : A -> M B) : M B :=
  fun w =>
    match m w with
    | (Ok a, w') => k a w'
    | (Raised e, w') => (Raised e, w')
    | (Exited c, w') => (Exited c, w')
    | (OutOfFuel, w') => (OutOfFuel, w')
    end.

Definition raise {A} (e : exc) : M A := fun w => (Raised e, w).

(** [sys.exit(code)] *)
Definition sys_exit {A} (code : Z) : M A := fun w => (Exited code, w).

Definition out_of_fuel {A} : M A := fun w => (OutOfFuel, w).

(** [try: m except <classes>: h], the classes given by [catches]. *)
Definition try_except {A} (m : M A) (catches : exc -> bool)
           (h : exc -> M A) : M A :=
  fun w =>
    match m w with
    | (Raised e, w') => if catches e then h e w' else (Raised e, w')
    | r => r
    end.

(** Reading the filesystem. *)
Definition query {A} (f : node -> A) : M A := fun w => (Ok (f (fs w)), w).

Definition print (m : msg) : M unit :=
  fun w => (Ok tt, mkWorld (fs w) (refused w) (stdin w)
                           (stdout w ++ [m]) (stats w)).

(** [input(prompt)] *)
Definition input (prompt : msg) : M string :=
  fun w =>
    match stdin w with
    | [] => (Raised EOFError,
             mkWorld (fs w) (refused w) [] (stdout w ++ [prompt]) (stats w))
    | line :: rest =>
        (Ok line,
         mkWorld (fs w) (refused w) rest (stdout w ++ [prompt]) (stats w))
    end.

Definition set_stats (s : stats_t) : M unit :=
  fun w => (Ok tt, mkWorld (fs w) (refused w) (stdin w) (stdout w) s).

Definition get_stats : M stats_t := fun w => (Ok (stats w), w).

(** [stats['deleted_count'] += 1] *)
Definition incr_deleted_count : M unit :=
  fun w => set_stats (mkStats (total_freed (stats w))
                              (deleted_count (stats w) + 1)) w.

(** [stats['total_freed'] += freed] *)
Definition add_total_freed (freed : Z) : M unit :=
  fun w => set_stats (mkStats (total_freed (stats w) + freed)
                              (deleted_count (stats w))) w.

(** A [for] loop that carries one local variable. *)
Fixpoint for_each {A S} (l : list A) (s : S) (body : S -> A -> M S) : M S :=
  match l with
  | [] => ret s
  | a :: l' => bind (body s a) (fun s' => for_each l' s' body)
  end.

Definition when (b : bool) (m : M unit) : M unit :=
  if b then m else ret tt.

End Proc.
Export Proc.

Declare Scope proc_scope.
Delimit Scope proc_scope with proc.
Notation "x <- m ;; k" := (bind m (fun x => k))
  (at level 61, m at next level, right associativity) : proc_scope.
Notation "m ;; k" := (bind m (fun _ => k))
  (at level 61, right associativity) : proc_scope.
Local Open Scope proc_scope.

(** ** Text: what the program does to a line of input *)

Module Text.

Definition lower_ascii (c : ascii) : ascii :=
  let n := nat_of_ascii c in
  if ((65 <=? n) && (n <=? 90))%nat then ascii_of_nat (n + 32) else c.

(** [s.lower()] on ASCII text. *)
Fixpoint lower (s : string) : string :=
  match s with
  | EmptyString => EmptyString
  | String c s' => String (lower_ascii c) (lower s')
  end.

(** The ASCII characters [str.strip] removes. *)
Definition is_space (c : ascii) : bool :=
  let n := nat_of_ascii c in
  (((9 <=? n) && (n <=? 13)) || ((28 <=? n) && (n <=? 32)))%nat.

Fixpoint lstrip (s : string) : string :=
  match s with
  | EmptyString => EmptyString
  | String c s' => if is_space c then lstrip s' else s
  end.

Fixpoint rstrip (s : string) : string :=
  match s with
  | EmptyString => EmptyString
  | String c s' =>
      match rstrip s' with
      | EmptyString => if is_space c then EmptyString
                       else String c EmptyString
      | r => String c r
      end
  end.

(** [s.strip()] *)
Definition strip (s : string) : string := rstrip (lstrip s).

Definition is_digit (c : ascii) : bool :=
  let n := nat_of_ascii c in ((48 <=? n) && (n <=? 57))%nat.

Fixpoint all_digits (s : string) : bool :=
  match s with
  | EmptyString => true
  | String c s' => is_digit c && all_digits s'
  end.

(** [s.isdigit()] on ASCII text: at least one character, all digits. *)
Definition isdigit (s : string) : bool :=
  match s with
  | EmptyString => false
  | _ => all_digits s
  end.

Fixpoint int_acc (s : string) (acc : Z) : Z :=
  match s with
  | EmptyString => acc
  | String c s' => int_acc s' (10 * acc + (Z.of_nat (nat_of_ascii c) - 48))
  end.

(** [int(s)] for a string of digits. *)
Definition int (s : string) : Z := int_acc s 0.

End Text.
Export Text.

(** ** Remover ([delete_directory], [wipe_all_cleanable]) *)

Module Remover.

Fixpoint refusal (l : list (path * exc)) (p : path) : option exc :=
  match l with
  | [] => None
  | (q, e) :: l' => if path_eqb q p then Some e else refusal l' p
  end.

(** The operating system lets the removal of [p] through. *)
Definition unrefused (w : world) (p : path) : bool :=
  match refusal (refused w) p with
  | None => true
  | Some _ => false
  end.

(** [shutil.rmtree(path)]: the directory goes with all it holds, or the
    call raises and the tree is as it was.  The program only passes
    entries that [iterdir] listed, never the root. *)
Definition rmtree (p : path) : M unit :=
  fun w =>
    match lookup (fs w) p with
    | None => (Raised FileNotFoundError, w)
    | Some (File _) => (Raised NotADirectoryError, w)
    | Some (Dir _ _) =>
        match p with
        | [] => (Raised (OtherOSError "Device or resource busy"), w)
        | _ :: _ =>
            match refusal (refused w) p with
            | Some e => (Raised e, w)
            | None =>
                (Ok tt, mkWorld (remove_at p (fs w)) (refused w) (stdin w)
                                (stdout w) (stats w))
            end
        end
    end.

(** [except Exception] takes every exception of the model. *)
Definition delete_directory (p : path) : M bool :=
  try_except (rmtree p ;; ret true)
             (fun _ => true)
             (fun e => print (MErrorDeleting p e) ;; ret false).

(** The body of the first loop of [wipe_all_cleanable]. *)
Definition wipe_entry (directory : path) (freed : Z) (e : entry) : M Z :=
  let '(p, type_, size) := e in
  ok <- delete_directory p ;;
  if ok : bool then
    print (MWipeDeleted (relative_to p (parent directory)) size) ;;
    incr_deleted_count ;;
    ret (freed + size)
  else ret freed.

Fixpoint wipe_all_cleanable (fuel : nat) (directory : path) : M Z :=
  match fuel with
  | O => out_of_fuel
  | S fuel' =>
      cleanable <- query (fun fs => find_cleanable_in_dir fs directory) ;;
      freed <- for_each cleanable 0 (wipe_entry directory) ;;
      subdirs <- query (fun fs => get_subdirs fs directory) ;;
      for_each subdirs freed
               (fun freed subdir =>
                  below <- wipe_all_cleanable fuel' subdir ;;
                  ret (freed + below))
  end.

End Remover.
Export Remover.

(** ** NavigationSession ([navigate_directory], [main]) *)

Module Navigator.

(** What [navigate_directory] returns: [None], 'up', 'next' or 'prev'. *)
Inductive signal : Type := SigNone | SigUp | SigNext | SigPrev.

(** The three locals that remember a recursive scan. *)
Record scan_state : Type := mkScan {
  has_recursive_items : option bool;
  recursive_count : Z;
  recursive_size : Z
}.

Definition init_scan : scan_state := mkScan None 0 0.

(** [if has_recursive_items:] *)
Definition scan_found (st : scan_state) : bool :=
  match has_recursive_items st with
  | Some true => true
  | _ => false
  end.

Definition nonempty {A} (l : list A) : bool :=
  match l with [] => false | _ :: _ => true end.

Definition len {A} (l : list A) : Z := Z.of_nat (List.length l).

(** [l[i]]: a negative index counts from the end, [None] stands for
    [IndexError]. *)
Definition py_nth {A} (l : list A) (i : Z) : option A :=
  if i <? 0 then
    if len l + i <? 0 then None else nth_error l (Z.to_nat (len l + i))
  else nth_error l (Z.to_nat i).

Definition has_next (parent_subdirs : option (list path))
           (current_idx : option Z) : bool :=
  match parent_subdirs, current_idx with
  | Some ((_ :: _) as l), Some i => i <? len l - 1
  | _, _ => false
  end.

Definition has_prev (parent_subdirs : option (list path))
           (current_idx : option Z) : bool :=
  match parent_subdirs, current_idx with
  | Some (_ :: _), Some i => i >? 0
  | _, _ => false
  end.

Definition cleanable_size (cleanable : list entry) : Z :=
  fold_right (fun e acc => entry_size e + acc) 0 cleanable.

(** Lines 178-200: the view of the current directory. *)
Definition render (directory : path) (cleanable : list entry)
           (subdirs : list path) (st : scan_state) : M unit :=
  print (MCurrent directory) ;;
  (if nonempty cleanable
   then print (MCleanableItems
                 (map (fun e => (name (entry_path e), entry_kind e,
                                 entry_size e)) cleanable)
                 (cleanable_size cleanable))
   else print MNoCleanable) ;;
  when (scan_found st)
       (print (MRecursiveScan (recursive_count st) (recursive_size st))) ;;
  (if nonempty subdirs
   then print (MSubdirectories (map name subdirs))
   else print MNoSubdirectories).

(** Lines 210-227: the menu. *)
Definition show_actions (can_wipe can_clean : bool) (subdirs : list path)
           (can_up next prev : bool) : M unit :=
  print MActions ;;
  when can_wipe (print MOptWipe) ;;
  when can_clean (print MOptClean) ;;
  when (nonempty subdirs)
       (print (MOptNavigate (len subdirs)) ;; print MOptRecursive) ;;
  when can_up (print MOptUp) ;;
  when next (print MOptNext) ;;
  when prev (print MOptPrev) ;;
  print MOptSkip ;;
  print MOptQuit.

(** Lines 253-265: the 'r' action, up to the [continue]. *)
Definition recursive_scan_action (directory : path) (st : scan_state)
  : M scan_state :=
  print MScanning ;;
  found <- query (fun fs => scan_recursive fs directory 10) ;;
  st' <- (let '(count, size) := found in
          if count >? 0 then
            print (MFound count) ;;
            print (MPotential size) ;;
            ret (mkScan (Some true) count size)
          else
            print MNoneFound ;;
            ret (mkScan (Some false) (recursive_count st)
                        (recursive_size st))) ;;
  _ <- input MPromptEnter ;;
  ret st'.

(** Lines 270-277: the 'w' action, up to the [continue]. *)
Definition wipe_action (fuel : nat) (directory : path) : M unit :=
  print (MWiping (name directory)) ;;
  freed <- wipe_all_cleanable fuel directory ;;
  add_total_freed freed ;;
  print (MFreedTree freed).

(** The body of the loop of the 'c' action. *)
Definition clean_entry (freed : Z) (e : entry) : M Z :=
  let '(p, type_, size) := e in
  ok <- delete_directory p ;;
  if ok : bool then
    print (MCleanDeleted (name p)) ;;
    incr_deleted_count ;;
    ret (freed + size)
  else ret freed.

(** Lines 282-289: the 'c' action, up to the [continue]. *)
Definition clean_action (cleanable : list entry) : M unit :=
  freed <- for_each cleanable 0 clean_entry ;;
  add_total_freed freed ;;
  print (MFreed freed).

(** What the loop over the subdirectories does with the child's answer
    (lines 300-317): leave the loop, or go on at an index, perhaps after
    a notice. *)
Inductive step : Type :=
| Break
| Goto (subdir_idx : Z) (notice : option msg).

Definition sibling_step (result : signal) (subdir_idx n : Z) : step :=
  match result with
  | SigUp => Break
  | SigNext =>
      let subdir_idx := subdir_idx + 1 in
      if subdir_idx >=? n then Goto (n - 1) (Some MNoMoreFolders)
      else Goto subdir_idx None
  | SigPrev =>
      let subdir_idx := subdir_idx - 1 in
      if subdir_idx <? 0 then Goto 0 (Some MAlreadyFirst)
      else Goto subdir_idx None
  | SigNone => Goto (subdir_idx + 1) None
  end.

(** [navigate_loop] is the [while True] of [navigate_directory], entered
    with the scan state of the moment; [sibling_loop] is the inner
    [while subdir_idx < len(subdirs)].  Each turn of either loop takes
    one unit of [fuel]. *)
Fixpoint navigate_loop (fuel : nat) (directory start_path : path)
         (parent_subdirs : option (list path)) (current_idx : option Z)
         (st : scan_state) {struct fuel} : M signal :=
  match fuel with
  | O => out_of_fuel
  | S fuel' =>
      let continue := navigate_loop fuel' directory start_path
                                    parent_subdirs current_idx in
      cleanable <- query (fun fs => find_cleanable_in_dir fs directory) ;;
      subdirs <- query (fun fs => get_subdirs fs directory) ;;
      render directory cleanable subdirs st ;;
      let can_wipe := nonempty cleanable || scan_found st in
      let next := has_next parent_subdirs current_idx in
      let prev := has_prev parent_subdirs current_idx in
      let can_up := negb (path_eqb directory start_path) in
      show_actions can_wipe (nonempty cleanable) subdirs can_up next prev ;;
      line <- input MPromptChoice ;;
      let choice := strip (lower line) in
      if String.eqb choice "q" then
        print MQuitting ;; sys_exit 0
      else if String.eqb choice "s" then
        ret SigNone
      else if String.eqb choice "u" && can_up then
        ret SigUp
      else if String.eqb choice "n" && next then
        ret SigNext
      else if String.eqb choice "p" && prev then
        ret SigPrev
      else if String.eqb choice "r" && nonempty subdirs then
        st' <- recursive_scan_action directory st ;;
        continue st'
      else if String.eqb choice "w" && can_wipe then
        wipe_action fuel' directory ;;
        continue init_scan
      else if String.eqb choice "c" && nonempty cleanable then
        clean_action cleanable ;;
        continue st
      else if isdigit choice && nonempty subdirs then
        let idx := int choice - 1 in
        if (0 <=? idx) && (idx <? len subdirs) then
          sibling_loop fuel' subdirs 0 start_path ;;
          continue st
        else
          print (MInvalidNumber (len subdirs)) ;;
          continue st
      else
        print MInvalidChoice ;;
        continue st
  end

with sibling_loop (fuel : nat) (subdirs : list path) (subdir_idx : Z)
                  (start_path : path) {struct fuel} : M unit :=
  match fuel with
  | O => out_of_fuel
  | S fuel' =>
      if subdir_idx <? len subdirs then
        match py_nth subdirs subdir_idx with
        | None => raise IndexError
        | Some subdir =>
            result <- navigate_loop fuel' subdir start_path (Some subdirs)
                                    (Some subdir_idx) init_scan ;;
            match sibling_step result subdir_idx (len subdirs) with
            | Break => ret tt
            | Goto i notice =>
                match notice with
                | Some m => print m
                | None => ret tt
                end ;;
                sibling_loop fuel' subdirs i start_path
            end
        end
      else ret tt
  end.

Definition navigate_directory (fuel : nat) (directory start_path : path)
           (parent_subdirs : option (list path)) (current_idx : option Z)
  : M signal :=
  navigate_loop fuel directory start_path parent_subdirs current_idx
                init_scan.

(** Lines 349-359: the siblings of the starting directory. *)
Definition siblings_of (fs : node) (search_path : path)
  : option (list path) * option Z :=
  if negb (path_eqb (parent search_path) search_path) then
    let parent_subdirs := get_subdirs fs (parent search_path) in
    match index parent_subdirs search_path with
    | Some current_idx => (Some parent_subdirs, Some current_idx)
    | None => (None, None)
    end
  else (None, None).

(** [main], from the resolved [search_path] on. *)
Definition main (fuel : nat) (search_path : path) : M unit :=
  print MBanner ;;
  present <- query (fun fs => exists_ fs search_path) ;;
  if negb present then
    print (MPathMissing search_path) ;;
    sys_exit 1
  else
    set_stats (mkStats 0 0) ;;
    sib <- query (fun fs => siblings_of fs search_path) ;;
    _ <- navigate_directory fuel search_path search_path (fst sib) (snd sib) ;;
    s <- get_stats ;;
    print (MSummary (deleted_count s) (total_freed s)).

(** The exit status of the process: an exception that nobody caught
    ends it with status 1. *)
Definition exit_code {A} (r : res A) : option Z :=
  match r with
  | Ok _ => Some 0
  | Exited c => Some c
  | Raised _ => Some 1
  | OutOfFuel => None
  end.

End Navigator.
Export Navigator.

(** ** What one turn of the navigation loop prints *)

Module Trace.

(** The world after some more messages. *)
Definition say (ms : list msg) (w : world) : world :=
  mkWorld (fs w) (refused w) (stdin w) (stdout w ++ ms) (stats w).

(** The world after one line of input has been taken. *)
Definition consume (w : world) : world :=
  mkWorld (fs w) (refused w) (tl (stdin w)) (stdout w) (stats w).

Definition render_msgs (directory : path) (cleanable : list entry)
           (subdirs : list path) (st : scan_state) : list msg :=
  [MCurrent directory] ++
  (if nonempty cleanable
   then [MCleanableItems
           (map (fun e => (name (entry_path e), entry_kind e, entry_size e))
                cleanable)
           (cleanable_size cleanable)]
   else [MNoCleanable]) ++
  (if scan_found st
   then [MRecursiveScan (recursive_count st) (recursive_size st)]
   else []) ++
  (if nonempty subdirs
   then [MSubdirectories (map name subdirs)]
   else [MNoSubdirectories]).

Definition action_msgs (can_wipe can_clean : bool) (subdirs : list path)
           (can_up next prev : bool) : list msg :=
  [MActions] ++
  (if can_wipe then [MOptWipe] else []) ++
  (if can_clean then [MOptClean] else []) ++
  (if nonempty subdirs
   then [MOptNavigate (len subdirs); MOptRecursive] else []) ++
  (if can_up then [MOptUp] else []) ++
  (if next then [MOptNext] else []) ++
  (if prev then [MOptPrev] else []) ++
  [MOptSkip; MOptQuit].

(** All that is printed from the top of the loop to the prompt. *)
Definition view_msgs (fs : node) (directory start_path : path)
           (parent_subdirs : option (list path)) (current_idx : option Z)
           (st : scan_state) : list msg :=
  let cleanable := find_cleanable_in_dir fs directory in
  let subdirs := get_subdirs fs directory in
  render_msgs directory cleanable subdirs st ++
  action_msgs (nonempty cleanable || scan_found st) (nonempty cleanable)
              subdirs (negb (path_eqb directory start_path))
              (has_next parent_subdirs current_idx)
              (has_prev parent_subdirs current_idx) ++
  [MPromptChoice].

(** The world once the view is on screen and the answer has been read. *)
Definition prompted (directory start_path : path)
           (parent_subdirs : option (list path)) (current_idx : option Z)
           (st : scan_state) (w : world) : world :=
  say (view_msgs (fs w) directory start_path parent_subdirs current_idx st)
      (consume w).

(** [choice = input("Choice: ").lower().strip()] *)
Definition choice_of (line : string) : string := strip (lower line).

(** The world in which [main] calls [navigate_directory]: the banner is
    out and [stats] is fresh. *)
Definition started (w : world) : world :=
  mkWorld (fs w) (refused w) (stdin w) (stdout w ++ [MBanner]) (mkStats 0 0).

(** The two lines that close a session. *)
Definition summary_of (w : world) : msg :=
  MSummary (deleted_count (stats w)) (total_freed (stats w)).

Definition is_summary (m : msg) : bool :=
  match m with MSummary _ _ => true | _ => false end.

(** Every path of [ps] names an entry of the directory [d]. *)
Definition children_of (d : path) (ps : list path) : Prop :=
  forall p, In p ps -> exists y, p = d ++ [y].

(** The world once the entries of [l] have been deleted one after the
    other, each deletion announced by [note] and counted. *)
Definition after_deletions (note : entry -> msg) (l : list entry) (w : world)
  : world :=
  mkWorld (remove_all (map entry_path l) (fs w)) (refused w) (stdin w)
          (stdout w ++ map note l)
          (mkStats (total_freed (stats w))
                   (deleted_count (stats w) + len l)).

(** The world once [freed] more bytes are on the books. *)
Definition credited (freed : Z) (w : world) : world :=
  mkWorld (fs w) (refused w) (stdin w) (stdout w)
          (mkStats (total_freed (stats w) + freed) (deleted_count (stats w))).

Definition wipe_note (directory : path) (e : entry) : msg :=
  MWipeDeleted (relative_to (entry_path e) (parent directory)) (entry_size e).

Definition clean_note (e : entry) : msg :=
  MCleanDeleted (name (entry_path e)).

(** The cleanable entries at and below a directory: its own, then those
    of its plain subdirectories in turn, down to [depth] levels. *)
Fixpoint cleanable_below (depth : nat) (fs : node) (d : path) : list entry :=
  match depth with
  | O => []
  | S k =>
      find_cleanable_in_dir fs d ++
      flat_map (cleanable_below k fs) (get_subdirs fs d)
  end.

(** The plain directories at and below [d] are nested less than [depth]
    deep, none of them lists a name twice, and none of the removals of
    their cleanable entries is refused. *)
Fixpoint wipeable (depth : nat) (w : world) (d : path) : bool :=
  match depth with
  | O => false
  | S k =>
      lists_once (fs w) d &&
      forallb (fun e => unrefused w (entry_path e))
              (find_cleanable_in_dir (fs w) d) &&
      forallb (wipeable k w) (get_subdirs (fs w) d)
  end.

(** Whatever parts ways with [d] is in [fs'] what it is in [fs]. *)
Definition untouched_outside (d : path) (fs fs' : node) : Prop :=
  forall c x y t t',
    x <> y -> d = c ++ x :: t' ->
    lookup fs' (c ++ y :: t) = lookup fs (c ++ y :: t).

(** [w'] is [w] once the cleanable entries at and below [d] are gone and
    counted. *)
Definition wiped (depth : nat) (d : path) (w w' : world) : Prop :=
  refused w' = refused w /\
  stdin w' = stdin w /\
  stats w' =
  mkStats (total_freed (stats w))
          (deleted_count (stats w) + len (cleanable_below depth (fs w) d)) /\
  untouched_outside d (fs w) (fs w') /\
  (forall e t, In e (cleanable_below depth (fs w) d) ->
               lookup (fs w') (entry_path e ++ t) = None).

(** How many levels of directories a node has. *)
Fixpoint height (n : node) : nat :=
  match n with
  | File _ => O
  | Dir _ es =>
      S ((fix over (es : list (string * node)) : nat :=
            match es with
            | [] => O
            | (_, c) :: es' => Nat.max (height c) (over es')
            end) es)
  end.

Definition max_height (es : list (string * node)) : nat :=
  fold_right (fun e m => Nat.max (height (snd e)) m) O es.

Definition height_at (fs : node) (p : path) : nat :=
  match lookup fs p with
  | Some n => height n
  | None => O
  end.

(** Nothing in [fs'] is taller than it is in [fs]. *)
Definition erodes (fs fs' : node) : Prop :=
  forall q, (height_at fs' q <= height_at fs q)%nat.

(** [w'] has no taller tree and no more input left than [w]. *)
Definition shrinks (w w' : world) : Prop :=
  erodes (fs w) (fs w') /\
  (List.length (stdin w') <= List.length (stdin w))%nat.

(** What a session may still need of the model's recursion budget: two
    turns for each line of input, and the depth of the tree for a wipe. *)
Definition budget (w : world) : nat :=
  2 * List.length (stdin w) + height (fs w).

(** [w'] shows what [w] showed, then more, and no summary in that. *)
Definition quiet (w w' : world) : Prop :=
  exists ms, stdout w' = stdout w ++ ms /\
             forall m, In m ms -> is_summary m = false.

(** How a piece of the session may end: it prints no summary, adds
    nothing to the tree or to the input, leaves by
    [sys.exit] only with status 0 and right after the farewell, and lets
    no exception out but the end of the input. *)
Definition orderly {A} (w : world) (r : res A) (w' : world) : Prop :=
  quiet w w' /\
  shrinks w w' /\
  (forall c, r = Exited c ->
             c = 0 /\ exists ms, stdout w' = ms ++ [MQuitting]) /\
  (forall e, r = Raised e -> e = EOFError).

Definition keeps {A} (m : M A) : Prop :=
  forall w r w', m w = (r, w') -> orderly w r w'.

(** With [f] units of recursion budget, [m] comes to an end of its own
    in every world whose needs stay below [f]. *)
Definition finishes {A} (f : nat) (m : M A) : Prop :=
  forall w, (budget w + 1 < f)%nat -> fst (m w) <> OutOfFuel.

Definition sound {A} (f : nat) (m : M A) : Prop :=
  keeps m /\ finishes f m.

End Trace.
Export Trace.

(** ** Sample trees *)

Module Samples.

Definition marked_node_modules : node :=
  Dir true [("node_modules", Dir true [("pyvenv.cfg", File 10)])].

Definition plain_node_modules : node :=
  Dir true [("node_modules", Dir true [("left-pad", Dir true [])]);
            ("renamed", Dir true [("left-pad", Dir true [])])].

(** A virtual environment that holds a [node_modules] of its own. *)
Definition nested_cleanable : node :=
  Dir true
    [("proj", Dir true
        [(".venv", Dir true
            [("pyvenv.cfg", File 10);
             ("node_modules", Dir true [("index.js", File 32)])]);
         ("notes.txt", File 5)])].

(** Three levels of plain directories with a virtual environment at the
    bottom. *)
Definition deep_tree : node :=
  Dir true
    [("a", Dir true
        [("b", Dir true
            [("c", Dir true
                [("env", Dir true [("pyvenv.cfg", File 64)])])])]);
     ("setup.py", File 9)].

(** A project with three plain subdirectories. *)
Definition three_siblings : node :=
  Dir true
    [("work", Dir true
        [("alpha", Dir true [("a.py", File 1)]);
         ("beta", Dir true [("b.py", File 2)]);
         ("gamma", Dir true [("c.py", File 3)])])].

Definition world_of (tree : node) (lines : list string) : world :=
  mkWorld tree [] lines [] (mkStats 0 0).

(** A project that is the only subdirectory of its parent. *)
Definition lone_project : node :=
  Dir true [("proj", Dir true [("main.py", File 7)]); ("notes.txt", File 1)].

(** The reference scenario: under [proj], a virtual environment [.venv]
    of 100 bytes and a [node_modules] of 200 bytes, and one plain
    subdirectory [src] that holds a virtual environment [env] of 50
    bytes. *)
Definition reference_tree : node :=
  Dir true
    [("proj", Dir true
        [(".venv", Dir true [("pyvenv.cfg", File 100)]);
         ("node_modules",
          Dir true [("left-pad", Dir true [("index.js", File 200)])]);
         ("src", Dir true
            [("env", Dir true [("bin", Dir true [("activate", File 50)])]);
             ("main.py", File 7)]);
         ("README", File 3)])].

(** [inner], wrapped in [n] plain directories. *)
Fixpoint nest (n : nat) (inner : node) : node :=
  match n with
  | O => inner
  | S k => Dir true [("pkg", nest k inner)]
  end.

(** The reference scenario with [env] twelve levels further down, out of
    reach of a scan with [max_depth = 10]. *)
Definition deep_reference : node :=
  Dir true
    [("proj", Dir true
        [(".venv", Dir true [("pyvenv.cfg", File 100)]);
         ("node_modules",
          Dir true [("left-pad", Dir true [("index.js", File 200)])]);
         ("src",
          nest 12 (Dir true
                     [("env", Dir true
                                [("bin", Dir true [("activate", File 50)])])]))
        ])].

Definition deep_env : path :=
  ["proj"; "src"] ++ repeat "pkg" 12 ++ ["env"].

(** The same, with [.venv] held by a running interpreter. *)
Definition busy_world (lines : list string) : world :=
  mkWorld reference_tree
          [(["proj"; ".venv"], PermissionError "Permission denied")]
          lines [] (mkStats 0 0).

End Samples.
Export Samples.

(** ** Further notions used to state what the rest of the program does *)

Module Coverage.

(** Every character of the text is one that [str.strip] removes. *)
Fixpoint blank (s : string) : bool :=
  match s with
  | EmptyString => true
  | String c s' => is_space c && blank s'
  end.

Definition upper_ascii (c : ascii) : ascii :=
  let n := nat_of_ascii c in
  if ((97 <=? n) && (n <=? 122))%nat then ascii_of_nat (n - 32) else c.

(** [s.upper()] on ASCII text. *)
Fixpoint upper (s : string) : string :=
  match s with
  | EmptyString => EmptyString
  | String c s' => String (upper_ascii c) (upper s')
  end.

(** The letters of the menu. *)
Definition menu_letters : list string :=
  ["q"; "s"; "u"; "n"; "p"; "r"; "w"; "c"].


(** The same world with other lines waiting on the input. *)
Definition with_stdin (lines : list string) (w : world) : world :=
  mkWorld (fs w) (refused w) lines (stdout w) (stats w).

(** What the inner loop of the numeric choice does with the answer of
    the visit at index [i] (lines 300-317). *)
Definition after_visit (f : nat) (subdirs : list path) (i : Z)
           (start_path : path) (result : signal) : M unit :=
  match sibling_step result i (len subdirs) with
  | Break => ret tt
  | Goto j notice =>
      (match notice with
       | Some m => print m
       | None => ret tt
       end ;;
       sibling_loop f subdirs j start_path)%proc
  end.

(** The world after a visit to each directory of [todo] in turn, the
    first of them at index [i] of [subdirs], each left by a skip. *)
Fixpoint skipped_through (subdirs : list path) (i : Z) (todo : list path)
         (start_path : path) (w : world) : world :=
  match todo with
  | [] => w
  | s :: todo' =>
      skipped_through subdirs (i + 1) todo' start_path
        (prompted s start_path (Some subdirs) (Some i) init_scan w)
  end.


(** [iterdir] lists the entry. *)
Definition listed (fs : node) (d e : path) : Prop :=
  exists entries, iterdir fs d = inl entries /\ In e entries.

(** Nothing on the way from the root down to [q], [q] included, is a
    virtual environment or a [node_modules]. *)
Definition outside_cleanable (fs : node) (q : path) : Prop :=
  forall p, p <> [] -> is_prefix p q = true -> classify fs p = None.

(** Two nodes are the same file, or are both directories, alike in
    whether they may be listed. *)
Definition same_kind (n n' : node) : bool :=
  match n, n' with
  | File a, File b => a =? b
  | Dir r _, Dir r' _ => Bool.eqb r r'
  | _, _ => false
  end.

(** [fs'] is [fs] with some of it gone and nothing new: what [fs'] has,
    [fs] has, of the same kind. *)

Definition nothing_new (fs fs' : node) : Prop :=
  forall q n', lookup fs' q = Some n' ->
               exists n, lookup fs q = Some n /\ same_kind n n' = true.

(** What lies outside the cleanable directories of [fs] is in [fs'] what
    it was: files are the same, directories are still directories. *)
Definition source_kept (fs fs' : node) : Prop :=
  forall q n, outside_cleanable fs q -> lookup fs q = Some n ->
              exists n', lookup fs' q = Some n' /\ same_kind n n' = true.

Definition pruned (fs fs' : node) : Prop :=
  nothing_new fs fs' /\ source_kept fs fs'.

(** [m] leaves the tree alone. *)
Definition steady {A} (m : M A) : Prop :=
  forall w r w', m w = (r, w') -> fs w' = fs w.

(** [m] keeps the tree a pruning of [fs0]. *)
Definition prunes {A} (fs0 : node) (m : M A) : Prop :=
  forall w r w', pruned fs0 (fs w) -> m w = (r, w') -> pruned fs0 (fs w').



(** The lines that report a deletion (lines 147 and 285). *)
Definition is_deletion (m : msg) : bool :=
  match m with
  | MWipeDeleted _ _ | MCleanDeleted _ => true
  | _ => false
  end.

Definition deletions_reported (out : list msg) : Z :=
  len (filter is_deletion out).

(** The bytes of the lines that report freed space (lines 273 and 289). *)
Definition freed_of (m : msg) : Z :=
  match m with
  | MFreed freed | MFreedTree freed => freed
  | _ => 0
  end.

Definition freed_reported (out : list msg) : Z :=
  fold_right (fun m acc => freed_of m + acc) 0 out.

(** How far the statistics are ahead of what has been reported. *)
Definition balance (w : world) : Z * Z :=
  (deleted_count (stats w) - deletions_reported (stdout w),
   total_freed (stats w) - freed_reported (stdout w)).

(** [m] counts what it reports and reports what it counts. *)
Definition balanced {A} (m : M A) : Prop :=
  forall w r w', m w = (r, w') -> balance w' = balance w.

(** A project next to a directory that may not be listed, and that
    holds a virtual environment. *)
Definition locked_tree : node :=
  Dir true
    [("proj", Dir true [("main.py", File 7)]);
     ("vault", Dir false [("env", Dir true [("pyvenv.cfg", File 10)])])].

End Coverage.
Export Coverage.

(** * Properties *)

Unset Implicit Arguments.

(** ** Detector *)

Section DetectorFacts.

Variable fs : node.

Lemma is_venv_true_iff (p : path) :
  is_venv fs p = true <->
  is_dir fs p = true /\ existsb (exists_ fs) (indicators p) = true.
Proof.
  unfold is_venv. destruct (is_dir fs p); simpl; intuition congruence.
Qed.

Lemma classify_venv (p : path) :
  classify fs p = Some VirtualEnv <-> is_venv fs p = true.
Proof.
  unfold classify.
  destruct (is_venv fs p); [tauto|].
  destruct (is_node_modules fs p); split; congruence.
Qed.

Lemma classify_cache (p : path) :
  classify fs p = Some DependencyCache <->
  is_venv fs p = false /\ is_node_modules fs p = true.
Proof.
  unfold classify.
  destruct (is_venv fs p), (is_node_modules fs p); intuition congruence.
Qed.

Lemma classify_none (p : path) :
  classify fs p = None <->
  is_venv fs p = false /\ is_node_modules fs p = false.
Proof.
  unfold classify.
  destruct (is_venv fs p), (is_node_modules fs p); intuition congruence.
Qed.

Lemma classify_cleanable (p : path) :
  is_venv fs p || is_node_modules fs p = true <-> classify fs p <> None.
Proof.
  unfold classify.
  destruct (is_venv fs p), (is_node_modules fs p); simpl;
    intuition congruence.
Qed.

Lemma is_node_modules_name (p : path) :
  is_node_modules fs p = true ->
  is_dir fs p = true /\ name p = "node_modules".
Proof.
  unfold is_node_modules. rewrite andb_true_iff, String.eqb_eq. tauto.
Qed.

End DetectorFacts.

(** Whatever [iterdir] raises is caught by [except (PermissionError,
    OSError)]. *)
Lemma iterdir_raises_OSError (fs : node) (p : path) (e : exc) :
  iterdir fs p = inr e -> is_OSError e = true.
Proof.
  unfold iterdir. destruct (lookup fs p) as [[|[] es]|]; intros [= <-];
    reflexivity.
Qed.

(** A directory's classification is read off the node it is and the name
    it goes by: where it sits in the tree does not matter. *)
Lemma lookup_app (fs : node) (p q : path) :
  lookup fs (p ++ q) =
  match lookup fs p with Some n => lookup n q | None => None end.
Proof.
  revert fs. induction p as [|a p IH]; intros fs; simpl; [reflexivity|].
  destruct fs as [|r es]; [reflexivity|].
  destruct (find_entry a es); [apply IH | reflexivity].
Qed.

Lemma exists_under (fs : node) (p q : path) (n : node) :
  lookup fs p = Some n -> exists_ fs (p ++ q) = exists_ n q.
Proof. intros H. unfold exists_. now rewrite lookup_app, H. Qed.

Lemma is_venv_node (fs : node) (p : path) (n : node) :
  lookup fs p = Some n -> is_venv fs p = is_venv n [].
Proof.
  intros H. unfold is_venv, is_dir, indicators, div. simpl.
  rewrite H.
  destruct n as [|r es]; [reflexivity|]. simpl negb. cbv iota.
  rewrite <- !app_assoc.
  rewrite !(exists_under fs p _ _ H). reflexivity.
Qed.

(** C4.  For every path [D], the classifier answers [VirtualEnv] exactly
    when [D] is a directory and at least one of [pyvenv.cfg],
    [bin/activate] and [Scripts/activate.bat] exists under it; nothing
    else that [D] holds is looked at. *)
Theorem classify_virtualenv_iff_marker (fs : node) (D : path) :
  classify fs D = Some VirtualEnv <->
  is_dir fs D = true /\
  (exists_ fs (div D "pyvenv.cfg") = true \/
   exists_ fs (div (div D "bin") "activate") = true \/
   exists_ fs (div (div D "Scripts") "activate.bat") = true).
Proof.
  rewrite classify_venv, is_venv_true_iff. unfold indicators.
  cbn [existsb]. rewrite orb_false_r, !orb_true_iff. tauto.
Qed.

(** A directory named [node_modules] that holds a venv marker is taken
    for a virtual environment: the venv test comes first. *)
Lemma node_modules_with_marker_is_venv :
  ~ (forall (fs : node) (p : path),
        is_dir fs p = true -> name p = "node_modules" ->
        classify fs p = Some DependencyCache).
Proof.
  intros H.
  specialize (H marked_node_modules ["node_modules"] eq_refl eq_refl).
  vm_compute in H. discriminate H.
Qed.

(** C3, amended.  A directory named exactly [node_modules] that carries
    none of the venv markers is classified [DependencyCache]; the same
    directory under any other name is classified [None]; and no
    directory with another name is ever [DependencyCache]. *)
Theorem classify_node_modules_by_name
        (fs fs' : node) (p q : path) (r : bool) (es : list (string * node)) :
  lookup fs p = Some (Dir r es) ->
  lookup fs' q = Some (Dir r es) ->
  name p = "node_modules" ->
  name q <> "node_modules" ->
  is_venv fs p = false ->
  classify fs p = Some DependencyCache /\
  classify fs' q = None /\
  (forall (fs0 : node) (p0 : path),
      name p0 <> "node_modules" -> classify fs0 p0 <> Some DependencyCache).
Proof.
  intros Hp Hq Np Nq V. split; [|split].
  - apply classify_cache. split; [exact V|].
    unfold is_node_modules, is_dir. rewrite Hp, Np. reflexivity.
  - apply classify_none. split.
    + rewrite (is_venv_node _ _ _ Hq), <- (is_venv_node _ _ _ Hp). exact V.
    + unfold is_node_modules. apply andb_false_iff. right.
      apply String.eqb_neq. exact Nq.
  - intros fs0 p0 N0 C. apply classify_cache in C. destruct C as [_ C].
    apply is_node_modules_name in C. tauto.
Qed.

Lemma classify_node_modules_by_name_witness :
  classify plain_node_modules ["node_modules"] = Some DependencyCache /\
  classify plain_node_modules ["renamed"] = None /\
  (forall (fs0 : node) (p0 : path),
      name p0 <> "node_modules" -> classify fs0 p0 <> Some DependencyCache).
Proof.
  apply (classify_node_modules_by_name
           plain_node_modules plain_node_modules
           ["node_modules"] ["renamed"] true [("left-pad", Dir true [])]).
  - reflexivity.
  - reflexivity.
  - reflexivity.
  - discriminate.
  - reflexivity.
Defined.

(** ** Scanner *)

Section ScannerFacts.

Variable fs : node.

Lemma len_cons {A} (a : A) (l : list A) : len (a :: l) = 1 + len l.
Proof. unfold len. simpl List.length. lia. Qed.

Lemma len_app {A} (l l' : list A) : len (l ++ l') = len l + len l'.
Proof. unfold len. rewrite length_app. lia. Qed.

Lemma len_nonneg {A} (l : list A) : 0 <= len l.
Proof. unfold len. lia. Qed.

Lemma cleanable_size_app (l l' : list entry) :
  cleanable_size (l ++ l') = cleanable_size l + cleanable_size l'.
Proof.
  unfold cleanable_size. induction l as [|e l IH]; simpl; [reflexivity|].
  rewrite IH. lia.
Qed.

Lemma cleanable_of_dir_cleanable (e : path) :
  is_dir fs e = true -> classify fs e <> None ->
  exists k, cleanable_of fs e = [(e, k, get_dir_size fs e)].
Proof.
  intros D C. unfold cleanable_of. rewrite D. simpl.
  destruct (classify fs e) as [k|]; [now exists k | congruence].
Qed.

Lemma cleanable_of_navigable (e : path) :
  navigable fs e = true -> cleanable_of fs e = [].
Proof.
  unfold navigable, cleanable_of, classify.
  rewrite !andb_true_iff, !negb_true_iff. intros [[D V] N].
  now rewrite D, V, N.
Qed.

(** A cleanable directory adds one to the count and its size to the
    total, whatever the recursive call would have done with it. *)
Lemma scan_step_cleanable (descend : path -> Z * Z -> Z * Z)
      (acc : Z * Z) (e : path) :
  is_dir fs e = true -> classify fs e <> None ->
  scan_step fs descend acc e = (fst acc + 1, snd acc + get_dir_size fs e).
Proof.
  intros D C. unfold scan_step. rewrite D. simpl.
  apply classify_cleanable in C. now rewrite C.
Qed.

Lemma scan_step_navigable (descend : path -> Z * Z -> Z * Z)
      (acc : Z * Z) (e : path) :
  navigable fs e = true -> scan_step fs descend acc e = descend e acc.
Proof.
  unfold navigable, scan_step.
  rewrite !andb_true_iff, !negb_true_iff. intros [[D V] N].
  now rewrite D, V, N.
Qed.

Lemma scan_step_cases (descend : path -> Z * Z -> Z * Z)
      (acc : Z * Z) (e : path) :
  (navigable fs e = true /\ cleanable_of fs e = [] /\
   scan_step fs descend acc e = descend e acc) \/
  (navigable fs e = false /\
   scan_step fs descend acc e =
   (fst acc + len (cleanable_of fs e),
    snd acc + cleanable_size (cleanable_of fs e))).
Proof.
  destruct (navigable fs e) eqn:N.
  - left. split; [reflexivity|]. split.
    + now apply cleanable_of_navigable.
    + now apply scan_step_navigable.
  - right. split; [reflexivity|].
    unfold navigable in N. unfold scan_step, cleanable_of, classify.
    destruct (is_dir fs e); simpl in *.
    + destruct (is_venv fs e); simpl in *.
      * unfold cleanable_size, len. simpl. f_equal; lia.
      * apply negb_false_iff in N. rewrite N.
        unfold cleanable_size, len. simpl. f_equal; lia.
    + unfold cleanable_size, len. simpl. destruct acc. simpl. f_equal; lia.
Qed.

(** When the recursive call contributes nothing, a pass over the entries
    of a directory counts its direct cleanable entries and nothing else. *)
Lemma scan_fold_direct (descend : path -> Z * Z -> Z * Z) (entries : list path) :
  (forall e a, In e entries -> navigable fs e = true -> descend e a = a) ->
  forall acc,
    fold_left (scan_step fs descend) entries acc =
    (fst acc + len (flat_map (cleanable_of fs) entries),
     snd acc + cleanable_size (flat_map (cleanable_of fs) entries)).
Proof.
  induction entries as [|e entries IH]; intros Hd acc.
  - simpl. unfold len, cleanable_size. simpl. destruct acc. simpl.
    f_equal; lia.
  - cbn [fold_left flat_map]. rewrite len_app, cleanable_size_app.
    rewrite IH by (intros; apply Hd; simpl; auto).
    destruct (scan_step_cases descend acc e) as [[N [C E]]|[N E]].
    + rewrite E, C, Hd by (simpl; auto).
      unfold len, cleanable_size. simpl. f_equal; lia.
    + rewrite E. simpl. f_equal; lia.
Qed.

Lemma insert_sorted_not_nil (p : path) (l : list path) : insert_sorted p l <> [].
Proof. destruct l; simpl; [discriminate|]. destruct (path_leb p p0); discriminate. Qed.

Lemma sorted_nil_inv (l : list path) : sorted l = [] -> l = [].
Proof.
  destruct l as [|p l]; [reflexivity|]. simpl. intros H.
  now apply insert_sorted_not_nil in H.
Qed.

Lemma get_subdirs_nil_no_navigable (d : path) (entries : list path) :
  iterdir fs d = inl entries -> get_subdirs fs d = [] ->
  forall e, In e entries -> navigable fs e = false.
Proof.
  unfold get_subdirs. intros -> H e He. apply sorted_nil_inv in H.
  destruct (navigable fs e) eqn:N; [|reflexivity].
  assert (In e (filter (navigable fs) entries)) as F
      by (apply filter_In; auto).
  rewrite H in F. destruct F.
Qed.

(** With [max_depth = 0] the scan sees the direct entries only. *)
Lemma scan_recursive_0_direct (d : path) :
  scan_recursive fs d 0 =
  (len (find_cleanable_in_dir fs d),
   cleanable_size (find_cleanable_in_dir fs d)).
Proof.
  unfold scan_recursive, find_cleanable_in_dir.
  change (Z.to_nat (0 + 1)) with 1%nat. cbn [scan_dir].
  destruct (iterdir fs d) as [entries|]; [|reflexivity].
  rewrite scan_fold_direct by reflexivity. reflexivity.
Qed.

End ScannerFacts.

(** C8.  With [max_depth = 0] the recursive scan returns (0, 0) as soon
    as the starting directory has no cleanable entry of its own, however
    deep the tree below and whatever it holds: nothing under the direct
    entries is looked at. *)
Theorem scan_recursive_depth_0 (fs : node) (d : path) :
  find_cleanable_in_dir fs d = [] ->
  scan_recursive fs d 0 = (0, 0).
Proof.
  intros H. rewrite scan_recursive_0_direct, H. reflexivity.
Qed.

Lemma scan_recursive_depth_0_witness :
  scan_recursive deep_tree [] 0 = (0, 0) /\
  scan_recursive deep_tree [] 10 = (1, 64).
Proof.
  split.
  - apply (scan_recursive_depth_0 deep_tree []). reflexivity.
  - reflexivity.
Defined.

(** ** Running the monad *)

Section MonadFacts.

Lemma say_nil (w : world) : say [] w = w.
Proof. destruct w. unfold say. cbn. now rewrite app_nil_r. Qed.

Lemma say_say (ms ms' : list msg) (w : world) :
  say ms' (say ms w) = say (ms ++ ms') w.
Proof. unfold say. cbn. now rewrite app_assoc. Qed.

Lemma bind_ok {A B} (m : M A) (k : A -> M B) (w w' : world) (a : A) :
  m w = (Ok a, w') -> bind m k w = k a w'.
Proof. intros H. unfold bind. now rewrite H. Qed.

Lemma bind_exited {A B} (m : M A) (k : A -> M B) (w w' : world) (c : Z) :
  m w = (Exited c, w') -> bind m k w = (Exited c, w').
Proof. intros H. unfold bind. now rewrite H. Qed.

Lemma bind_raised {A B} (m : M A) (k : A -> M B) (w w' : world) (e : exc) :
  m w = (Raised e, w') -> bind m k w = (Raised e, w').
Proof. intros H. unfold bind. now rewrite H. Qed.

Lemma bind_ret {A B} (a : A) (k : A -> M B) (w : world) :
  bind (ret a) k w = k a w.
Proof. reflexivity. Qed.

Lemma bind_bind {A B C} (m : M A) (k : A -> M B) (h : B -> M C) (w : world) :
  bind (bind m k) h w = bind m (fun a => bind (k a) h) w.
Proof. unfold bind. destruct (m w) as [[a| | |] w']; reflexivity. Qed.

Lemma bind_query {A B} (f : node -> A) (k : A -> M B) (w : world) :
  bind (query f) k w = k (f (fs w)) w.
Proof. reflexivity. Qed.

Lemma print_run (m : msg) (w : world) : print m w = (Ok tt, say [m] w).
Proof. reflexivity. Qed.

Lemma bind_print {B} (m : msg) (k : unit -> M B) (w : world) :
  bind (print m) k w = k tt (say [m] w).
Proof. reflexivity. Qed.

Lemma bind_when_print {B} (b : bool) (m : msg) (k : unit -> M B) (w : world) :
  bind (when b (print m)) k w = k tt (say (if b then [m] else []) w).
Proof. destruct b; cbn; [reflexivity|]. now rewrite say_nil. Qed.

Lemma bind_if_print {B} (b : bool) (m1 m2 : msg) (k : unit -> M B)
      (w : world) :
  bind (if b then print m1 else print m2) k w =
  k tt (say (if b then [m1] else [m2]) w).
Proof. destruct b; reflexivity. Qed.

Lemma input_cons (prompt : msg) (w : world) (line : string)
      (rest : list string) :
  stdin w = line :: rest ->
  input prompt w = (Ok line, say [prompt] (consume w)).
Proof. intros H. unfold input, say, consume. cbn. now rewrite H. Qed.

Lemma consume_say (ms : list msg) (w : world) :
  consume (say ms w) = say ms (consume w).
Proof. reflexivity. Qed.

Lemma input_eof (prompt : msg) (w : world) :
  stdin w = [] -> input prompt w = (Raised EOFError, say [prompt] (consume w)).
Proof. intros H. unfold input, say, consume. cbn. now rewrite H. Qed.

Lemma render_run (d : path) (c : list entry) (s : list path)
      (st : scan_state) (w : world) :
  render d c s st w = (Ok tt, say (render_msgs d c s st) w).
Proof.
  unfold render, render_msgs.
  rewrite bind_print, bind_if_print, bind_when_print.
  destruct (nonempty s); rewrite print_run, !say_say; reflexivity.
Qed.

Lemma show_actions_run (a b : bool) (s : list path) (c n p : bool)
      (w : world) :
  show_actions a b s c n p w = (Ok tt, say (action_msgs a b s c n p) w).
Proof.
  unfold show_actions, action_msgs.
  rewrite bind_print, !bind_when_print.
  assert (forall {B} (k : unit -> M B) w0,
             bind (when (nonempty s)
                        (print (MOptNavigate (len s));; print MOptRecursive))
                  k w0 =
             k tt (say (if nonempty s
                        then [MOptNavigate (len s); MOptRecursive]
                        else []) w0)) as E.
  { intros B k w0. destruct (nonempty s); cbn [when].
    - now rewrite bind_bind, !bind_print, say_say.
    - now rewrite bind_ret, say_nil. }
  rewrite E, !bind_when_print, bind_print, print_run, !say_say.
  reflexivity.
Qed.

End MonadFacts.

(** ** One turn of the navigation loop *)

Section NavigationTurn.

Variables (f : nat) (d sp : path) (ps : option (list path))
          (idx : option Z) (st : scan_state).
Variables (w : world) (line : string) (rest : list string).
Hypothesis Hin : stdin w = line :: rest.

(** The turn up to the answer: the directory is scanned, the view is
    printed and one line is read. *)
Ltac read_choice C :=
  cbn [navigate_loop];
  rewrite !bind_query;
  rewrite (bind_ok _ _ _ _ _ (render_run _ _ _ _ _));
  rewrite (bind_ok _ _ _ _ _ (show_actions_run _ _ _ _ _ _ _));
  rewrite (bind_ok _ _ _ _ _
             (input_cons MPromptChoice (say _ (say _ w)) _ _ Hin));
  rewrite !consume_say, !say_say;
  fold (choice_of line); rewrite C;
  change (say _ (consume w)) with (prompted d sp ps idx st w).

(** The comparisons of a known answer with the letters of the menu. *)
Ltac decide_choice :=
  repeat match goal with
         | |- context [String.eqb ?a ?b] =>
             let v := eval vm_compute in (String.eqb a b) in
             change (String.eqb a b) with v
         | |- context [isdigit ?a] =>
             let v := eval vm_compute in (isdigit a) in
             change (isdigit a) with v
         end;
  cbn [andb].

Lemma navigate_q :
  choice_of line = "q" ->
  navigate_loop (S f) d sp ps idx st w =
  (Exited 0, say [MQuitting] (prompted d sp ps idx st w)).
Proof. intros C. read_choice C. reflexivity. Qed.

Lemma navigate_s :
  choice_of line = "s" ->
  navigate_loop (S f) d sp ps idx st w =
  (Ok SigNone, prompted d sp ps idx st w).
Proof. intros C. read_choice C. reflexivity. Qed.

Lemma navigate_u :
  choice_of line = "u" -> path_eqb d sp = false ->
  navigate_loop (S f) d sp ps idx st w =
  (Ok SigUp, prompted d sp ps idx st w).
Proof. intros C U. read_choice C. decide_choice. rewrite U. reflexivity. Qed.

Lemma navigate_n :
  choice_of line = "n" -> has_next ps idx = true ->
  navigate_loop (S f) d sp ps idx st w =
  (Ok SigNext, prompted d sp ps idx st w).
Proof. intros C N. read_choice C. decide_choice. rewrite N. reflexivity. Qed.

Lemma navigate_p :
  choice_of line = "p" -> has_prev ps idx = true ->
  navigate_loop (S f) d sp ps idx st w =
  (Ok SigPrev, prompted d sp ps idx st w).
Proof. intros C P. read_choice C. decide_choice. rewrite P. reflexivity. Qed.

(** An answer that is not on the menu is turned down and the same
    directory is shown again. *)
Lemma navigate_n_unavailable :
  choice_of line = "n" -> has_next ps idx = false ->
  navigate_loop (S f) d sp ps idx st w =
  navigate_loop f d sp ps idx st
                (say [MInvalidChoice] (prompted d sp ps idx st w)).
Proof. intros C N. read_choice C. decide_choice. rewrite N. reflexivity. Qed.

Lemma navigate_p_unavailable :
  choice_of line = "p" -> has_prev ps idx = false ->
  navigate_loop (S f) d sp ps idx st w =
  navigate_loop f d sp ps idx st
                (say [MInvalidChoice] (prompted d sp ps idx st w)).
Proof. intros C P. read_choice C. decide_choice. rewrite P. reflexivity. Qed.

Lemma navigate_w :
  choice_of line = "w" ->
  nonempty (find_cleanable_in_dir (fs w) d) || scan_found st = true ->
  navigate_loop (S f) d sp ps idx st w =
  bind (wipe_action f d) (fun _ => navigate_loop f d sp ps idx init_scan)
       (prompted d sp ps idx st w).
Proof. intros C W. read_choice C. decide_choice. rewrite W. reflexivity. Qed.

Lemma navigate_c :
  choice_of line = "c" ->
  nonempty (find_cleanable_in_dir (fs w) d) = true ->
  navigate_loop (S f) d sp ps idx st w =
  bind (clean_action (find_cleanable_in_dir (fs w) d))
       (fun _ => navigate_loop f d sp ps idx st)
       (prompted d sp ps idx st w).
Proof. intros C W. read_choice C. decide_choice. rewrite W. reflexivity. Qed.

Lemma navigate_r :
  choice_of line = "r" ->
  nonempty (get_subdirs (fs w) d) = true ->
  navigate_loop (S f) d sp ps idx st w =
  bind (recursive_scan_action d st)
       (fun st' => navigate_loop f d sp ps idx st')
       (prompted d sp ps idx st w).
Proof. intros C R. read_choice C. decide_choice. rewrite R. reflexivity. Qed.

Lemma navigate_c_unavailable :
  choice_of line = "c" ->
  nonempty (find_cleanable_in_dir (fs w) d) = false ->
  navigate_loop (S f) d sp ps idx st w =
  navigate_loop f d sp ps idx st
                (say [MInvalidChoice] (prompted d sp ps idx st w)).
Proof. intros C W. read_choice C. decide_choice. rewrite W. reflexivity. Qed.

Lemma navigate_w_unavailable :
  choice_of line = "w" ->
  nonempty (find_cleanable_in_dir (fs w) d) || scan_found st = false ->
  navigate_loop (S f) d sp ps idx st w =
  navigate_loop f d sp ps idx st
                (say [MInvalidChoice] (prompted d sp ps idx st w)).
Proof. intros C W. read_choice C. decide_choice. rewrite W. reflexivity. Qed.

End NavigationTurn.

(** ** The loop over the siblings, and [main] *)

Section SessionFacts.

Lemma py_nth_in_range {A} (l : list A) (i : Z) :
  0 <= i < len l -> exists a, py_nth l i = Some a.
Proof.
  intros [H0 H1]. unfold py_nth.
  destruct (i <? 0) eqn:E; [apply Z.ltb_lt in E; lia|].
  destruct (nth_error l (Z.to_nat i)) as [a|] eqn:N; [now exists a|].
  apply nth_error_None in N. unfold len in H1. lia.
Qed.

Lemma sibling_loop_visit (f : nat) (subdirs : list path) (i : Z)
      (sp subdir : path) (w : world) :
  i < len subdirs -> py_nth subdirs i = Some subdir ->
  sibling_loop (S f) subdirs i sp w =
  bind (navigate_loop f subdir sp (Some subdirs) (Some i) init_scan)
       (fun result =>
          match sibling_step result i (len subdirs) with
          | Break => ret tt
          | Goto j notice =>
              match notice with
              | Some m => print m
              | None => ret tt
              end ;;
              sibling_loop f subdirs j sp
          end) w.
Proof.
  intros L N. cbn [sibling_loop].
  apply Z.ltb_lt in L. rewrite L, N. reflexivity.
Qed.

Lemma sibling_loop_done (f : nat) (subdirs : list path) (i : Z)
      (sp : path) (w : world) :
  len subdirs <= i -> sibling_loop (S f) subdirs i sp w = (Ok tt, w).
Proof.
  intros L. cbn [sibling_loop].
  apply Z.ltb_ge in L. rewrite L. reflexivity.
Qed.

Lemma main_missing (f : nat) (sp : path) (w : world) :
  exists_ (fs w) sp = false ->
  main f sp w = (Exited 1, say [MBanner; MPathMissing sp] w).
Proof.
  intros H. unfold main. rewrite bind_print, bind_query.
  change (fs (say [MBanner] w)) with (fs w). rewrite H. cbn [negb].
  rewrite bind_print, say_say. reflexivity.
Qed.

(** Past the existence test [main] is the navigation from the starting
    directory followed by the summary. *)
Lemma main_started (f : nat) (sp : path) (w : world) :
  exists_ (fs w) sp = true ->
  main f sp w =
  bind (navigate_directory f sp sp (fst (siblings_of (fs w) sp))
                           (snd (siblings_of (fs w) sp)))
       (fun _ => s <- get_stats ;;
                 print (MSummary (deleted_count s) (total_freed s)))
       (started w).
Proof.
  intros H. unfold main. rewrite bind_print, bind_query.
  change (fs (say [MBanner] w)) with (fs w). rewrite H. cbn [negb].
  reflexivity.
Qed.

Lemma main_exited (f : nat) (sp : path) (w w' : world) (c : Z) :
  exists_ (fs w) sp = true ->
  navigate_directory f sp sp (fst (siblings_of (fs w) sp))
                     (snd (siblings_of (fs w) sp)) (started w)
  = (Exited c, w') ->
  main f sp w = (Exited c, w').
Proof.
  intros H N. rewrite main_started by exact H.
  now apply bind_exited.
Qed.

Lemma main_completed (f : nat) (sp : path) (w w' : world) (sig : signal) :
  exists_ (fs w) sp = true ->
  navigate_directory f sp sp (fst (siblings_of (fs w) sp))
                     (snd (siblings_of (fs w) sp)) (started w)
  = (Ok sig, w') ->
  main f sp w = (Ok tt, say [summary_of w'] w').
Proof.
  intros H N. rewrite main_started by exact H.
  rewrite (bind_ok _ _ _ _ _ N). reflexivity.
Qed.

Lemma view_has_no_summary (fs : node) (d sp : path)
      (ps : option (list path)) (idx : option Z) (st : scan_state) (m : msg) :
  In m (view_msgs fs d sp ps idx st) -> is_summary m = false.
Proof.
  unfold view_msgs, render_msgs, action_msgs.
  rewrite !in_app_iff.
  repeat match goal with
         | |- context [if ?b then _ else _] => destruct b
         end;
    cbn [In]; intuition (subst; reflexivity).
Qed.

End SessionFacts.

(** ** Stepping between siblings *)

Section SiblingFacts.

Lemma has_prev_spec (l : list path) (i : Z) :
  l <> [] -> has_prev (Some l) (Some i) = (i >? 0).
Proof. destruct l; [congruence | reflexivity]. Qed.

Lemma has_next_spec (l : list path) (i : Z) :
  l <> [] -> has_next (Some l) (Some i) = (i <? len l - 1).
Proof. destruct l; [congruence | reflexivity]. Qed.

Lemma sibling_step_next (i n : Z) :
  0 <= i < n ->
  (i < n - 1 /\ sibling_step SigNext i n = Goto (i + 1) None) \/
  (i = n - 1 /\ sibling_step SigNext i n = Goto i (Some MNoMoreFolders)).
Proof.
  intros H. unfold sibling_step.
  destruct (i + 1 >=? n) eqn:E.
  - right. apply Z.geb_le in E. assert (i = n - 1) as -> by lia. auto.
  - left. rewrite Z.geb_leb in E. apply Z.leb_gt in E. split; [lia|reflexivity].
Qed.

Lemma sibling_step_prev (i n : Z) :
  0 <= i < n ->
  (0 < i /\ sibling_step SigPrev i n = Goto (i - 1) None) \/
  (i = 0 /\ sibling_step SigPrev i n = Goto i (Some MAlreadyFirst)).
Proof.
  intros H. unfold sibling_step.
  destruct (i - 1 <? 0) eqn:E.
  - right. apply Z.ltb_lt in E. assert (i = 0) as -> by lia. auto.
  - left. apply Z.ltb_ge in E. split; [lia|reflexivity].
Qed.

End SiblingFacts.


(** ** Deletions that fail *)

Section DeletionFacts.

Lemma rmtree_raised_same (p : path) (w w' : world) (e : exc) :
  rmtree p w = (Raised e, w') -> w' = w.
Proof.
  unfold rmtree.
  destruct (lookup (fs w) p) as [[|r es]|]; try (intros [= _ <-]; reflexivity).
  destruct p; try (intros [= _ <-]; reflexivity).
  destruct (refusal (refused w) (s :: p)); intros [= _ <-] || intros [=].
  reflexivity.
Qed.


Lemma rmtree_ok (p : path) (w : world) :
  is_dir (fs w) p = true -> p <> [] -> refusal (refused w) p = None ->
  rmtree p w =
  (Ok tt, mkWorld (remove_at p (fs w)) (refused w) (stdin w) (stdout w)
                  (stats w)).
Proof.
  unfold rmtree, is_dir. intros D N R.
  destruct (lookup (fs w) p) as [[|r es]|]; try discriminate.
  destruct p; [congruence|]. now rewrite R.
Qed.

Lemma delete_directory_failed (p : path) (w w' : world) (e : exc) :
  rmtree p w = (Raised e, w') ->
  delete_directory p w = (Ok false, say [MErrorDeleting p e] w').
Proof.
  intros H. unfold delete_directory, try_except.
  rewrite (bind_raised _ _ _ _ _ H). reflexivity.
Qed.

Lemma delete_directory_done (p : path) (w w' : world) :
  rmtree p w = (Ok tt, w') -> delete_directory p w = (Ok true, w').
Proof.
  intros H. unfold delete_directory, try_except.
  rewrite (bind_ok _ _ _ _ _ H). reflexivity.
Qed.

(** [delete_directory] never lets anything out: it answers [True] or
    [False]. *)
Lemma delete_directory_total (p : path) (w : world) :
  exists ok w', delete_directory p w = (Ok ok, w').
Proof.
  destruct (rmtree p w) as [[[]|e|c|] w'] eqn:R.
  - exists true, w'. now apply delete_directory_done.
  - exists false, (say [MErrorDeleting p e] w').
    now apply delete_directory_failed.
  - exfalso. unfold rmtree in R.
    destruct (lookup (fs w) p) as [[|r es]|]; try discriminate.
    destruct p; try discriminate.
    destruct (refusal (refused w) (s :: p)); discriminate.
  - exfalso. unfold rmtree in R.
    destruct (lookup (fs w) p) as [[|r es]|]; try discriminate.
    destruct p; try discriminate.
    destruct (refusal (refused w) (s :: p)); discriminate.
Qed.

Lemma wipe_entry_total (d : path) (freed : Z) (e : entry) (w : world) :
  exists freed' w', wipe_entry d freed e w = (Ok freed', w').
Proof.
  destruct e as [[p k] size]. unfold wipe_entry.
  destruct (delete_directory_total p w) as (ok & w' & D).
  rewrite (bind_ok _ _ _ _ _ D). destruct ok.
  - rewrite bind_print. eexists _, _. reflexivity.
  - eexists _, _. reflexivity.
Qed.

Lemma clean_entry_total (freed : Z) (e : entry) (w : world) :
  exists freed' w', clean_entry freed e w = (Ok freed', w').
Proof.
  destruct e as [[p k] size]. unfold clean_entry.
  destruct (delete_directory_total p w) as (ok & w' & D).
  rewrite (bind_ok _ _ _ _ _ D). destruct ok.
  - rewrite bind_print. eexists _, _. reflexivity.
  - eexists _, _. reflexivity.
Qed.

Lemma for_each_total {A S} (body : S -> A -> M S) (l : list A) :
  (forall s a w, exists s' w', body s a w = (Ok s', w')) ->
  forall s w, exists s' w', for_each l s body w = (Ok s', w').
Proof.
  intros Hb. induction l as [|a l IH]; intros s w; cbn [for_each].
  - eexists _, _. reflexivity.
  - destruct (Hb s a w) as (s1 & w1 & E).
    rewrite (bind_ok _ _ _ _ _ E). apply IH.
Qed.

Lemma for_each_app {A S} (body : S -> A -> M S) (l l' : list A) :
  forall s w s1 w1,
    for_each l s body w = (Ok s1, w1) ->
    for_each (l ++ l') s body w = for_each l' s1 body w1.
Proof.
  induction l as [|a l IH]; intros s w s1 w1 E; cbn [for_each app] in *.
  - now injection E as <- <-.
  - unfold bind in *. destruct (body s a w) as [[s2| | |] w2]; try discriminate.
    now apply IH.
Qed.

End DeletionFacts.

(** C6.  When the removal of an entry of a batch fails, the failure is
    reported for that path with the exception that caused it, neither
    counter moves, and the batch goes on with the remaining entries,
    wherever in the batch the entry stands; this holds for the loop of the
    wipe and for the loop of the clean alike, and neither loop is ever cut
    short. *)
Theorem failed_deletion_is_reported_and_skipped
        (directory p : path) (k : kind) (size freed : Z)
        (remaining : list entry) (w w' : world) (e : exc) :
  rmtree p w = (Raised e, w') ->
  let reported := say [MErrorDeleting p e] w in
  delete_directory p w = (Ok false, reported) /\
  stats reported = stats w /\
  fs reported = fs w /\
  for_each ((p, k, size) :: remaining) freed (wipe_entry directory) w =
  for_each remaining freed (wipe_entry directory) reported /\
  for_each ((p, k, size) :: remaining) freed clean_entry w =
  for_each remaining freed clean_entry reported /\
  (forall (before : list entry) (freed0 : Z) (w0 : world),
      (for_each before freed0 (wipe_entry directory) w0 = (Ok freed, w) ->
       for_each (before ++ (p, k, size) :: remaining) freed0
                (wipe_entry directory) w0 =
       for_each remaining freed (wipe_entry directory) reported) /\
      (for_each before freed0 clean_entry w0 = (Ok freed, w) ->
       for_each (before ++ (p, k, size) :: remaining) freed0 clean_entry w0 =
       for_each remaining freed clean_entry reported)) /\
  (forall (batch : list entry) (freed0 : Z) (w0 : world),
      (exists freed1 w1,
          for_each batch freed0 (wipe_entry directory) w0 = (Ok freed1, w1)) /\
      (exists freed1 w1,
          for_each batch freed0 clean_entry w0 = (Ok freed1, w1))).
Proof.
  intros R reported.
  pose proof (rmtree_raised_same _ _ _ _ R) as ->.
  pose proof (delete_directory_failed _ _ _ _ R) as D.
  fold reported in D.
  split; [exact D|].
  split; [reflexivity|].
  split; [reflexivity|].
  assert (for_each ((p, k, size) :: remaining) freed (wipe_entry directory) w
          = for_each remaining freed (wipe_entry directory) reported) as HW.
  { cbn [for_each]. unfold wipe_entry at 1.
    rewrite bind_bind, (bind_ok _ _ _ _ _ D). reflexivity. }
  assert (for_each ((p, k, size) :: remaining) freed clean_entry w
          = for_each remaining freed clean_entry reported) as HC.
  { cbn [for_each]. unfold clean_entry at 1.
    rewrite bind_bind, (bind_ok _ _ _ _ _ D). reflexivity. }
  split; [exact HW|]. split; [exact HC|]. split.
  - intros before freed0 w0. split; intros E.
    + now rewrite (for_each_app _ _ _ _ _ _ _ E).
    + now rewrite (for_each_app _ _ _ _ _ _ _ E).
  - intros batch freed0 w0. split.
    + apply for_each_total. intros. apply wipe_entry_total.
    + apply for_each_total. intros. apply clean_entry_total.
Qed.

Lemma failed_deletion_is_reported_and_skipped_witness :
  let w := busy_world [] in
  let p := ["proj"; ".venv"] in
  let e := PermissionError "Permission denied" in
  let batch := find_cleanable_in_dir reference_tree ["proj"] in
  rmtree p w = (Raised e, w) /\
  delete_directory p w = (Ok false, say [MErrorDeleting p e] w) /\
  for_each batch 0 clean_entry w =
  for_each (tl batch) 0 clean_entry (say [MErrorDeleting p e] w) /\
  fst (for_each batch 0 clean_entry w) = Ok 200 /\
  stats (snd (for_each batch 0 clean_entry w)) = mkStats 0 1.
Proof.
  intros w p e batch.
  assert (rmtree p w = (Raised e, w)) as R by reflexivity.
  pose proof (failed_deletion_is_reported_and_skipped
                ["proj"] p VirtualEnv 100 0 (tl batch) w w e R) as H.
  cbv zeta in H. destruct H as (D & _ & _ & _ & C & _).
  split; [exact R|].
  split; [exact D|].
  split; [exact C|].
  split; reflexivity.
Defined.

(** ** Ending a session *)

Section EndingFacts.

Lemma path_eqb_eq (p q : path) : path_eqb p q = true <-> p = q.
Proof.
  revert q. induction p as [|a p IH]; intros [|b q]; simpl;
    try (split; congruence).
  rewrite andb_true_iff, String.eqb_eq, IH. split.
  - intros [-> ->]. reflexivity.
  - intros [= -> ->]. auto.
Qed.

Lemma path_eqb_refl (p : path) : path_eqb p p = true.
Proof. now apply path_eqb_eq. Qed.

Lemma index_Some_range (l : list path) (p : path) (i : Z) :
  index l p = Some i -> 0 <= i < len l /\ In p l.
Proof.
  revert i. induction l as [|q l IH]; intros i; simpl; [discriminate|].
  rewrite len_cons. destruct (path_eqb q p) eqn:E.
  - intros [= <-]. apply path_eqb_eq in E. pose proof (len_nonneg l).
    split; [lia | auto].
  - destruct (index l p) as [j|]; [|discriminate].
    intros [= <-]. destruct (IH j eq_refl). split; [lia | auto].
Qed.

Lemma In_insert_sorted (x p : path) (l : list path) :
  In x (insert_sorted p l) <-> x = p \/ In x l.
Proof.
  induction l as [|q l IH]; simpl; [intuition|].
  destruct (path_leb p q); simpl; rewrite ?IH; intuition.
Qed.

Lemma In_sorted (x : path) (l : list path) : In x (sorted l) <-> In x l.
Proof.
  induction l as [|q l IH]; simpl; [tauto|].
  rewrite In_insert_sorted, IH. intuition.
Qed.

Lemma In_get_subdirs (fs : node) (d s : path) :
  In s (get_subdirs fs d) ->
  navigable fs s = true /\
  exists entries, iterdir fs d = inl entries /\ In s entries.
Proof.
  unfold get_subdirs. destruct (iterdir fs d) as [entries|]; simpl; [|tauto].
  rewrite In_sorted, filter_In. intros [I N]. split; [exact N|].
  exists entries. auto.
Qed.

Lemma navigable_is_dir (fs : node) (s : path) :
  navigable fs s = true -> is_dir fs s = true.
Proof. unfold navigable. rewrite !andb_true_iff. tauto. Qed.

Lemma is_dir_exists (fs : node) (p : path) :
  is_dir fs p = true -> exists_ fs p = true.
Proof.
  unfold is_dir, exists_. destruct (lookup fs p) as [[|]|]; congruence.
Qed.

Lemma siblings_of_found (fs : node) (sp : path) (l : list path) (i : Z) :
  siblings_of fs sp = (Some l, Some i) ->
  exists_ fs sp = true /\ 0 <= i < len l /\ l <> [].
Proof.
  unfold siblings_of.
  destruct (negb (path_eqb (parent sp) sp)); [|discriminate].
  destruct (index (get_subdirs fs (parent sp)) sp) as [j|] eqn:E;
    [|discriminate].
  intros [= <- <-]. apply index_Some_range in E. destruct E as [R I].
  split; [|split; [exact R|]].
  - apply In_get_subdirs in I. destruct I as [N _].
    now apply is_dir_exists, navigable_is_dir.
  - intros Z0. rewrite Z0 in I. destruct I.
Qed.

Lemma next_offered (fs : node) (d sp : path) (ps : option (list path))
      (idx : option Z) (st : scan_state) :
  In MOptNext (view_msgs fs d sp ps idx st) <-> has_next ps idx = true.
Proof.
  unfold view_msgs, render_msgs, action_msgs.
  rewrite !in_app_iff.
  destruct (has_next ps idx);
    repeat match goal with
           | |- context [if ?b then _ else _] => destruct b
           end;
    cbn [In]; intuition congruence.
Qed.

Lemma prev_offered (fs : node) (d sp : path) (ps : option (list path))
      (idx : option Z) (st : scan_state) :
  In MOptPrev (view_msgs fs d sp ps idx st) <-> has_prev ps idx = true.
Proof.
  unfold view_msgs, render_msgs, action_msgs.
  rewrite !in_app_iff.
  destruct (has_prev ps idx);
    repeat match goal with
           | |- context [if ?b then _ else _] => destruct b
           end;
    cbn [In]; intuition congruence.
Qed.

End EndingFacts.

(** In a parent that has no other plain subdirectory neither [n] nor [p]
    is offered at the starting directory, and an [n] typed there is an
    invalid choice after which the program asks again. *)
Lemma lone_start_has_no_sibling_step :
  ~ (forall (f : nat) (w : world) (sp : path) (l : list path) (i : Z)
            (line : string) (rest : list string),
        siblings_of (fs w) sp = (Some l, Some i) ->
        stdin w = line :: rest ->
        choice_of line = "n" ->
        In MOptNext (view_msgs (fs w) sp sp (Some l) (Some i) init_scan) /\
        exists w', main (S f) sp w = (Ok tt, w')).
Proof.
  intros H.
  destruct (H 1%nat (world_of lone_project ["n"]) ["proj"] [["proj"]] 0
              "n" [] eq_refl eq_refl eq_refl) as [_ [w' E]].
  vm_compute in E. discriminate E.
Qed.

(** C10, amended.  When the starting directory is found among the plain
    subdirectories of its parent, [n] is offered there exactly when it is
    not the last of them and [p] exactly when it is not the first, and
    entering an offered one ends the whole session normally: the summary
    follows the first view at once, the process ends with status 0, and
    no sibling is visited. *)
Theorem sibling_step_at_start_ends_session
        (f : nat) (w : world) (sp : path) (l : list path) (i : Z)
        (line : string) (rest : list string) :
  siblings_of (fs w) sp = (Some l, Some i) ->
  stdin w = line :: rest ->
  let view := view_msgs (fs w) sp sp (Some l) (Some i) init_scan in
  let ended :=
    say [MSummary 0 0] (prompted sp sp (Some l) (Some i) init_scan (started w))
  in
  (In MOptNext view <-> i < len l - 1) /\
  (In MOptPrev view <-> 0 < i) /\
  (choice_of line = "n" -> i < len l - 1 ->
   main (S f) sp w = (Ok tt, ended)) /\
  (choice_of line = "p" -> 0 < i ->
   main (S f) sp w = (Ok tt, ended)) /\
  exit_code (Ok tt) = Some 0 /\
  fs ended = fs w /\
  stdout ended = stdout w ++ [MBanner] ++ view ++ [MSummary 0 0].
Proof.
  intros Hsib Hin view ended.
  destruct (siblings_of_found _ _ _ _ Hsib) as (E & R & Hne).
  assert (stdin (started w) = line :: rest) as Hin' by exact Hin.
  split; [|split; [|split; [|split; [|split; [|split]]]]].
  - unfold view. rewrite next_offered, has_next_spec by exact Hne.
    apply Z.ltb_lt.
  - unfold view. rewrite prev_offered, has_prev_spec by exact Hne.
    rewrite Z.gtb_ltb. apply Z.ltb_lt.
  - intros C L.
    rewrite (main_completed (S f) sp w
               (prompted sp sp (Some l) (Some i) init_scan (started w))
               SigNext E); [reflexivity|].
    rewrite Hsib. cbn [fst snd]. unfold navigate_directory.
    apply (navigate_n _ _ _ _ _ _ _ _ _ Hin' C).
    rewrite has_next_spec by exact Hne. now apply Z.ltb_lt.
  - intros C L.
    rewrite (main_completed (S f) sp w
               (prompted sp sp (Some l) (Some i) init_scan (started w))
               SigPrev E); [reflexivity|].
    rewrite Hsib. cbn [fst snd]. unfold navigate_directory.
    apply (navigate_p _ _ _ _ _ _ _ _ _ Hin' C).
    rewrite has_prev_spec by exact Hne. rewrite Z.gtb_ltb. now apply Z.ltb_lt.
  - reflexivity.
  - reflexivity.
  - change (stdout ended)
      with (((stdout w ++ [MBanner]) ++ view) ++ [MSummary 0 0]).
    rewrite <- !app_assoc. reflexivity.
Qed.

Lemma sibling_step_at_start_ends_session_witness :
  let w := world_of three_siblings ["n"; "s"] in
  siblings_of (fs w) ["work"; "beta"] =
  (Some (get_subdirs three_siblings ["work"]), Some 1) /\
  main 1 ["work"; "beta"] w =
  (Ok tt,
   say [MSummary 0 0]
       (prompted ["work"; "beta"] ["work"; "beta"]
                 (Some (get_subdirs three_siblings ["work"])) (Some 1)
                 init_scan (started w))) /\
  stdin (snd (main 1 ["work"; "beta"] w)) = ["s"].
Proof.
  intros w.
  assert (siblings_of (fs w) ["work"; "beta"] =
          (Some (get_subdirs three_siblings ["work"]), Some 1)) as S
      by reflexivity.
  assert (stdin w = "n" :: ["s"]) as Hin by reflexivity.
  pose proof (sibling_step_at_start_ends_session
                0 w ["work"; "beta"] _ 1 "n" ["s"] S Hin) as H.
  cbv zeta in H. destruct H as (_ & _ & N & _).
  assert (1 < len (get_subdirs three_siblings ["work"]) - 1) as L
      by (vm_compute; reflexivity).
  split; [exact S|].
  split; [exact (N eq_refl L)|].
  reflexivity.
Defined.

(** ** Removing entries from the tree *)

Section RemovalFacts.

Lemma find_entry_remove_entry (x y : string) (es : list (string * node)) :
  find_entry y (remove_entry x es) =
  if String.eqb x y then None else find_entry y es.
Proof.
  unfold remove_entry. induction es as [|[k n] es IH]; simpl.
  - now destruct (String.eqb x y).
  - destruct (String.eqb k x) eqn:Ekx; simpl.
    + apply String.eqb_eq in Ekx. subst k. rewrite IH.
      now destruct (String.eqb x y).
    + destruct (String.eqb k y) eqn:Eky.
      * apply String.eqb_eq in Eky. subst k. now rewrite String.eqb_sym, Ekx.
      * exact IH.
Qed.

Lemma find_entry_update_entry (x y : string) (g : node -> node)
      (es : list (string * node)) :
  find_entry y (update_entry x g es) =
  if String.eqb x y then option_map g (find_entry y es) else find_entry y es.
Proof.
  induction es as [|[k n] es IH]; simpl.
  - now destruct (String.eqb x y).
  - destruct (String.eqb k x) eqn:Ekx; simpl.
    + apply String.eqb_eq in Ekx. subst k.
      now destruct (String.eqb x y).
    + destruct (String.eqb k y) eqn:Eky.
      * apply String.eqb_eq in Eky. subst k. now rewrite String.eqb_sym, Ekx.
      * exact IH.
Qed.

Lemma remove_at_cons_dir (x : string) (p : path) (r : bool)
      (es : list (string * node)) :
  p <> [] ->
  remove_at (x :: p) (Dir r es) = Dir r (update_entry x (remove_at p) es).
Proof. destruct p; [congruence | reflexivity]. Qed.

(** Two paths that part ways: removing one leaves the other, and all
    below it, as it was. *)
Lemma lookup_remove_diverge (d : path) (x y : string) (p q : path) (fs : node) :
  x <> y ->
  lookup (remove_at (d ++ x :: p) fs) (d ++ y :: q) = lookup fs (d ++ y :: q).
Proof.
  intros N. revert fs. induction d as [|a d IH]; intros fs.
  - simpl app. destruct fs as [|r es]; [reflexivity|].
    apply String.eqb_neq in N.
    destruct p as [|b p].
    + cbn [remove_at lookup]. now rewrite find_entry_remove_entry, N.
    + rewrite remove_at_cons_dir by discriminate. cbn [lookup].
      now rewrite find_entry_update_entry, N.
  - simpl app. destruct fs as [|r es]; [reflexivity|].
    rewrite remove_at_cons_dir by (destruct d; discriminate).
    cbn [lookup]. rewrite find_entry_update_entry, String.eqb_refl.
    destruct (find_entry a es) as [c|]; [|reflexivity].
    cbn [option_map]. apply IH.
Qed.

(** What was removed is gone, with all below it. *)
Lemma lookup_remove_under (d : path) (x : string) (q : path) (fs : node) :
  lookup (remove_at (d ++ [x]) fs) (d ++ x :: q) = None.
Proof.
  revert fs. induction d as [|a d IH]; intros fs.
  - simpl app. destruct fs as [|r es]; [reflexivity|].
    cbn [remove_at lookup].
    now rewrite find_entry_remove_entry, String.eqb_refl.
  - simpl app. destruct fs as [|r es]; [reflexivity|].
    rewrite remove_at_cons_dir by (destruct d; discriminate).
    cbn [lookup]. rewrite find_entry_update_entry, String.eqb_refl.
    destruct (find_entry a es) as [c|]; [|reflexivity].
    cbn [option_map]. apply IH.
Qed.

(** The directory that held it lists it no more. *)
Lemma lookup_remove_parent (d : path) (x : string) (fs : node) :
  lookup (remove_at (d ++ [x]) fs) d =
  match lookup fs d with
  | Some (Dir r es) => Some (Dir r (remove_entry x es))
  | other => other
  end.
Proof.
  revert fs. induction d as [|a d IH]; intros fs.
  - simpl. now destruct fs.
  - simpl app. destruct fs as [|r es]; [reflexivity|].
    rewrite remove_at_cons_dir by (destruct d; discriminate).
    cbn [lookup]. rewrite find_entry_update_entry, String.eqb_refl.
    destruct (find_entry a es) as [c|]; [|reflexivity].
    cbn [option_map]. apply IH.
Qed.

Lemma is_prefix_app (p q : path) : is_prefix p (p ++ q) = true.
Proof. induction p; simpl; [reflexivity|]. now rewrite String.eqb_refl. Qed.

Lemma is_prefix_inv (p q : path) :
  is_prefix p q = true -> exists t, q = p ++ t.
Proof.
  revert q. induction p as [|a p IH]; intros q; simpl.
  - exists q. reflexivity.
  - destruct q as [|b q]; [discriminate|].
    rewrite andb_true_iff, String.eqb_eq. intros [-> H].
    destruct (IH q H) as [t ->]. now exists t.
Qed.

(** Paths neither of which lies under the other part ways somewhere. *)
Lemma apart_diverge (p q : path) :
  is_prefix p q = false -> is_prefix q p = false ->
  exists d x y p' q', x <> y /\ p = d ++ x :: p' /\ q = d ++ y :: q'.
Proof.
  revert q. induction p as [|a p IH]; intros q; simpl; [discriminate|].
  destruct q as [|b q]; simpl; [discriminate|].
  destruct (String.eqb a b) eqn:E.
  - apply String.eqb_eq in E. subst b. rewrite String.eqb_refl. simpl.
    intros H1 H2. destruct (IH q H1 H2) as (d & x & y & p' & q' & N & -> & ->).
    exists (a :: d), x, y, p', q'. auto.
  - intros _ _. apply String.eqb_neq in E.
    exists [], a, b, p, q. auto.
Qed.

Lemma lookup_remove_apart (p q : path) (fs : node) :
  is_prefix p q = false -> is_prefix q p = false ->
  lookup (remove_at p fs) q = lookup fs q.
Proof.
  intros H1 H2.
  destruct (apart_diverge p q H1 H2) as (d & x & y & p' & q' & N & -> & ->).
  now apply lookup_remove_diverge.
Qed.

End RemovalFacts.

(** ** What a query looks at *)

Section Locality.

Variables fs1 fs2 : node.

Lemma lookup_below_ext (e t : path) :
  lookup fs1 e = lookup fs2 e -> lookup fs1 (e ++ t) = lookup fs2 (e ++ t).
Proof. intros H. now rewrite !lookup_app, H. Qed.

Lemma is_dir_ext (e : path) :
  lookup fs1 e = lookup fs2 e -> is_dir fs1 e = is_dir fs2 e.
Proof. unfold is_dir. now intros ->. Qed.

Lemma exists_ext (e : path) :
  lookup fs1 e = lookup fs2 e -> exists_ fs1 e = exists_ fs2 e.
Proof. unfold exists_. now intros ->. Qed.

Lemma is_venv_ext (e : path) :
  lookup fs1 e = lookup fs2 e -> is_venv fs1 e = is_venv fs2 e.
Proof.
  intros H. unfold is_venv, indicators, div.
  rewrite (is_dir_ext e H). rewrite <- !app_assoc. cbn [existsb].
  now rewrite !(exists_ext _ (lookup_below_ext e _ H)).
Qed.

Lemma is_node_modules_ext (e : path) :
  lookup fs1 e = lookup fs2 e -> is_node_modules fs1 e = is_node_modules fs2 e.
Proof. intros H. unfold is_node_modules. now rewrite (is_dir_ext e H). Qed.

Lemma classify_ext (e : path) :
  lookup fs1 e = lookup fs2 e -> classify fs1 e = classify fs2 e.
Proof.
  intros H. unfold classify.
  now rewrite (is_venv_ext e H), (is_node_modules_ext e H).
Qed.

Lemma get_dir_size_ext (e : path) :
  lookup fs1 e = lookup fs2 e -> get_dir_size fs1 e = get_dir_size fs2 e.
Proof. unfold get_dir_size. now intros ->. Qed.

Lemma cleanable_of_ext (e : path) :
  lookup fs1 e = lookup fs2 e -> cleanable_of fs1 e = cleanable_of fs2 e.
Proof.
  intros H. unfold cleanable_of.
  now rewrite (is_dir_ext e H), (classify_ext e H), (get_dir_size_ext e H).
Qed.

Lemma navigable_ext (e : path) :
  lookup fs1 e = lookup fs2 e -> navigable fs1 e = navigable fs2 e.
Proof.
  intros H. unfold navigable.
  now rewrite (is_dir_ext e H), (is_venv_ext e H), (is_node_modules_ext e H).
Qed.

Lemma iterdir_ext (d : path) :
  lookup fs1 d = lookup fs2 d -> iterdir fs1 d = iterdir fs2 d.
Proof. unfold iterdir. now intros ->. Qed.

Lemma iterdir_children (fs : node) (d : path) (entries : list path) (e : path) :
  iterdir fs d = inl entries -> In e entries -> exists y, e = d ++ [y].
Proof.
  unfold iterdir. destruct (lookup fs d) as [[|[] es]|]; try discriminate.
  intros [= <-] I. apply in_map_iff in I. destruct I as ([y n] & <- & _).
  now exists y.
Qed.

Lemma find_cleanable_in_dir_ext (d : path) :
  lookup fs1 d = lookup fs2 d ->
  find_cleanable_in_dir fs1 d = find_cleanable_in_dir fs2 d.
Proof.
  intros H. unfold find_cleanable_in_dir. rewrite <- (iterdir_ext d H).
  destruct (iterdir fs1 d) as [entries|] eqn:I; [|reflexivity].
  assert (forall e, In e entries -> exists y, e = d ++ [y]) as C
      by (intros e; apply (iterdir_children fs1 d entries e I)).
  clear I. induction entries as [|e entries IH]; [reflexivity|].
  cbn [flat_map]. rewrite IH by (intros; apply C; simpl; auto).
  destruct (C e (or_introl eq_refl)) as [y ->].
  now rewrite (cleanable_of_ext _ (lookup_below_ext d [y] H)).
Qed.

Lemma get_subdirs_ext (d : path) :
  lookup fs1 d = lookup fs2 d -> get_subdirs fs1 d = get_subdirs fs2 d.
Proof.
  intros H. unfold get_subdirs. rewrite <- (iterdir_ext d H).
  destruct (iterdir fs1 d) as [entries|] eqn:I; [|reflexivity].
  f_equal.
  assert (forall e, In e entries -> exists y, e = d ++ [y]) as C
      by (intros e; apply (iterdir_children fs1 d entries e I)).
  clear I. induction entries as [|e entries IH]; [reflexivity|].
  cbn [filter]. rewrite IH by (intros; apply C; simpl; auto).
  destruct (C e (or_introl eq_refl)) as [y ->].
  now rewrite (navigable_ext _ (lookup_below_ext d [y] H)).
Qed.

End Locality.

(** ** The entries a directory offers *)

Section Entries.

Variable fs : node.

Lemma In_find_cleanable (d : path) (e : entry) :
  In e (find_cleanable_in_dir fs d) ->
  (exists y, entry_path e = d ++ [y]) /\
  is_dir fs (entry_path e) = true /\
  classify fs (entry_path e) = Some (entry_kind e) /\
  entry_size e = get_dir_size fs (entry_path e) /\
  exists entries, iterdir fs d = inl entries /\ In (entry_path e) entries.
Proof.
  unfold find_cleanable_in_dir.
  destruct (iterdir fs d) as [entries|] eqn:I; [|intros []].
  rewrite in_flat_map. intros (p & Ip & Ie).
  unfold cleanable_of in Ie.
  destruct (is_dir fs p) eqn:D; [|destruct Ie].
  destruct (classify fs p) as [k|] eqn:C; [|destruct Ie].
  destruct Ie as [<-|[]]. cbn.
  split; [apply (iterdir_children fs d entries p I Ip)|].
  split; [exact D|]. split; [exact C|]. split; [reflexivity|].
  exists entries. auto.
Qed.

Lemma cleanable_not_navigable (p : path) :
  classify fs p <> None -> navigable fs p = false.
Proof.
  intros C. apply classify_cleanable in C. unfold navigable.
  destruct (is_dir fs p), (is_venv fs p), (is_node_modules fs p);
    simpl in *; congruence.
Qed.

Lemma In_get_subdirs_child (d s : path) :
  In s (get_subdirs fs d) ->
  (exists y, s = d ++ [y]) /\ navigable fs s = true.
Proof.
  intros I. apply In_get_subdirs in I.
  destruct I as (N & entries & E & Ie). split; [|exact N].
  apply (iterdir_children fs d entries s E Ie).
Qed.

End Entries.

(** ** A batch of deletions that all go through *)

Section Batch.

Lemma mem_In (p : path) (l : list path) : mem p l = true <-> In p l.
Proof.
  induction l as [|q l IH]; simpl; [split; [discriminate|tauto]|].
  rewrite orb_true_iff, path_eqb_eq, IH. tauto.
Qed.

Lemma mem_false (p : path) (l : list path) : mem p l = false <-> ~ In p l.
Proof.
  rewrite <- mem_In. destruct (mem p l); split; congruence.
Qed.

Lemma distinct_NoDup (l : list path) : distinct l = true <-> NoDup l.
Proof.
  induction l as [|p l IH]; simpl.
  - split; [constructor | reflexivity].
  - rewrite andb_true_iff, negb_true_iff, mem_false, IH. split.
    + intros [H1 H2]. now constructor.
    + intros H. inversion H. auto.
Qed.

Lemma child_neq (d : path) (x y : string) :
  x <> y -> path_eqb (d ++ [x]) (d ++ [y]) = false.
Proof.
  intros N. destruct (path_eqb (d ++ [x]) (d ++ [y])) eqn:E; [|reflexivity].
  apply path_eqb_eq, app_inv_head in E. congruence.
Qed.

Variable d : path.

Lemma children_of_tail (p : path) (ps : list path) :
  children_of d (p :: ps) -> children_of d ps.
Proof. intros H q I. apply H. simpl. auto. Qed.

(** After the removal of some children of [d], a path through a child is
    gone if the child was removed and is as before otherwise. *)
Lemma lookup_after_children (ps : list path) :
  children_of d ps ->
  forall fs y t,
    lookup (remove_all ps fs) (d ++ y :: t) =
    if mem (d ++ [y]) ps then None else lookup fs (d ++ y :: t).
Proof.
  induction ps as [|p ps IH]; intros C fs y t; [reflexivity|].
  destruct (C p (or_introl eq_refl)) as [x ->].
  unfold remove_all. cbn [fold_left]. fold (remove_all ps (remove_at (d ++ [x]) fs)).
  rewrite (IH (children_of_tail _ _ C)). cbn [mem].
  destruct (String.eqb x y) eqn:E.
  - apply String.eqb_eq in E. subst y. rewrite path_eqb_refl. cbn [orb].
    rewrite lookup_remove_under. now destruct (mem (d ++ [x]) ps).
  - apply String.eqb_neq in E. rewrite (child_neq d x y E). cbn [orb].
    now rewrite (lookup_remove_diverge d x y [] t fs E).
Qed.

Lemma remove_all_apart (ps : list path) (q : path) :
  (forall p, In p ps -> is_prefix p q = false /\ is_prefix q p = false) ->
  forall fs, lookup (remove_all ps fs) q = lookup fs q.
Proof.
  induction ps as [|p ps IH]; intros H fs; [reflexivity|].
  unfold remove_all. cbn [fold_left]. fold (remove_all ps (remove_at p fs)).
  rewrite IH by (intros; apply H; simpl; auto).
  destruct (H p (or_introl eq_refl)). now apply lookup_remove_apart.
Qed.

Lemma lookup_after_parent (ps : list path) :
  children_of d ps ->
  forall fs,
    lookup (remove_all ps fs) d =
    match lookup fs d with
    | Some (Dir r es) =>
        Some (Dir r (filter (fun e => negb (mem (d ++ [fst e]) ps)) es))
    | other => other
    end.
Proof.
  induction ps as [|p ps IH]; intros C fs.
  - cbn [remove_all fold_left mem negb].
    destruct (lookup fs d) as [[|r es]|]; try reflexivity.
    f_equal. f_equal. induction es as [|e es IHes]; [reflexivity|].
    cbn [filter]. now rewrite <- IHes.
  - destruct (C p (or_introl eq_refl)) as [x ->].
    unfold remove_all. cbn [fold_left].
    fold (remove_all ps (remove_at (d ++ [x]) fs)).
    rewrite (IH (children_of_tail _ _ C)), lookup_remove_parent.
    destruct (lookup fs d) as [[|r es]|]; try reflexivity.
    f_equal. f_equal. unfold remove_entry.
    induction es as [|[k n] es IHes]; [reflexivity|].
    cbn [filter fst mem].
    destruct (String.eqb k x) eqn:E; cbn [negb filter fst].
    + apply String.eqb_eq in E. subst k. rewrite path_eqb_refl. cbn [orb negb].
      exact IHes.
    + apply String.eqb_neq in E.
      rewrite (child_neq d x k) by congruence. cbn [orb].
      destruct (mem (d ++ [k]) ps); cbn [negb]; now rewrite IHes.
Qed.

Section Loop.

Variables (body : Z -> entry -> M Z) (note : entry -> msg).

Hypothesis body_deletes :
  forall freed e w,
    is_dir (fs w) (entry_path e) = true ->
    entry_path e <> [] ->
    unrefused w (entry_path e) = true ->
    body freed e w = (Ok (freed + entry_size e), after_deletions note [e] w).

Lemma deletion_loop (l : list entry) :
  children_of d (map entry_path l) ->
  distinct (map entry_path l) = true ->
  forall freed w,
    (forall e, In e l -> is_dir (fs w) (entry_path e) = true) ->
    (forall e, In e l -> unrefused w (entry_path e) = true) ->
    for_each l freed body w =
    (Ok (freed + cleanable_size l), after_deletions note l w).
Proof.
  induction l as [|e l IH]; intros C N freed w D U.
  - cbn [for_each]. unfold ret, after_deletions, cleanable_size, len.
    cbn. rewrite app_nil_r, !Z.add_0_r. now destruct w as [? ? ? ? []].
  - cbn [for_each]. cbn [map distinct] in N.
    apply andb_true_iff in N. destruct N as [N1 N2].
    apply negb_true_iff, mem_false in N1.
    destruct (C (entry_path e) (or_introl eq_refl)) as [x Ex].
    rewrite (bind_ok _ _ _ _ _
               (body_deletes freed e w (D e (or_introl eq_refl))
                             ltac:(rewrite Ex; destruct d; discriminate)
                             (U e (or_introl eq_refl)))).
    rewrite (IH (children_of_tail _ _ C) N2).
    + f_equal.
      * f_equal. unfold cleanable_size. cbn [fold_right]. lia.
      * unfold after_deletions. cbn [fs refused stdin stdout stats map
                                       total_freed deleted_count].
        rewrite <- app_assoc, !len_cons.
        change (len (@nil entry)) with 0.
        f_equal. f_equal. lia.
    + intros e' I. cbn [after_deletions fs map].
      change (remove_all [entry_path e] (fs w))
        with (remove_at (entry_path e) (fs w)).
      destruct (C (entry_path e') (or_intror (in_map entry_path l e' I)))
        as [y Ey].
      rewrite <- (D e' (or_intror I)). apply is_dir_ext.
      rewrite Ex, Ey.
      apply (lookup_remove_diverge d x y [] []).
      intros ->. apply N1. rewrite Ex, <- Ey. now apply in_map.
    + intros e' I. apply (U e' (or_intror I)).
Qed.

End Loop.

Lemma wipe_entry_deletes (directory : path) (freed : Z) (e : entry) (w : world) :
  is_dir (fs w) (entry_path e) = true ->
  entry_path e <> [] ->
  unrefused w (entry_path e) = true ->
  wipe_entry directory freed e w =
  (Ok (freed + entry_size e), after_deletions (wipe_note directory) [e] w).
Proof.
  destruct e as [[p k] size]. cbn [entry_path entry_size fst snd].
  intros D N U. unfold unrefused in U.
  destruct (refusal (refused w) p) eqn:R; [discriminate|].
  unfold wipe_entry.
  rewrite (bind_ok _ _ _ _ _
             (delete_directory_done _ _ _ (rmtree_ok p w D N R))).
  rewrite bind_print. reflexivity.
Qed.

Lemma clean_entry_deletes (freed : Z) (e : entry) (w : world) :
  is_dir (fs w) (entry_path e) = true ->
  entry_path e <> [] ->
  unrefused w (entry_path e) = true ->
  clean_entry freed e w =
  (Ok (freed + entry_size e), after_deletions clean_note [e] w).
Proof.
  destruct e as [[p k] size]. cbn [entry_path entry_size fst snd].
  intros D N U. unfold unrefused in U.
  destruct (refusal (refused w) p) eqn:R; [discriminate|].
  unfold clean_entry.
  rewrite (bind_ok _ _ _ _ _
             (delete_directory_done _ _ _ (rmtree_ok p w D N R))).
  rewrite bind_print. reflexivity.
Qed.

End Batch.

(** ** A directory once its cleanable entries are gone *)

Section AfterDeletion.

Variables (fs : node) (d : path).

Let cleanable := find_cleanable_in_dir fs d.
Let ps := map entry_path cleanable.
Let fs' := remove_all ps fs.

Lemma cleanable_children : children_of d ps.
Proof.
  intros p I. apply in_map_iff in I. destruct I as (e & <- & I).
  now apply In_find_cleanable in I.
Qed.

Lemma cleanable_path_classified (p : path) :
  In p ps -> is_dir fs p = true /\ classify fs p <> None.
Proof.
  intros I. apply in_map_iff in I. destruct I as (e & <- & I).
  apply In_find_cleanable in I. destruct I as (_ & D & C & _).
  split; [exact D | congruence].
Qed.

Lemma listed_cleanable_in_ps (entries : list path) (p : path) :
  iterdir fs d = inl entries -> In p entries ->
  cleanable_of fs p <> [] -> In p ps.
Proof.
  intros I Ip C. unfold ps, cleanable, find_cleanable_in_dir. rewrite I.
  destruct (cleanable_of fs p) as [|e l] eqn:E; [congruence|].
  apply in_map_iff. exists e. split.
  - unfold cleanable_of in E. destruct (is_dir fs p); [|discriminate].
    destruct (classify fs p); [|discriminate]. now injection E as <- _.
  - apply in_flat_map. exists p. split; [exact Ip|]. rewrite E. simpl. auto.
Qed.

Lemma cleanable_paths_filter (entries : list path) :
  map entry_path (flat_map (cleanable_of fs) entries) =
  filter (fun p => nonempty (cleanable_of fs p)) entries.
Proof.
  induction entries as [|p entries IH]; [reflexivity|].
  cbn [flat_map filter]. rewrite map_app, IH.
  unfold cleanable_of at 1 3.
  destruct (is_dir fs p); [|reflexivity].
  destruct (classify fs p); reflexivity.
Qed.

Lemma cleanable_distinct : lists_once fs d = true -> distinct ps = true.
Proof.
  unfold lists_once, ps, cleanable, find_cleanable_in_dir.
  destruct (iterdir fs d) as [entries|]; [|reflexivity].
  rewrite cleanable_paths_filter, !distinct_NoDup. apply NoDup_filter.
Qed.

(** What was deleted is gone, with all it held. *)
Lemma deleted_gone (e : entry) (t : path) :
  In e cleanable -> lookup fs' (entry_path e ++ t) = None.
Proof.
  intros I. assert (In (entry_path e) ps) as Ip by now apply in_map.
  destruct (cleanable_children _ Ip) as [y Ey]. rewrite Ey, <- app_assoc.
  cbn [app]. unfold fs'.
  rewrite (lookup_after_children d ps cleanable_children).
  rewrite <- Ey. apply mem_In in Ip. now rewrite Ip.
Qed.

(** The plain subdirectories and all below them are as they were. *)
Lemma subdir_untouched (s t : path) :
  In s (get_subdirs fs d) -> lookup fs' (s ++ t) = lookup fs (s ++ t).
Proof.
  intros I. apply In_get_subdirs_child in I. destruct I as ([y ->] & N).
  rewrite <- app_assoc. cbn [app]. unfold fs'.
  rewrite (lookup_after_children d ps cleanable_children).
  destruct (mem (d ++ [y]) ps) eqn:M; [|reflexivity].
  apply mem_In, cleanable_path_classified in M. destruct M as [_ C].
  apply cleanable_not_navigable in C. congruence.
Qed.

Lemma kept_child_same (y : string) :
  mem (d ++ [y]) ps = false -> lookup fs' (d ++ [y]) = lookup fs (d ++ [y]).
Proof.
  intros M. unfold fs'.
  rewrite (lookup_after_children d ps cleanable_children fs y []).
  now rewrite M.
Qed.

Lemma navigable_after (es : list (string * node)) :
  filter (navigable fs')
         (map (fun e => div d (fst e))
              (filter (fun e => negb (mem (d ++ [fst e]) ps)) es)) =
  filter (navigable fs) (map (fun e => div d (fst e)) es).
Proof.
  unfold div. induction es as [|[y n] es IH]; [reflexivity|].
  cbn [filter map fst].
  destruct (mem (d ++ [y]) ps) eqn:M; cbn [negb].
  - apply mem_In, cleanable_path_classified in M. destruct M as [_ C].
    apply cleanable_not_navigable in C. now rewrite C.
  - cbn [map filter fst].
    rewrite (navigable_ext fs' fs _ (kept_child_same y M)), IH.
    reflexivity.
Qed.

Lemma iterdir_inl_inv (entries : list path) :
  iterdir fs d = inl entries ->
  exists es, lookup fs d = Some (Dir true es) /\
             entries = map (fun e => div d (fst e)) es.
Proof.
  unfold iterdir. destruct (lookup fs d) as [[|[] es]|]; try discriminate.
  intros [= <-]. now exists es.
Qed.

Lemma unlisted_unchanged (e : exc) : iterdir fs d = inr e -> fs' = fs.
Proof.
  intros I. unfold fs', ps, cleanable, find_cleanable_in_dir. now rewrite I.
Qed.

Lemma get_subdirs_after : get_subdirs fs' d = get_subdirs fs d.
Proof.
  destruct (iterdir fs d) as [entries|e] eqn:I.
  - destruct (iterdir_inl_inv _ I) as (es & L & ->).
    unfold get_subdirs. rewrite I. unfold iterdir, fs'.
    rewrite (lookup_after_parent d ps cleanable_children), L.
    fold fs'. now rewrite navigable_after.
  - now rewrite (unlisted_unchanged e I).
Qed.

Lemma nothing_cleanable_after : find_cleanable_in_dir fs' d = [].
Proof.
  destruct (iterdir fs d) as [entries|e] eqn:I.
  - destruct (iterdir_inl_inv _ I) as (es & L & ->).
    unfold find_cleanable_in_dir, iterdir, fs'.
    rewrite (lookup_after_parent d ps cleanable_children), L.
    fold fs'.
    assert (forall es0, incl es0 es ->
              flat_map (cleanable_of fs')
                (map (fun e => div d (fst e))
                     (filter (fun e => negb (mem (d ++ [fst e]) ps)) es0))
              = []) as G.
    { unfold div. induction es0 as [|[y n] es0 IH]; intros Hi; [reflexivity|].
      cbn [filter fst].
      destruct (mem (d ++ [y]) ps) eqn:M; cbn [negb].
      - apply IH. intros x Hx. apply Hi. simpl. auto.
      - cbn [map flat_map fst].
        rewrite (cleanable_of_ext fs' fs _ (kept_child_same y M)).
        rewrite IH by (intros x Hx; apply Hi; simpl; auto).
        rewrite app_nil_r.
        destruct (cleanable_of fs (d ++ [y])) as [|e l] eqn:C; [reflexivity|].
        exfalso. apply mem_false in M. apply M.
        apply (listed_cleanable_in_ps _ (d ++ [y]) I).
        + apply in_map_iff. exists (y, n). split; [reflexivity|].
          apply Hi. simpl. auto.
        + rewrite C. discriminate. }
    apply G. apply incl_refl.
  - rewrite (unlisted_unchanged e I).
    unfold find_cleanable_in_dir. now rewrite I.
Qed.

End AfterDeletion.

(** ** The clean action *)

Section CleanAction.

Variables (d : path) (w : world).

Let cleanable := find_cleanable_in_dir (fs w) d.

Hypothesis Honce : lists_once (fs w) d = true.
Hypothesis Hfree :
  forallb (fun e => unrefused w (entry_path e)) cleanable = true.

Lemma clean_loop_run (freed : Z) :
  for_each cleanable freed clean_entry w =
  (Ok (freed + cleanable_size cleanable),
   after_deletions clean_note cleanable w).
Proof.
  apply (deletion_loop d clean_entry clean_note clean_entry_deletes).
  - apply cleanable_children.
  - now apply cleanable_distinct.
  - intros e I. now apply In_find_cleanable in I.
  - intros e I. rewrite forallb_forall in Hfree. now apply Hfree.
Qed.

Lemma wipe_loop_run (freed : Z) :
  for_each cleanable freed (wipe_entry d) w =
  (Ok (freed + cleanable_size cleanable),
   after_deletions (wipe_note d) cleanable w).
Proof.
  apply (deletion_loop d (wipe_entry d) (wipe_note d) (wipe_entry_deletes d)).
  - apply cleanable_children.
  - now apply cleanable_distinct.
  - intros e I. now apply In_find_cleanable in I.
  - intros e I. rewrite forallb_forall in Hfree. now apply Hfree.
Qed.

Lemma clean_action_run :
  clean_action cleanable w =
  (Ok tt,
   say [MFreed (cleanable_size cleanable)]
       (credited (cleanable_size cleanable)
                 (after_deletions clean_note cleanable w))).
Proof.
  unfold clean_action. rewrite (bind_ok _ _ _ _ _ (clean_loop_run 0)).
  reflexivity.
Qed.

End CleanAction.

(** C5.  The [c] action deletes the direct cleanable entries of the
    current directory and nothing else: once it has run, each of these
    entries is gone with all it held, the directory has no cleanable
    entry left, [total_freed] has grown by the sum of their sizes and
    [deleted_count] by their number, and the plain subdirectories are the
    same as before, with everything below them, cleanable entries
    included, exactly as it was; the loop goes on at the same directory.
    The directory is taken to list no name twice, and the removals to go
    through. *)
Theorem clean_only_deletes_direct_entries
        (f : nat) (d sp : path) (ps : option (list path)) (idx : option Z)
        (st : scan_state) (w : world) (line : string) (rest : list string) :
  stdin w = line :: rest ->
  choice_of line = "c" ->
  lists_once (fs w) d = true ->
  forallb (fun e => unrefused w (entry_path e))
          (find_cleanable_in_dir (fs w) d) = true ->
  let cleanable := find_cleanable_in_dir (fs w) d in
  exists w',
    navigate_loop (S f) d sp ps idx st w =
    navigate_loop f d sp ps idx st w' /\
    stdin w' = rest /\
    fs w' = remove_all (map entry_path cleanable) (fs w) /\
    (forall e t, In e cleanable ->
                 lookup (fs w') (entry_path e ++ t) = None) /\
    find_cleanable_in_dir (fs w') d = [] /\
    total_freed (stats w') =
    total_freed (stats w) + cleanable_size cleanable /\
    deleted_count (stats w') = deleted_count (stats w) + len cleanable /\
    get_subdirs (fs w') d = get_subdirs (fs w) d /\
    (forall s t, In s (get_subdirs (fs w) d) ->
                 lookup (fs w') (s ++ t) = lookup (fs w) (s ++ t)) /\
    (forall s, In s (get_subdirs (fs w) d) ->
               find_cleanable_in_dir (fs w') s =
               find_cleanable_in_dir (fs w) s /\
               get_subdirs (fs w') s = get_subdirs (fs w) s) /\
    (forall q,
        (forall e, In e cleanable ->
                   is_prefix (entry_path e) q = false /\
                   is_prefix q (entry_path e) = false) ->
        lookup (fs w') q = lookup (fs w) q).
Proof.
  intros Hin C Honce Hfree cleanable.
  assert (exists w',
             navigate_loop (S f) d sp ps idx st w =
             navigate_loop f d sp ps idx st w' /\
             stdin w' = rest /\
             fs w' = remove_all (map entry_path cleanable) (fs w) /\
             stats w' =
             mkStats (total_freed (stats w) + cleanable_size cleanable)
                     (deleted_count (stats w) + len cleanable))
    as (w' & N & I & F & S0).
  { destruct (nonempty cleanable) eqn:E.
    - exists (say [MFreed (cleanable_size cleanable)]
                  (credited (cleanable_size cleanable)
                     (after_deletions clean_note cleanable
                                      (prompted d sp ps idx st w)))).
      split; [|split; [|split]].
      + rewrite (navigate_c f d sp ps idx st w line rest Hin C E).
        pose proof (clean_action_run d (prompted d sp ps idx st w)
                                     Honce Hfree) as R.
        change (fs (prompted d sp ps idx st w)) with (fs w) in R.
        rewrite (bind_ok _ _ _ _ _ R). reflexivity.
      + cbn. now rewrite Hin.
      + reflexivity.
      + reflexivity.
    - exists (say [MInvalidChoice] (prompted d sp ps idx st w)).
      assert (cleanable = []) as Z0 by (destruct cleanable; [auto|discriminate]).
      split; [|split; [|split]].
      + apply (navigate_c_unavailable f d sp ps idx st w line rest Hin C E).
      + cbn. now rewrite Hin.
      + rewrite Z0. reflexivity.
      + rewrite Z0. unfold cleanable_size, len. cbn.
        rewrite !Z.add_0_r. now destruct (stats w). }
  exists w'. split; [exact N|]. split; [exact I|]. split; [exact F|].
  rewrite F, S0. cbn [total_freed deleted_count].
  split; [intros e t Ie; now apply deleted_gone|].
  split; [apply nothing_cleanable_after|].
  split; [reflexivity|]. split; [reflexivity|].
  split; [apply get_subdirs_after|].
  split; [intros s t Is; now apply subdir_untouched|].
  split.
  - intros s Is.
    pose proof (subdir_untouched (fs w) d s [] Is) as L.
    rewrite app_nil_r in L.
    split; [now apply find_cleanable_in_dir_ext | now apply get_subdirs_ext].
  - intros q H. apply remove_all_apart.
    intros p Ip. apply in_map_iff in Ip. destruct Ip as (e & <- & Ie).
    now apply H.
Qed.

Lemma clean_only_deletes_direct_entries_witness :
  let w := world_of reference_tree ["c"; "s"] in
  find_cleanable_in_dir (fs w) ["proj"] =
  [(["proj"; ".venv"], VirtualEnv, 100);
   (["proj"; "node_modules"], DependencyCache, 200)] /\
  exists w',
    navigate_loop 2 ["proj"] ["proj"] None None init_scan w =
    navigate_loop 1 ["proj"] ["proj"] None None init_scan w' /\
    lookup (fs w') ["proj"; ".venv"] = None /\
    lookup (fs w') ["proj"; "node_modules"] = None /\
    total_freed (stats w') = 300 /\
    deleted_count (stats w') = 2 /\
    get_subdirs (fs w') ["proj"] = [["proj"; "src"]] /\
    lookup (fs w') ["proj"; "src"] = lookup reference_tree ["proj"; "src"] /\
    find_cleanable_in_dir (fs w') ["proj"; "src"] =
    [(["proj"; "src"; "env"], VirtualEnv, 50)].
Proof.
  intros w. split; [reflexivity|].
  assert (stdin w = "c" :: ["s"]) as Hin by reflexivity.
  assert (choice_of "c" = "c") as C by reflexivity.
  assert (lists_once (fs w) ["proj"] = true) as O by reflexivity.
  assert (forallb (fun e => unrefused w (entry_path e))
                  (find_cleanable_in_dir (fs w) ["proj"]) = true) as U
      by reflexivity.
  destruct (clean_only_deletes_direct_entries
              1 ["proj"] ["proj"] None None init_scan w "c" ["s"]
              Hin C O U)
    as (w' & N & _ & _ & G & _ & F & D & S0 & L & K & _).
  exists w'.
  split; [exact N|].
  split; [apply (G (["proj"; ".venv"], VirtualEnv, 100) []); simpl; auto|].
  split; [apply (G (["proj"; "node_modules"], DependencyCache, 200) []);
          simpl; auto|].
  split; [exact F|].
  split; [exact D|].
  split; [exact S0|].
  split; [apply (L ["proj"; "src"] []); simpl; auto|].
  rewrite (proj1 (K ["proj"; "src"] (or_introl eq_refl))). reflexivity.
Defined.

(** ** The wipe, to any depth *)

Section WipeFacts.

Lemma lists_once_ext (fs1 fs2 : node) (d : path) :
  lookup fs1 d = lookup fs2 d -> lists_once fs1 d = lists_once fs2 d.
Proof. intros H. unfold lists_once. now rewrite (iterdir_ext fs1 fs2 d H). Qed.

Lemma child_lookup_ext (fs1 fs2 : node) (d s : path) :
  lookup fs1 d = lookup fs2 d -> In s (get_subdirs fs1 d) ->
  lookup fs1 s = lookup fs2 s.
Proof.
  intros H I. apply In_get_subdirs_child in I. destruct I as ([y ->] & _).
  now apply lookup_below_ext.
Qed.

Lemma cleanable_below_ext (k : nat) (fs1 fs2 : node) :
  forall d, lookup fs1 d = lookup fs2 d ->
            cleanable_below k fs1 d = cleanable_below k fs2 d.
Proof.
  induction k as [|k IH]; intros d H; [reflexivity|].
  cbn [cleanable_below].
  rewrite <- (find_cleanable_in_dir_ext fs1 fs2 d H).
  rewrite <- (get_subdirs_ext fs1 fs2 d H). f_equal.
  pose proof (child_lookup_ext fs1 fs2 d) as C.
  induction (get_subdirs fs1 d) as [|s l IHl]; [reflexivity|].
  cbn [flat_map]. rewrite IHl by (intros; apply C; simpl; auto).
  now rewrite (IH s (C s H (or_introl eq_refl))).
Qed.

Lemma wipeable_ext (k : nat) (w1 w2 : world) :
  refused w1 = refused w2 ->
  forall d, lookup (fs w1) d = lookup (fs w2) d ->
            wipeable k w1 d = wipeable k w2 d.
Proof.
  intros R. induction k as [|k IH]; intros d H; [reflexivity|].
  cbn [wipeable].
  rewrite <- (lists_once_ext _ _ d H).
  rewrite <- (find_cleanable_in_dir_ext _ _ d H).
  rewrite <- (get_subdirs_ext _ _ d H).
  f_equal; [f_equal|].
  - induction (find_cleanable_in_dir (fs w1) d) as [|e l IHl]; [reflexivity|].
    cbn [forallb]. rewrite IHl. unfold unrefused. now rewrite R.
  - pose proof (child_lookup_ext (fs w1) (fs w2) d) as C.
    induction (get_subdirs (fs w1) d) as [|s l IHl]; [reflexivity|].
    cbn [forallb]. rewrite IHl by (intros; apply C; simpl; auto).
    now rewrite (IH s (C s H (or_introl eq_refl))).
Qed.

Lemma wipeable_mono (k : nat) (w : world) :
  forall d, wipeable k w d = true -> wipeable (S k) w d = true.
Proof.
  induction k as [|k IH]; intros d; [discriminate|].
  intros H. change (wipeable (S (S k)) w d)
    with (lists_once (fs w) d &&
          forallb (fun e => unrefused w (entry_path e))
                  (find_cleanable_in_dir (fs w) d) &&
          forallb (wipeable (S k) w) (get_subdirs (fs w) d)).
  cbn [wipeable] in H. rewrite !andb_true_iff in H.
  destruct H as [[H1 H2] H3]. rewrite H1, H2. cbn [andb].
  rewrite forallb_forall in *. intros s I. apply IH. now apply H3.
Qed.

Lemma NoDup_insert_sorted (p : path) (l : list path) :
  ~ In p l -> NoDup l -> NoDup (insert_sorted p l).
Proof.
  induction l as [|q l IH]; intros N D; simpl.
  - constructor; [tauto | constructor].
  - destruct (path_leb p q); [now constructor|].
    inversion D as [|? ? Nq Dl]; subst. constructor.
    + rewrite In_insert_sorted. intros [->|I]; [|tauto].
      apply N. simpl. auto.
    + apply IH; [|exact Dl]. intros I. apply N. simpl. auto.
Qed.

Lemma NoDup_sorted (l : list path) : NoDup l -> NoDup (sorted l).
Proof.
  induction l as [|p l IH]; intros D; simpl; [constructor|].
  inversion D; subst. apply NoDup_insert_sorted; [|auto].
  now rewrite In_sorted.
Qed.

Lemma get_subdirs_NoDup (fs : node) (d : path) :
  lists_once fs d = true -> NoDup (get_subdirs fs d).
Proof.
  unfold lists_once, get_subdirs.
  destruct (iterdir fs d) as [entries|]; [|constructor].
  rewrite distinct_NoDup. intros D. now apply NoDup_sorted, NoDup_filter.
Qed.

Lemma cleanable_below_under (k : nat) (fs : node) :
  forall d e, In e (cleanable_below k fs d) ->
              exists y t, entry_path e = d ++ y :: t.
Proof.
  induction k as [|k IH]; intros d e; [intros []|].
  cbn [cleanable_below]. rewrite in_app_iff, in_flat_map.
  intros [I|(s & Is & I)].
  - apply In_find_cleanable in I. destruct I as ([y ->] & _).
    now exists y, [].
  - apply In_get_subdirs_child in Is. destruct Is as ([y ->] & _).
    destruct (IH _ _ I) as (z & t & ->).
    exists y, (z :: t). now rewrite <- app_assoc.
Qed.

Lemma untouched_outside_refl (d : path) (fs : node) : untouched_outside d fs fs.
Proof. intros c x y t t' _ _. reflexivity. Qed.

Lemma untouched_outside_trans (d : path) (fs1 fs2 fs3 : node) :
  untouched_outside d fs1 fs2 -> untouched_outside d fs2 fs3 ->
  untouched_outside d fs1 fs3.
Proof.
  intros H1 H2 c x y t t' N E.
  now rewrite (H2 c x y t t' N E), (H1 c x y t t' N E).
Qed.

(** What happens outside a subdirectory happens outside the directory. *)
Lemma untouched_outside_child (d : path) (z : string) (fs fs' : node) :
  untouched_outside (d ++ [z]) fs fs' -> untouched_outside d fs fs'.
Proof.
  intros H c x y t t' N E. apply (H c x y t (t' ++ [z]) N).
  rewrite E, <- app_assoc. reflexivity.
Qed.

Lemma remove_children_outside (d : path) (ps : list path) (fs : node) :
  children_of d ps -> untouched_outside d fs (remove_all ps fs).
Proof.
  revert fs. induction ps as [|p ps IH]; intros fs C.
  - apply untouched_outside_refl.
  - destruct (C p (or_introl eq_refl)) as [z ->].
    unfold remove_all. cbn [fold_left].
    fold (remove_all ps (remove_at (d ++ [z]) fs)).
    apply (untouched_outside_trans d fs (remove_at (d ++ [z]) fs)).
    + intros c x y t t' N E. rewrite E, <- app_assoc. cbn [app].
      now apply lookup_remove_diverge.
    + apply IH. intros q I. apply C. simpl. auto.
Qed.

End WipeFacts.

Section WipeBelow.

Variables (k fuel : nat) (d : path).

(** The wipe of one directory does what [wiped] says. *)
Hypothesis wipe_at_depth :
  forall s w,
    wipeable k w s = true ->
    exists w', wipe_all_cleanable fuel s w =
               (Ok (cleanable_size (cleanable_below k (fs w) s)), w') /\
               wiped k s w w'.

Let visit (freed : Z) (subdir : path) : M Z :=
  below <- wipe_all_cleanable fuel subdir ;; ret (freed + below).

Lemma flat_cleanable_below_ext (fs1 fs2 : node) (subs : list path) :
  (forall s, In s subs -> lookup fs1 s = lookup fs2 s) ->
  flat_map (cleanable_below k fs1) subs = flat_map (cleanable_below k fs2) subs.
Proof.
  induction subs as [|s subs IH]; intros H; [reflexivity|].
  cbn [flat_map]. rewrite IH by (intros; apply H; simpl; auto).
  now rewrite (cleanable_below_ext k fs1 fs2 s (H s (or_introl eq_refl))).
Qed.

(** The loop over the subdirectories wipes each in turn; what one visit
    does is out of the way of the next. *)
Lemma subdir_loop (subs : list path) :
  NoDup subs -> children_of d subs ->
  forall freed w0,
    (forall s, In s subs -> wipeable k w0 s = true) ->
    exists w',
      for_each subs freed visit w0 =
      (Ok (freed +
           cleanable_size (flat_map (cleanable_below k (fs w0)) subs)), w') /\
      refused w' = refused w0 /\
      stdin w' = stdin w0 /\
      stats w' =
      mkStats (total_freed (stats w0))
              (deleted_count (stats w0) +
               len (flat_map (cleanable_below k (fs w0)) subs)) /\
      untouched_outside d (fs w0) (fs w') /\
      (forall y t, ~ In (d ++ [y]) subs ->
                   lookup (fs w') (d ++ y :: t) = lookup (fs w0) (d ++ y :: t)) /\
      (forall e t, In e (flat_map (cleanable_below k (fs w0)) subs) ->
                   lookup (fs w') (entry_path e ++ t) = None).
Proof.
  induction subs as [|s subs IH]; intros ND C freed w0 W.
  - exists w0. cbn [for_each flat_map].
    split; [unfold ret, cleanable_size; cbn; now rewrite Z.add_0_r|].
    split; [reflexivity|]. split; [reflexivity|].
    split; [unfold len; cbn; rewrite Z.add_0_r; now destruct (stats w0)|].
    split; [apply untouched_outside_refl|].
    split; [reflexivity | intros e t []].
  - inversion ND as [|? ? Ns ND']; subst.
    destruct (C s (or_introl eq_refl)) as [a ->].
    destruct (wipe_at_depth (d ++ [a]) w0 (W _ (or_introl eq_refl)))
      as (w1 & E1 & R1 & I1 & S1 & O1 & G1).
    assert (forall s', In s' subs -> lookup (fs w1) s' = lookup (fs w0) s')
      as L1.
    { intros s' I. destruct (C s' (or_intror I)) as [b ->].
      apply (O1 d a b [] []); [|reflexivity].
      intros ->. now apply Ns. }
    destruct (IH ND' (fun q I => C q (or_intror I)) (freed +
                cleanable_size (cleanable_below k (fs w0) (d ++ [a]))) w1)
      as (w' & E & R & I & S0 & O & F & G).
    { intros s' Is. rewrite <- (W s' (or_intror Is)).
      apply wipeable_ext; [exact R1 | now apply L1]. }
    rewrite (flat_cleanable_below_ext (fs w1) (fs w0) subs L1) in *.
    exists w'. cbn [for_each flat_map]. unfold visit at 1.
    rewrite bind_bind, (bind_ok _ _ _ _ _ E1), bind_ret, E.
    rewrite cleanable_size_app, len_app.
    split; [f_equal; f_equal; lia|].
    split; [congruence|]. split; [congruence|].
    split.
    { rewrite S0, S1. cbn [total_freed deleted_count]. f_equal. lia. }
    split.
    { apply (untouched_outside_trans d _ (fs w1)); [|exact O].
      now apply (untouched_outside_child d a). }
    split.
    { intros y t N. rewrite F by (intros X; apply N; simpl; auto).
      apply (O1 d a y t []); [|reflexivity].
      intros ->. apply N. simpl. auto. }
    intros e t Ie. apply in_app_iff in Ie. destruct Ie as [Ie|Ie].
    + destruct (cleanable_below_under k (fs w0) _ e Ie) as (y & t0 & Ey).
      pose proof (G1 e t Ie) as Gone. rewrite Ey in *.
      rewrite <- !app_assoc in *. cbn [app] in *.
      now rewrite (F a (y :: t0 ++ t) Ns).
    + now apply G.
Qed.

End WipeBelow.

(** [wipe_all_cleanable] deletes every cleanable entry at and below the
    directory, however deep, returns their total size and counts them,
    and leaves the rest of the tree alone. *)
Lemma wipe_all_cleanable_run (k : nat) :
  forall fuel d w,
    (k <= fuel)%nat ->
    wipeable k w d = true ->
    exists w', wipe_all_cleanable fuel d w =
               (Ok (cleanable_size (cleanable_below k (fs w) d)), w') /\
               wiped k d w w'.
Proof.
  induction k as [|k IH]; intros fuel d w Hf W; [discriminate|].
  destruct fuel as [|fuel]; [lia|].
  cbn [wipeable] in W. rewrite !andb_true_iff in W.
  destruct W as [[Honce Hfree] Hsub].
  set (cl := find_cleanable_in_dir (fs w) d).
  set (w1 := after_deletions (wipe_note d) cl w).
  assert (get_subdirs (fs w1) d = get_subdirs (fs w) d) as Sd
      by apply get_subdirs_after.
  assert (forall s, In s (get_subdirs (fs w) d) ->
                    lookup (fs w1) s = lookup (fs w) s) as L1.
  { intros s Is. pose proof (subdir_untouched (fs w) d s [] Is) as L.
    now rewrite app_nil_r in L. }
  destruct (subdir_loop k fuel d
              (fun s w0 => IH fuel s w0 ltac:(lia))
              (get_subdirs (fs w) d)
              (get_subdirs_NoDup _ _ Honce)
              (fun s I => proj1 (In_get_subdirs_child _ _ _ I))
              (0 + cleanable_size cl) w1)
    as (w' & E & R & I & S0 & O & F & G).
  { intros s Is. rewrite forallb_forall in Hsub. rewrite <- (Hsub s Is).
    apply wipeable_ext; [reflexivity | now apply L1]. }
  rewrite (flat_cleanable_below_ext k (fs w1) (fs w) _ L1) in *.
  exists w'. unfold wiped. cbn [wipe_all_cleanable cleanable_below]. fold cl.
  rewrite bind_query. fold cl.
  rewrite (bind_ok _ _ _ _ _ (wipe_loop_run d w Honce Hfree 0)).
  fold cl. fold w1. rewrite bind_query, Sd, E.
  rewrite cleanable_size_app, len_app.
  split; [f_equal; f_equal; lia|].
  split; [exact R|]. split; [exact I|].
  split.
  { rewrite S0. cbn [w1 after_deletions stats total_freed deleted_count].
    f_equal. lia. }
  split.
  { apply (untouched_outside_trans d _ (fs w1)); [|exact O].
    apply remove_children_outside, cleanable_children. }
  intros e t Ie. apply in_app_iff in Ie. destruct Ie as [Ie|Ie].
  - pose proof (deleted_gone (fs w) d e t Ie) as Gone.
    assert (In (entry_path e) (map entry_path cl)) as Ip by now apply in_map.
    destruct (cleanable_children (fs w) d _ Ip) as [x Ex].
    rewrite Ex in *. rewrite <- app_assoc in *. cbn [app] in *.
    rewrite F; [exact Gone|].
    intros Is. apply In_get_subdirs_child in Is. destruct Is as [_ N].
    rewrite <- Ex in N.
    destruct (cleanable_path_classified (fs w) d _ Ip) as [_ Cl].
    apply cleanable_not_navigable in Cl. congruence.
  - now apply G.
Qed.

(** The [w] action: the wipe, then the bytes on the books. *)
Lemma wipe_action_run (k fuel : nat) (d : path) (w : world) :
  (k <= fuel)%nat ->
  wipeable k w d = true ->
  exists w',
    wipe_action fuel d w = (Ok tt, w') /\
    stdin w' = stdin w /\
    stats w' =
    mkStats (total_freed (stats w) +
             cleanable_size (cleanable_below k (fs w) d))
            (deleted_count (stats w) + len (cleanable_below k (fs w) d)) /\
    untouched_outside d (fs w) (fs w') /\
    (forall e t, In e (cleanable_below k (fs w) d) ->
                 lookup (fs w') (entry_path e ++ t) = None).
Proof.
  intros Hf W.
  destruct (wipe_all_cleanable_run k fuel d (say [MWiping (name d)] w) Hf)
    as (w1 & E & R & I & S0 & O & G).
  { rewrite <- W. now apply wipeable_ext. }
  change (fs (say [MWiping (name d)] w)) with (fs w) in *.
  set (freed := cleanable_size (cleanable_below k (fs w) d)) in *.
  exists (say [MFreedTree freed] (credited freed w1)).
  unfold wipe_action. rewrite bind_print, (bind_ok _ _ _ _ _ E).
  split; [reflexivity|]. split; [exact I|].
  split; [cbn; now rewrite S0|].
  split; [exact O | exact G].
Qed.

(** C1.  In a directory whose own cleanable entries are a virtual
    environment [A] of 100 bytes and a [node_modules] [B] of 200 bytes,
    and whose one plain subdirectory holds, at whatever depth [k], one
    more virtual environment [C] of 50 bytes and nothing else to clean, the
    [w] action deletes the three of them, adds 3 to [deleted_count] and
    350 to [total_freed], touches nothing outside the directory and goes
    on at the same directory.  No name is listed twice and the removals
    go through; the recursion of the model has room for the [k + 1]
    levels. *)
Theorem wipe_deletes_all_three
        (f k : nat) (d sp : path) (ps : option (list path)) (idx : option Z)
        (st : scan_state) (w : world) (line : string) (rest : list string)
        (A B sub C : path) :
  stdin w = line :: rest ->
  choice_of line = "w" ->
  find_cleanable_in_dir (fs w) d =
  [(A, VirtualEnv, 100); (B, DependencyCache, 200)] ->
  get_subdirs (fs w) d = [sub] ->
  cleanable_below k (fs w) sub = [(C, VirtualEnv, 50)] ->
  wipeable (S k) w d = true ->
  (k < f)%nat ->
  exists w',
    navigate_loop (S f) d sp ps idx st w =
    navigate_loop f d sp ps idx init_scan w' /\
    stdin w' = rest /\
    (forall t, lookup (fs w') (A ++ t) = None) /\
    (forall t, lookup (fs w') (B ++ t) = None) /\
    (forall t, lookup (fs w') (C ++ t) = None) /\
    deleted_count (stats w') = deleted_count (stats w) + 3 /\
    total_freed (stats w') = total_freed (stats w) + 350 /\
    untouched_outside d (fs w) (fs w').
Proof.
  intros Hin Ch HA HS HC W Hf.
  assert (cleanable_below (S k) (fs w) d =
          [(A, VirtualEnv, 100); (B, DependencyCache, 200);
           (C, VirtualEnv, 50)]) as All.
  { cbn [cleanable_below]. rewrite HA, HS. cbn [flat_map].
    rewrite HC. reflexivity. }
  destruct (wipe_action_run (S k) f d (prompted d sp ps idx st w))
    as (w' & E & I & S0 & O & G); [lia | |].
  { rewrite <- W. now apply wipeable_ext. }
  change (fs (prompted d sp ps idx st w)) with (fs w) in *.
  rewrite All in *.
  exists w'. split.
  { rewrite (navigate_w f d sp ps idx st w line rest Hin Ch)
      by now rewrite HA.
    now rewrite (bind_ok _ _ _ _ _ E). }
  split; [rewrite I; cbn; now rewrite Hin|].
  split; [intros t; apply (G (A, VirtualEnv, 100) t); simpl; auto|].
  split; [intros t; apply (G (B, DependencyCache, 200) t); simpl; auto|].
  split; [intros t; apply (G (C, VirtualEnv, 50) t); simpl; auto|].
  rewrite S0. cbn. split; [reflexivity|]. split; [reflexivity | exact O].
Qed.

Lemma wipe_deletes_all_three_witness :
  let w := world_of deep_reference ["w"; "s"] in
  exists w',
    navigate_loop 21 ["proj"] ["proj"] None None init_scan w =
    navigate_loop 20 ["proj"] ["proj"] None None init_scan w' /\
    stdin w' = ["s"] /\
    (forall t, lookup (fs w') (["proj"; ".venv"] ++ t) = None) /\
    (forall t, lookup (fs w') (["proj"; "node_modules"] ++ t) = None) /\
    (forall t, lookup (fs w') (deep_env ++ t) = None) /\
    deleted_count (stats w') = 0 + 3 /\
    total_freed (stats w') = 0 + 350 /\
    untouched_outside ["proj"] deep_reference (fs w').
Proof.
  intros w.
  apply (wipe_deletes_all_three
           20 14 ["proj"] ["proj"] None None init_scan w "w" ["s"]
           ["proj"; ".venv"] ["proj"; "node_modules"] ["proj"; "src"]
           deep_env).
  - reflexivity.
  - reflexivity.
  - reflexivity.
  - reflexivity.
  - vm_compute. reflexivity.
  - vm_compute. reflexivity.
  - lia.
Defined.

(** The scan with its depth of 10 sees two of the three entries of that
    tree; the wipe reaches the third. *)
Lemma scan_misses_what_wipe_reaches :
  scan_recursive deep_reference ["proj"] 10 = (2, 300) /\
  exists_ deep_reference deep_env = true /\
  fst (main 30 ["proj"] (world_of deep_reference ["w"; "s"])) = Ok tt /\
  exists_ (fs (snd (main 30 ["proj"] (world_of deep_reference ["w"; "s"]))))
          deep_env = false /\
  stats (snd (main 30 ["proj"] (world_of deep_reference ["w"; "s"]))) =
  mkStats 350 3.
Proof. repeat split; vm_compute; reflexivity. Qed.

(** ** What the recursive scan counts *)

Section ScanCounts.

Variable fs : node.

Lemma insert_sorted_perm (p : path) (l : list path) :
  Permutation (insert_sorted p l) (p :: l).
Proof.
  induction l as [|q l IH]; simpl; [reflexivity|].
  destruct (path_leb p q); [reflexivity|].
  rewrite IH. apply perm_swap.
Qed.

Lemma sorted_perm (l : list path) : Permutation (sorted l) l.
Proof.
  induction l as [|p l IH]; simpl; [reflexivity|].
  now rewrite insert_sorted_perm, IH.
Qed.

Lemma cleanable_size_perm (l l' : list entry) :
  Permutation l l' -> cleanable_size l = cleanable_size l'.
Proof.
  unfold cleanable_size.
  induction 1; cbn [fold_right]; lia.
Qed.

Lemma len_perm {A} (l l' : list A) : Permutation l l' -> len l = len l'.
Proof. intros H. unfold len. now rewrite (Permutation_length H). Qed.

(** The pair of counters after some more entries have been found. *)
Lemma scan_fold_counts (levels : nat) (entries : list path) :
  (forall e acc,
      scan_dir fs levels e acc =
      (fst acc + len (cleanable_below levels fs e),
       snd acc + cleanable_size (cleanable_below levels fs e))) ->
  forall acc,
    fold_left (scan_step fs (scan_dir fs levels)) entries acc =
    (fst acc +
     len (flat_map (cleanable_of fs) entries ++
          flat_map (cleanable_below levels fs)
                   (filter (navigable fs) entries)),
     snd acc +
     cleanable_size (flat_map (cleanable_of fs) entries ++
                     flat_map (cleanable_below levels fs)
                              (filter (navigable fs) entries))).
Proof.
  intros IH. induction entries as [|e entries IHe]; intros acc.
  - cbn. unfold len, cleanable_size. cbn. destruct acc. cbn. f_equal; lia.
  - cbn [fold_left flat_map filter]. rewrite IHe.
    rewrite !len_app, !cleanable_size_app.
    destruct (scan_step_cases fs (scan_dir fs levels) acc e)
      as [(N & C & E)|(N & E)]; rewrite E, N.
    + rewrite IH, C. cbn [flat_map fst snd app].
      rewrite !len_app, !cleanable_size_app.
      change (len (@nil entry)) with 0.
      change (cleanable_size []) with 0.
      f_equal; lia.
    + cbn [fst snd]. f_equal; lia.
Qed.

Lemma scan_dir_counts (levels : nat) :
  forall d acc,
    scan_dir fs levels d acc =
    (fst acc + len (cleanable_below levels fs d),
     snd acc + cleanable_size (cleanable_below levels fs d)).
Proof.
  induction levels as [|levels IH]; intros d acc.
  - cbn. unfold len, cleanable_size. cbn. destruct acc. cbn. f_equal; lia.
  - cbn [scan_dir cleanable_below].
    unfold find_cleanable_in_dir, get_subdirs.
    destruct (iterdir fs d) as [entries|].
    + rewrite (scan_fold_counts levels entries IH).
      rewrite !len_app, !cleanable_size_app.
      pose proof (Permutation_flat_map (cleanable_below levels fs)
                    (sorted_perm (filter (navigable fs) entries))) as P.
      now rewrite (len_perm _ _ P), (cleanable_size_perm _ _ P).
    + cbn. unfold len, cleanable_size. cbn. destruct acc. cbn. f_equal; lia.
Qed.

(** An entry the scan counts is reached through plain directories only:
    no directory on the way down to it is a cleanable one. *)
Lemma cleanable_below_through_plain (k : nat) :
  forall d e u v,
    In e (cleanable_below k fs d) ->
    entry_path e = d ++ u ++ v -> u <> [] -> v <> [] ->
    navigable fs (d ++ u) = true.
Proof.
  induction k as [|k IH]; intros d e u v I E Hu Hv; [destruct I|].
  cbn [cleanable_below] in I. apply in_app_iff in I. destruct I as [I|I].
  - apply In_find_cleanable in I. destruct I as ([y Ey] & _).
    rewrite Ey in E. apply app_inv_head in E.
    destruct u as [|a [|b u]]; try congruence; destruct v; try congruence;
      discriminate.
  - apply in_flat_map in I. destruct I as (s & Is & I).
    destruct (In_get_subdirs_child fs d s Is) as ([a ->] & N).
    destruct (cleanable_below_under k fs _ e I) as (z & t & Ez).
    rewrite Ez, <- app_assoc in E. apply app_inv_head in E. cbn [app] in E.
    destruct u as [|a' u]; [congruence|]. injection E as <- E.
    destruct u as [|b u]; [exact N|].
    replace (d ++ a :: b :: u) with ((d ++ [a]) ++ b :: u)
      by now rewrite <- app_assoc.
    apply (IH (d ++ [a]) e (b :: u) v I); [|discriminate|exact Hv].
    rewrite Ez, <- !app_assoc. cbn [app]. now rewrite E.
Qed.

End ScanCounts.

(** C2.  The recursive scan does not go into a directory it has classified
    as cleanable.  Such a directory adds one to the count and its size to
    the total whatever the descent would have found in it; the scan
    returns the number and the total size of the cleanable entries of
    the plain directories down to [max_depth]; and every directory on the
    way from the start to a counted entry is a plain one, so that a
    cleanable directory nested in another is neither counted nor added. *)
Theorem scan_recursive_stops_at_cleanable
        (fs : node) (d : path) (max_depth : Z) :
  let found := cleanable_below (Z.to_nat (max_depth + 1)) fs d in
  (forall descend acc e,
      is_dir fs e = true -> classify fs e <> None ->
      scan_step fs descend acc e =
      (fst acc + 1, snd acc + get_dir_size fs e)) /\
  scan_recursive fs d max_depth = (len found, cleanable_size found) /\
  (forall e, In e found ->
             is_dir fs (entry_path e) = true /\
             classify fs (entry_path e) = Some (entry_kind e) /\
             entry_size e = get_dir_size fs (entry_path e)) /\
  (forall e u v,
      In e found -> entry_path e = d ++ u ++ v -> u <> [] -> v <> [] ->
      classify fs (d ++ u) = None).
Proof.
  intros found. split; [|split; [|split]].
  - intros. now apply scan_step_cleanable.
  - unfold scan_recursive. rewrite scan_dir_counts. reflexivity.
  - unfold found. clear found. generalize (Z.to_nat (max_depth + 1)).
    intros k. revert d.
    induction k as [|k IH]; intros d e I; [destruct I|].
    cbn [cleanable_below] in I. apply in_app_iff in I. destruct I as [I|I].
    + apply In_find_cleanable in I. tauto.
    + apply in_flat_map in I. destruct I as (s & _ & I). now apply (IH s).
  - intros e u v I E Hu Hv.
    pose proof (cleanable_below_through_plain fs _ d e u v I E Hu Hv) as N.
    unfold navigable in N. rewrite !andb_true_iff, !negb_true_iff in N.
    apply classify_none. tauto.
Qed.

(** A virtual environment that holds a [node_modules] counts once, for
    all its 42 bytes. *)
Example nested_cleanable_counted_once :
  scan_recursive nested_cleanable ["proj"] 10 = (1, 42) /\
  classify nested_cleanable ["proj"; ".venv"; "node_modules"]
  = Some DependencyCache.
Proof. split; reflexivity. Qed.

(** ** Nothing grows *)

Section Erosion.

Lemma height_dir (r : bool) (es : list (string * node)) :
  height (Dir r es) = S (max_height es).
Proof.
  cbn [height]. f_equal. unfold max_height.
  induction es as [|[y c] es IH]; [reflexivity|].
  cbn [fold_right snd]. now rewrite IH.
Qed.

Lemma max_height_find_entry (y : string) (es : list (string * node))
      (c : node) :
  find_entry y es = Some c -> (height c <= max_height es)%nat.
Proof.
  unfold max_height. induction es as [|[k n] es IH]; [discriminate|].
  cbn [find_entry fold_right snd]. destruct (String.eqb k y).
  - intros [= ->]. lia.
  - intros H. specialize (IH H). lia.
Qed.

Lemma max_height_remove_entry (a : string) (es : list (string * node)) :
  (max_height (remove_entry a es) <= max_height es)%nat.
Proof.
  unfold max_height, remove_entry.
  induction es as [|[k n] es IH]; [reflexivity|].
  cbn [filter fst]. destruct (String.eqb k a); cbn [negb fold_right snd]; lia.
Qed.

Lemma max_height_update_entry (a : string) (g : node -> node)
      (es : list (string * node)) :
  (forall c, (height (g c) <= height c)%nat) ->
  (max_height (update_entry a g es) <= max_height es)%nat.
Proof.
  intros G. unfold max_height.
  induction es as [|[k n] es IH]; [reflexivity|].
  cbn [update_entry]. destruct (String.eqb k a); cbn [fold_right snd].
  - specialize (G n). lia.
  - lia.
Qed.

Lemma height_remove_at (p : path) :
  forall n, (height (remove_at p n) <= height n)%nat.
Proof.
  induction p as [|a p IH]; intros n; [reflexivity|].
  destruct n as [|r es]; [reflexivity|].
  destruct p as [|b p].
  - cbn [remove_at]. rewrite !height_dir.
    pose proof (max_height_remove_entry a es). lia.
  - rewrite remove_at_cons_dir by discriminate. rewrite !height_dir.
    pose proof (max_height_update_entry a (remove_at (b :: p)) es IH). lia.
Qed.

Lemma erodes_refl (fs : node) : erodes fs fs.
Proof. intros q. reflexivity. Qed.

Lemma erodes_trans (fs1 fs2 fs3 : node) :
  erodes fs1 fs2 -> erodes fs2 fs3 -> erodes fs1 fs3.
Proof. intros H1 H2 q. specialize (H1 q). specialize (H2 q). lia. Qed.

Lemma erodes_remove_at (p : path) : forall fs, erodes fs (remove_at p fs).
Proof.
  induction p as [|a p IH]; intros fs q; [reflexivity|].
  destruct fs as [|r es]; [reflexivity|].
  destruct q as [|b q].
  - unfold height_at. cbn [lookup]. apply height_remove_at.
  - unfold height_at. destruct p as [|c p].
    + cbn [remove_at lookup]. rewrite find_entry_remove_entry.
      destruct (String.eqb a b); [cbn; lia | reflexivity].
    + rewrite remove_at_cons_dir by discriminate. cbn [lookup].
      rewrite find_entry_update_entry.
      destruct (String.eqb a b); [|reflexivity].
      destruct (find_entry b es) as [n|]; [|reflexivity].
      cbn [option_map]. apply (IH n q).
Qed.

Lemma height_at_le (q : path) :
  forall fs, (height_at fs q <= height fs)%nat.
Proof.
  unfold height_at. induction q as [|b q IH]; intros fs; [reflexivity|].
  destruct fs as [|r es]; [cbn; lia|].
  cbn [lookup]. destruct (find_entry b es) as [c|] eqn:F; [|lia].
  specialize (IH c). apply max_height_find_entry in F.
  rewrite height_dir. lia.
Qed.

(** A subdirectory is less tall than the directory that holds it. *)
Lemma height_at_child (fs : node) (d : path) (y : string) :
  is_dir fs (d ++ [y]) = true ->
  (height_at fs (d ++ [y]) < height_at fs d)%nat.
Proof.
  unfold is_dir, height_at. rewrite lookup_app.
  destruct (lookup fs d) as [[|r es]|]; try discriminate.
  cbn [lookup]. destruct (find_entry y es) as [c|] eqn:F; [|discriminate].
  intros _. apply max_height_find_entry in F. rewrite height_dir. lia.
Qed.

Lemma shrinks_refl (w : world) : shrinks w w.
Proof. split; [apply erodes_refl | reflexivity]. Qed.

Lemma shrinks_trans (w1 w2 w3 : world) :
  shrinks w1 w2 -> shrinks w2 w3 -> shrinks w1 w3.
Proof.
  intros [E1 L1] [E2 L2]. split; [now apply (erodes_trans _ (fs w2)) | lia].
Qed.

Lemma shrinks_same (w w' : world) :
  fs w' = fs w -> stdin w' = stdin w -> shrinks w w'.
Proof. intros F I. unfold shrinks. rewrite F, I. split; [apply erodes_refl | reflexivity]. Qed.

Lemma budget_shrinks (w w' : world) :
  shrinks w w' -> (budget w' <= budget w)%nat.
Proof.
  intros [E L]. unfold budget. specialize (E []).
  unfold height_at in E. cbn [lookup] in E. lia.
Qed.

End Erosion.

(** ** What the navigation never does *)

Section Orderly.

Lemma quiet_refl (w : world) : quiet w w.
Proof. exists []. rewrite app_nil_r. split; [reflexivity|]. intros m []. Qed.

Lemma quiet_trans (w1 w2 w3 : world) : quiet w1 w2 -> quiet w2 w3 -> quiet w1 w3.
Proof.
  intros (ms & E & H) (ms' & E' & H'). exists (ms ++ ms').
  rewrite E', E, app_assoc. split; [reflexivity|].
  intros m I. apply in_app_iff in I. destruct I; auto.
Qed.

Lemma quiet_say (ms : list msg) (w : world) :
  (forall m, In m ms -> is_summary m = false) -> quiet w (say ms w).
Proof. intros H. exists ms. split; [reflexivity | exact H]. Qed.

Lemma quiet_same_stdout (w w' : world) : stdout w' = stdout w -> quiet w w'.
Proof.
  intros E. exists []. rewrite app_nil_r. split; [exact E|]. intros m [].
Qed.

Lemma orderly_ok {A} (w w' : world) (a : A) :
  quiet w w' -> shrinks w w' -> orderly w (Ok a) w'.
Proof.
  intros Q S0. split; [exact Q|]. split; [exact S0|]. split; intros ? [=].
Qed.

Lemma keeps_ret {A} (a : A) : keeps (ret a).
Proof.
  intros w r w' [= <- <-]. apply orderly_ok; [apply quiet_refl|apply shrinks_refl].
Qed.

Lemma keeps_out_of_fuel {A} : keeps (@out_of_fuel A).
Proof.
  intros w r w' [= <- <-]. split; [apply quiet_refl|].
  split; [apply shrinks_refl|]. split; intros ? [=].
Qed.

Lemma keeps_bind {A B} (m : M A) (k : A -> M B) :
  keeps m -> (forall a, keeps (k a)) -> keeps (bind m k).
Proof.
  intros Hm Hk w r w' E. unfold bind in E.
  destruct (m w) as [[a|e|c|] w1] eqn:E1.
  - destruct (Hm _ _ _ E1) as (Q1 & S1 & _).
    destruct (Hk a _ _ _ E) as (Q2 & S2 & X & R).
    split; [exact (quiet_trans _ _ _ Q1 Q2)|].
    split; [exact (shrinks_trans _ _ _ S1 S2)|]. split; assumption.
  - injection E as <- <-. destruct (Hm _ _ _ E1) as (Q1 & S1 & X & R).
    split; [exact Q1|]. split; [exact S1|]. split.
    + intros c [=].
    + intros e' [= <-]. now apply R.
  - injection E as <- <-. destruct (Hm _ _ _ E1) as (Q1 & S1 & X & R).
    split; [exact Q1|]. split; [exact S1|]. split.
    + intros c' [= <-]. now apply X.
    + intros e' [=].
  - injection E as <- <-. destruct (Hm _ _ _ E1) as (Q1 & S1 & X & R).
    split; [exact Q1|]. split; [exact S1|]. split; intros ? [=].
Qed.

Lemma keeps_said {A} (m : M A) (a : A) (ms : world -> list msg) :
  (forall w, m w = (Ok a, say (ms w) w)) ->
  (forall w x, In x (ms w) -> is_summary x = false) ->
  keeps m.
Proof.
  intros E H w r w' R. rewrite E in R. injection R as <- <-.
  apply orderly_ok; [apply quiet_say, H | now apply shrinks_same].
Qed.

Lemma keeps_print (m : msg) : is_summary m = false -> keeps (print m).
Proof.
  intros H. apply (keeps_said (print m) tt (fun _ => [m])).
  - reflexivity.
  - intros _ x [<-|[]]. exact H.
Qed.

Lemma keeps_query {A} (f : node -> A) : keeps (query f).
Proof.
  intros w r w' [= <- <-].
  apply orderly_ok; [apply quiet_refl | apply shrinks_refl].
Qed.

Lemma keeps_silent {A} (m : M A) :
  (forall w, exists a w',
      m w = (Ok a, w') /\ stdout w' = stdout w /\
      fs w' = fs w /\ stdin w' = stdin w) ->
  keeps m.
Proof.
  intros H w r w' E. destruct (H w) as (a & w1 & E1 & S0 & F & I).
  rewrite E1 in E. injection E as <- <-.
  apply orderly_ok; [now apply quiet_same_stdout | now apply shrinks_same].
Qed.

Lemma keeps_set_stats (s : stats_t) : keeps (set_stats s).
Proof. apply keeps_silent. intros w. eexists _, _. repeat split. Qed.

Lemma keeps_incr_deleted_count : keeps incr_deleted_count.
Proof. apply keeps_silent. intros w. eexists _, _. repeat split. Qed.

Lemma keeps_add_total_freed (freed : Z) : keeps (add_total_freed freed).
Proof. apply keeps_silent. intros w. eexists _, _. repeat split. Qed.

Lemma keeps_input (prompt : msg) :
  is_summary prompt = false -> keeps (input prompt).
Proof.
  intros H w r w' E.
  assert (quiet w (say [prompt] (consume w))) as Q.
  { exists [prompt]. split; [reflexivity|]. intros m [<-|[]]. exact H. }
  assert (shrinks w (say [prompt] (consume w))) as S0.
  { split; [apply erodes_refl|]. cbn. destruct (stdin w); cbn; lia. }
  destruct (stdin w) as [|line rest] eqn:I.
  - rewrite (input_eof _ _ I) in E. injection E as <- <-.
    split; [exact Q|]. split; [exact S0|]. split.
    + intros c [=].
    + intros e [= <-]. reflexivity.
  - rewrite (input_cons _ _ _ _ I) in E. injection E as <- <-.
    now apply orderly_ok.
Qed.

(** Lines 233-234. *)
Lemma keeps_quit {A} : keeps (print MQuitting ;; @sys_exit A 0).
Proof.
  intros w r w' E. rewrite bind_print in E. injection E as <- <-.
  split; [apply quiet_say; intros m [<-|[]]; reflexivity|].
  split; [now apply shrinks_same|]. split.
  - intros c [= <-]. split; [reflexivity|].
    exists (stdout w). reflexivity.
  - intros e [=].
Qed.

Lemma keeps_for_each {A S} (body : S -> A -> M S) (l : list A) :
  (forall s a, keeps (body s a)) -> forall s, keeps (for_each l s body).
Proof.
  intros Hb. induction l as [|a l IH]; intros s; cbn [for_each].
  - apply keeps_ret.
  - apply keeps_bind; [apply Hb | exact IH].
Qed.

Lemma rmtree_ok_inv (p : path) (w w1 : world) :
  rmtree p w = (Ok tt, w1) ->
  w1 = mkWorld (remove_at p (fs w)) (refused w) (stdin w) (stdout w) (stats w).
Proof.
  unfold rmtree.
  destruct (lookup (fs w) p) as [[|? ?]|]; try discriminate.
  destruct p; try discriminate.
  destruct (refusal (refused w) (s :: p)); [discriminate|].
  now intros [= <-].
Qed.

Lemma keeps_delete_directory (p : path) : keeps (delete_directory p).
Proof.
  intros w r w' E.
  destruct (rmtree p w) as [[[]|e|c|] w1] eqn:R.
  - rewrite (delete_directory_done _ _ _ R) in E. injection E as <- <-.
    apply rmtree_ok_inv in R. subst w1.
    apply orderly_ok; [now apply quiet_same_stdout|].
    split; [apply (erodes_remove_at p (fs w)) | reflexivity].
  - rewrite (delete_directory_failed _ _ _ _ R) in E. injection E as <- <-.
    apply rmtree_raised_same in R. subst w1.
    apply orderly_ok; [|now apply shrinks_same].
    apply quiet_say. intros m [<-|[]]. reflexivity.
  - destruct (delete_directory_total p w) as (ok & w2 & D).
    rewrite D in E. injection E as <- <-.
    unfold delete_directory, try_except, bind in D. rewrite R in D.
    discriminate D.
  - destruct (delete_directory_total p w) as (ok & w2 & D).
    rewrite D in E. injection E as <- <-.
    unfold delete_directory, try_except, bind in D. rewrite R in D.
    discriminate D.
Qed.

Ltac keeps_step :=
  match goal with
  | |- keeps (bind (print MQuitting) (fun _ => sys_exit 0)) => apply keeps_quit
  | |- keeps (bind _ _) => apply keeps_bind; [|intros ?]
  | |- keeps (ret _) => apply keeps_ret
  | |- keeps out_of_fuel => apply keeps_out_of_fuel
  | |- keeps (print _) => apply keeps_print; reflexivity
  | |- keeps (query _) => apply keeps_query
  | |- keeps (input _) => apply keeps_input; reflexivity
  | |- keeps incr_deleted_count => apply keeps_incr_deleted_count
  | |- keeps (add_total_freed _) => apply keeps_add_total_freed
  | |- keeps (delete_directory _) => apply keeps_delete_directory
  | |- keeps (for_each _ _ _) => apply keeps_for_each; intros ? ?
  | |- keeps (when ?b _) => destruct b; cbn [when]
  | |- keeps (if ?b then _ else _) => destruct b
  | |- keeps (match ?o with Some _ => _ | None => _ end) => destruct o
  | |- keeps (let '(_, _) := ?x in _) => destruct x
  | H : _ |- _ => apply H
  end.

Lemma keeps_wipe_entry (d : path) (freed : Z) (e : entry) :
  keeps (wipe_entry d freed e).
Proof. destruct e as [[p k] size]. unfold wipe_entry. repeat keeps_step. Qed.

Lemma keeps_clean_entry (freed : Z) (e : entry) : keeps (clean_entry freed e).
Proof. destruct e as [[p k] size]. unfold clean_entry. repeat keeps_step. Qed.

Lemma keeps_wipe_all_cleanable (fuel : nat) :
  forall d, keeps (wipe_all_cleanable fuel d).
Proof.
  induction fuel as [|fuel IH]; intros d; cbn [wipe_all_cleanable].
  - apply keeps_out_of_fuel.
  - apply keeps_bind; [apply keeps_query | intros cleanable].
    apply keeps_bind;
      [apply keeps_for_each; intros; apply keeps_wipe_entry | intros freed].
    apply keeps_bind; [apply keeps_query | intros subdirs].
    apply keeps_for_each. intros s a.
    apply keeps_bind; [apply IH | intros; apply keeps_ret].
Qed.

Lemma keeps_render (d : path) (c : list entry) (s : list path)
      (st : scan_state) : keeps (render d c s st).
Proof. unfold render. repeat keeps_step. Qed.

Lemma keeps_show_actions (a b : bool) (s : list path) (c n p : bool) :
  keeps (show_actions a b s c n p).
Proof. unfold show_actions. repeat keeps_step. Qed.

Lemma keeps_recursive_scan_action (d : path) (st : scan_state) :
  keeps (recursive_scan_action d st).
Proof. unfold recursive_scan_action. repeat keeps_step. Qed.

Lemma keeps_wipe_action (fuel : nat) (d : path) : keeps (wipe_action fuel d).
Proof.
  unfold wipe_action.
  apply keeps_bind; [apply keeps_print; reflexivity | intros _].
  apply keeps_bind; [apply keeps_wipe_all_cleanable | intros freed].
  repeat keeps_step.
Qed.

Lemma keeps_clean_action (c : list entry) : keeps (clean_action c).
Proof.
  unfold clean_action.
  apply keeps_bind;
    [apply keeps_for_each; intros; apply keeps_clean_entry | intros freed].
  repeat keeps_step.
Qed.

Lemma sibling_step_nonneg (result : signal) (i n j : Z) (notice : option msg) :
  0 <= i < n -> sibling_step result i n = Goto j notice ->
  0 <= j /\ match notice with
            | Some m => is_summary m = false
            | None => True
            end.
Proof.
  intros R. unfold sibling_step. destruct result.
  - intros [= <- <-]. split; [lia|exact I].
  - discriminate.
  - destruct (i + 1 >=? n); intros [= <- <-]; split; try lia; auto.
  - destruct (i - 1 <? 0) eqn:E; intros [= <- <-]; split; auto; try lia.
Qed.

(** The whole navigation is orderly: this is where "only [q] ends the
    process from inside, with status 0" and "nothing but the end of the
    input gets out as an exception" are established. *)
Lemma keeps_navigation (fuel : nat) :
  (forall d sp ps idx st, keeps (navigate_loop fuel d sp ps idx st)) /\
  (forall subdirs i sp, 0 <= i -> keeps (sibling_loop fuel subdirs i sp)).
Proof.
  induction fuel as [|fuel [IHn IHs]]; split.
  - intros. apply keeps_out_of_fuel.
  - intros. apply keeps_out_of_fuel.
  - intros d sp ps idx st. cbn [navigate_loop].
    apply keeps_bind; [apply keeps_query | intros cleanable].
    apply keeps_bind; [apply keeps_query | intros subdirs].
    apply keeps_bind; [apply keeps_render | intros _].
    apply keeps_bind; [apply keeps_show_actions | intros _].
    apply keeps_bind; [apply keeps_input; reflexivity | intros line].
    destruct (String.eqb (strip (lower line)) "q"); [apply keeps_quit|].
    repeat match goal with
           | |- keeps (if ?b then _ else _) => destruct b
           end;
      try apply keeps_ret;
      try (apply keeps_bind;
           [first [ apply keeps_recursive_scan_action
                  | apply keeps_wipe_action
                  | apply keeps_clean_action
                  | apply keeps_print; reflexivity
                  | apply IHs; lia ]
           | intros; apply IHn ]).
  - intros subdirs i sp Hi. cbn [sibling_loop].
    destruct (i <? len subdirs) eqn:L; [|apply keeps_ret].
    apply Z.ltb_lt in L.
    destruct (py_nth_in_range subdirs i (conj Hi L)) as [subdir ->].
    apply keeps_bind; [apply IHn | intros result].
    destruct (sibling_step result i (len subdirs)) as [|j notice] eqn:E;
      [apply keeps_ret|].
    destruct (sibling_step_nonneg _ _ _ _ _ (conj Hi L) E) as [Hj Hn].
    apply keeps_bind; [|intros; now apply IHs].
    destruct notice; [now apply keeps_print | apply keeps_ret].
Qed.

End Orderly.

Section ProcessEnd.

Variables (f : nat) (sp : path) (w : world).
Hypothesis Hex : exists_ (fs w) sp = true.

(** If the process leaves by [sys.exit] once the starting path is known
    to exist, that was a quit: status 0, the farewell last, and no
    summary anywhere in what was printed. *)
Lemma main_exit_is_quit (c : Z) (w' : world) :
  main f sp w = (Exited c, w') ->
  c = 0 /\
  (exists ms, stdout w' = ms ++ [MQuitting]) /\
  exists ms, stdout w' = stdout w ++ ms /\
             forall m, In m ms -> is_summary m = false.
Proof.
  rewrite (main_started f sp w Hex). unfold bind at 1.
  destruct (navigate_directory f sp sp _ _ (started w))
    as [[sig|e|c0|] w1] eqn:N; try discriminate.
  intros [= <- <-].
  destruct (proj1 (keeps_navigation f) _ _ _ _ _ _ _ _ N) as (Q & _ & X & _).
  destruct (X c0 eq_refl) as [-> L]. split; [reflexivity|].
  split; [exact L|].
  destruct Q as (ms & E & H). exists (MBanner :: ms). split.
  - rewrite E. cbn [started stdout]. rewrite <- app_assoc. reflexivity.
  - intros m [<-|I]; [reflexivity | now apply H].
Qed.

(** If the process runs to its end, the navigation returned and the
    summary of the counters is the last thing printed. *)
Lemma main_ok_has_summary (w' : world) :
  main f sp w = (Ok tt, w') ->
  exists sig w1,
    navigate_directory f sp sp (fst (siblings_of (fs w) sp))
                       (snd (siblings_of (fs w) sp)) (started w)
    = (Ok sig, w1) /\
    w' = say [summary_of w1] w1.
Proof.
  rewrite (main_started f sp w Hex). unfold bind at 1.
  destruct (navigate_directory f sp sp _ _ (started w))
    as [[sig|e|c0|] w1] eqn:N; try discriminate.
  intros [= <-]. exists sig, w1. split; reflexivity.
Qed.

End ProcessEnd.

(** C7.  A [q] typed at any node ends the visit at once with
    [sys.exit(0)]: only the view and the farewell have been printed,
    whatever would have followed the visit (the loops of the enclosing
    nodes, the summary of [main]) is not run, and so a process that leaves
    this way has status 0 and has printed no summary.  A session that
    comes to its normal end prints the summary of the two counters last
    and has status 0; after an [s] at the starting directory the summary
    reads 0 and 0. *)
Theorem quit_skips_summary_normal_end_prints_it
        (f : nat) (d sp : path) (ps : option (list path)) (idx : option Z)
        (st : scan_state) (w : world) (line : string) (rest : list string) :
  stdin w = line :: rest ->
  choice_of line = "q" ->
  let quitted := say [MQuitting] (prompted d sp ps idx st w) in
  navigate_loop (S f) d sp ps idx st w = (Exited 0, quitted) /\
  (forall (B : Type) (k : signal -> M B),
      bind (navigate_loop (S f) d sp ps idx st) k w = (Exited 0, quitted)) /\
  (forall m, In m (view_msgs (fs w) d sp ps idx st ++ [MQuitting]) ->
             is_summary m = false) /\
  (exists_ (fs w) d = true ->
   main (S f) d w =
   (Exited 0,
    say [MQuitting]
        (prompted d d (fst (siblings_of (fs w) d)) (snd (siblings_of (fs w) d))
                  init_scan (started w)))) /\
  (forall (f0 : nat) (start : path) (w0 w' : world) (c : Z),
      exists_ (fs w0) start = true ->
      main f0 start w0 = (Exited c, w') ->
      exit_code (@Exited unit c) = Some 0 /\
      (exists ms, stdout w' = ms ++ [MQuitting]) /\
      exists ms, stdout w' = stdout w0 ++ ms /\
                 forall m, In m ms -> is_summary m = false) /\
  (forall (f0 : nat) (start : path) (w0 w' : world),
      exists_ (fs w0) start = true ->
      main f0 start w0 = (Ok tt, w') ->
      exit_code (Ok tt) = Some 0 /\
      exists w1, stats w' = stats w1 /\
                 stdout w' = stdout w1 ++ [summary_of w1]) /\
  (forall (f0 : nat) (start : path) (w0 : world) (line0 : string)
          (rest0 : list string),
      exists_ (fs w0) start = true ->
      stdin w0 = line0 :: rest0 ->
      choice_of line0 = "s" ->
      main (S f0) start w0 =
      (Ok tt,
       say [MSummary 0 0]
           (prompted start start (fst (siblings_of (fs w0) start))
                     (snd (siblings_of (fs w0) start)) init_scan
                     (started w0)))).
Proof.
  intros Hin C quitted.
  pose proof (navigate_q f d sp ps idx st w line rest Hin C) as Q.
  fold quitted in Q.
  split; [exact Q|].
  split; [intros B k; now apply bind_exited|].
  split.
  { intros m I. apply in_app_iff in I. destruct I as [I|[<-|[]]].
    - now apply view_has_no_summary in I.
    - reflexivity. }
  split.
  { intros E. apply (main_exited (S f) d w _ 0 E).
    unfold navigate_directory.
    now apply (navigate_q f d d _ _ init_scan (started w) line rest). }
  split.
  { intros f0 start w0 w' c E X.
    destruct (main_exit_is_quit f0 start w0 E c w' X) as (-> & L & N).
    split; [reflexivity|]. split; assumption. }
  split.
  { intros f0 start w0 w' E X. split; [reflexivity|].
    destruct (main_ok_has_summary f0 start w0 E w' X) as (sig & w1 & _ & ->).
    exists w1. split; reflexivity. }
  intros f0 start w0 line0 rest0 E I0 C0.
  rewrite (main_completed (S f0) start w0
             (prompted start start (fst (siblings_of (fs w0) start))
                       (snd (siblings_of (fs w0) start)) init_scan
                       (started w0))
             SigNone E); [reflexivity|].
  unfold navigate_directory.
  now apply (navigate_s f0 start start _ _ init_scan (started w0) line0 rest0).
Qed.

Lemma quit_skips_summary_normal_end_prints_it_witness :
  let w := world_of reference_tree ["c"; "1"; " Q "] in
  let w1 := world_of reference_tree [" Q "] in
  navigate_loop 1 ["proj"; "src"] ["proj"] (Some [["proj"; "src"]]) (Some 0)
                init_scan w1 =
  (Exited 0,
   say [MQuitting]
       (prompted ["proj"; "src"] ["proj"] (Some [["proj"; "src"]]) (Some 0)
                 init_scan w1)) /\
  fst (main 5 ["proj"] w) = Exited 0 /\
  stats (snd (main 5 ["proj"] w)) = mkStats 300 2 /\
  existsb is_summary (stdout (snd (main 5 ["proj"] w))) = false /\
  fst (main 5 ["proj"] (world_of reference_tree ["s"])) = Ok tt /\
  last (stdout (snd (main 5 ["proj"] (world_of reference_tree ["s"])))) MBanner
  = MSummary 0 0.
Proof.
  intros w w1.
  assert (stdin w1 = " Q " :: []) as Hin by reflexivity.
  assert (choice_of " Q " = "q") as C by reflexivity.
  pose proof (quit_skips_summary_normal_end_prints_it
                0 ["proj"; "src"] ["proj"] (Some [["proj"; "src"]]) (Some 0)
                init_scan w1 " Q " [] Hin C) as H.
  cbv zeta in H. destruct H as (Q & _).
  split; [exact Q|].
  repeat split; vm_compute; reflexivity.
Defined.


(** ** The recursion budget is enough *)

Section Finishing.

Lemma finishes_total {A} (f : nat) (m : M A) :
  (forall w, fst (m w) <> OutOfFuel) -> finishes f m.
Proof. intros H w _. apply H. Qed.

Lemma sound_ret {A} (f : nat) (a : A) : sound f (ret a).
Proof. split; [apply keeps_ret | apply finishes_total; discriminate]. Qed.

Lemma sound_print (f : nat) (m : msg) :
  is_summary m = false -> sound f (print m).
Proof.
  intros H. split; [now apply keeps_print | apply finishes_total; discriminate].
Qed.

Lemma sound_quit {A} (f : nat) : sound f (print MQuitting ;; @sys_exit A 0).
Proof. split; [apply keeps_quit | apply finishes_total; discriminate]. Qed.

Lemma sound_bind {A B} (f : nat) (m : M A) (k : A -> M B) :
  sound f m -> (forall a, sound f (k a)) -> sound f (bind m k).
Proof.
  intros [Km Fm] Hk. split.
  - apply keeps_bind; [exact Km | intros a; apply Hk].
  - intros w Hw. specialize (Fm w Hw). unfold bind.
    destruct (m w) as [[a|e|c|] w1] eqn:E; cbn [fst] in *;
      try discriminate; [|congruence].
    destruct (Km _ _ _ E) as (_ & S1 & _).
    apply budget_shrinks in S1. apply (proj2 (Hk a)). lia.
Qed.

Lemma sound_total {A} (f : nat) (m : M A) :
  keeps m -> (forall w, exists a w', m w = (Ok a, w')) -> sound f m.
Proof.
  intros K T. split; [exact K|]. apply finishes_total. intros w.
  destruct (T w) as (a & w' & ->). discriminate.
Qed.

Lemma sound_input (f : nat) (prompt : msg) :
  is_summary prompt = false -> sound f (input prompt).
Proof.
  intros H. split; [now apply keeps_input|]. apply finishes_total.
  intros w. unfold input. destruct (stdin w); discriminate.
Qed.

Lemma clean_action_total (c : list entry) (w : world) :
  exists a w', clean_action c w = (Ok a, w').
Proof.
  unfold clean_action.
  destruct (for_each_total clean_entry c clean_entry_total 0 w)
    as (freed & w1 & E).
  rewrite (bind_ok _ _ _ _ _ E). eexists _, _. reflexivity.
Qed.

Lemma sound_recursive_scan_action (f : nat) (d : path) (st : scan_state) :
  sound f (recursive_scan_action d st).
Proof.
  unfold recursive_scan_action.
  apply sound_bind; [now apply sound_print | intros _].
  apply sound_bind.
  { apply sound_total; [apply keeps_query|]. intros w. eexists _, _.
    reflexivity. }
  intros [count size].
  apply sound_bind.
  - destruct (count >? 0).
    + apply sound_bind; [now apply sound_print | intros _].
      apply sound_bind; [now apply sound_print | intros _].
      apply sound_ret.
    + apply sound_bind; [now apply sound_print | intros _]. apply sound_ret.
  - intros st'. apply sound_bind; [now apply sound_input | intros _].
    apply sound_ret.
Qed.

(** The wipe ends as soon as the budget exceeds the height of the
    directory it starts from. *)
Lemma wipe_all_cleanable_ends (fuel : nat) :
  forall d w,
    (height_at (fs w) d < fuel)%nat ->
    fst (wipe_all_cleanable fuel d w) <> OutOfFuel.
Proof.
  induction fuel as [|fuel IH]; intros d w H; [lia|].
  cbn [wipe_all_cleanable]. rewrite bind_query.
  destruct (for_each_total (wipe_entry d)
              (find_cleanable_in_dir (fs w) d) (wipe_entry_total d) 0 w)
    as (freed & w1 & E).
  rewrite (bind_ok _ _ _ _ _ E), bind_query.
  assert (keeps (for_each (find_cleanable_in_dir (fs w) d) 0 (wipe_entry d)))
    as K by (apply keeps_for_each; intros; apply keeps_wipe_entry).
  destruct (K _ _ _ E) as (_ & [E1 _] & _).
  assert (forall s, In s (get_subdirs (fs w1) d) ->
                    (height_at (fs w1) s < fuel)%nat) as Hs.
  { intros s Is. destruct (In_get_subdirs_child _ _ _ Is) as ([y ->] & N).
    pose proof (height_at_child (fs w1) d y (navigable_is_dir _ _ N)).
    specialize (E1 d). lia. }
  revert Hs. generalize (get_subdirs (fs w1) d). clear E K E1 H.
  intros l. revert freed w1.
  induction l as [|s l IHl]; intros freed w1 Hs; [discriminate|].
  cbn [for_each]. rewrite bind_bind.
  pose proof (IH s w1 (Hs s (or_introl eq_refl))) as Ns.
  destruct (wipe_all_cleanable fuel s w1) as [[below| | |] w2] eqn:E;
    cbn [fst] in Ns; try congruence;
    try (unfold bind; rewrite E; discriminate).
  rewrite (bind_ok _ _ _ _ _ E), bind_ret.
  apply IHl. intros s' Is'.
  destruct (keeps_wipe_all_cleanable fuel s _ _ _ E) as (_ & [E2 _] & _).
  specialize (E2 s'). specialize (Hs s' (or_intror Is')). lia.
Qed.

Lemma sound_wipe_action (f : nat) (d : path) : sound f (wipe_action f d).
Proof.
  split; [apply keeps_wipe_action|].
  intros w Hw. unfold wipe_action. rewrite bind_print.
  pose proof (wipe_all_cleanable_ends f d (say [MWiping (name d)] w)) as N.
  destruct (wipe_all_cleanable f d (say [MWiping (name d)] w))
    as [[freed| | |] w1] eqn:E; cbn [fst] in N;
    try (unfold bind; rewrite E; discriminate).
  exfalso. apply N; [|reflexivity].
    pose proof (height_at_le d (fs w)). unfold budget in Hw.
    change (fs (say [MWiping (name d)] w)) with (fs w). lia.
Qed.

End Finishing.

Section NavigationEnds.

Lemma budget_prompted (d sp : path) (ps : option (list path))
      (idx : option Z) (st : scan_state) (w : world) (line : string)
      (rest : list string) :
  stdin w = line :: rest ->
  (budget (prompted d sp ps idx st w) + 2 = budget w)%nat /\
  (List.length (stdin (prompted d sp ps idx st w)) < List.length (stdin w))%nat.
Proof.
  intros H. unfold budget. cbn [prompted say consume stdin fs].
  rewrite H. cbn [tl List.length]. lia.
Qed.

(** Each turn of either loop takes a line of input or ends the loop, so a
    budget above twice the lines left plus the height of the tree is
    never used up.  A visit that returns has read at least one line. *)
Lemma navigation_ends (f : nat) :
  (forall d sp ps idx st w,
      (budget w < f)%nat ->
      fst (navigate_loop f d sp ps idx st w) <> OutOfFuel /\
      forall a w', navigate_loop f d sp ps idx st w = (Ok a, w') ->
                   (List.length (stdin w') < List.length (stdin w))%nat) /\
  (forall subdirs i sp, 0 <= i -> finishes f (sibling_loop f subdirs i sp)).
Proof.
  induction f as [|f [IHn IHs]]; split.
  - intros. lia.
  - intros subdirs i sp _ w H. lia.
  - intros d sp ps idx st w Hw.
    assert (forall st', sound f (navigate_loop f d sp ps idx st')) as Sn.
    { intros st'. split; [apply keeps_navigation|].
      intros w0 H0. apply IHn. lia. }
    cbn [navigate_loop].
    rewrite !bind_query,
      (bind_ok _ _ _ _ _ (render_run _ _ _ _ _)),
      (bind_ok _ _ _ _ _ (show_actions_run _ _ _ _ _ _ _)).
    destruct (stdin w) as [|line rest] eqn:Hin.
    + rewrite (bind_raised _ _ _ _ _
                 (input_eof MPromptChoice (say _ (say _ w)) Hin)).
      split; [discriminate | intros a w' [=]].
    + rewrite (bind_ok _ _ _ _ _
                 (input_cons MPromptChoice (say _ (say _ w)) _ _ Hin)).
      rewrite !consume_say, !say_say.
      change (say _ (consume w)) with (prompted d sp ps idx st w).
      destruct (budget_prompted d sp ps idx st w line rest Hin) as [B L].
      match goal with
      | |- fst (?D _) <> _ /\ _ => assert (sound f D) as [KD FD]
      end.
      { destruct (String.eqb (strip (lower line)) "q"); [apply sound_quit|].
        repeat match goal with
               | |- sound _ (if ?b then _ else _) => destruct b
               end;
          try apply sound_ret;
          try (apply sound_bind;
               [first [ apply sound_recursive_scan_action
                      | apply sound_wipe_action
                      | apply sound_total;
                        [apply keeps_clean_action | apply clean_action_total]
                      | apply sound_print; reflexivity
                      | split; [apply keeps_navigation; lia | apply IHs; lia] ]
               | intros; apply Sn ]). }
      split.
      * apply FD. lia.
      * intros a w' E. destruct (KD _ _ _ E) as (_ & [_ S1] & _).
        rewrite Hin in L. lia.
  - intros subdirs i sp Hi w Hw. cbn [sibling_loop].
    destruct (i <? len subdirs) eqn:L; [|discriminate].
    apply Z.ltb_lt in L.
    destruct (py_nth_in_range subdirs i (conj Hi L)) as [subdir ->].
    destruct (IHn subdir sp (Some subdirs) (Some i) init_scan w) as [N C];
      [lia|].
    unfold bind.
    destruct (navigate_loop f subdir sp (Some subdirs) (Some i) init_scan w)
      as [[result| | |] w1] eqn:E; cbn [fst] in N; try discriminate;
      [|congruence].
    specialize (C result w1 eq_refl).
    destruct (proj1 (keeps_navigation f) _ _ _ _ _ _ _ _ E) as (_ & S1 & _).
    pose proof (budget_shrinks _ _ S1) as B1.
    assert (budget w1 + 2 <= budget w)%nat as B2.
    { destruct S1 as [E1 _]. specialize (E1 []). unfold height_at in E1.
      cbn [lookup] in E1. unfold budget. lia. }
    destruct (sibling_step result i (len subdirs)) as [|j notice] eqn:St;
      [discriminate|].
    destruct (sibling_step_nonneg _ _ _ _ _ (conj Hi L) St) as [Hj Hn].
    destruct notice as [m|].
    + change ((print m ;; sibling_loop f subdirs j sp) w1)
        with (sibling_loop f subdirs j sp (say [m] w1)).
      apply IHs; [exact Hj|]. unfold budget in *. cbn [fs stdin]. lia.
    + change ((ret tt ;; sibling_loop f subdirs j sp) w1)
        with (sibling_loop f subdirs j sp w1).
      apply IHs; [exact Hj | lia].
Qed.

(** With a budget above what the input and the tree can ask for, [main]
    runs to an end of the program's own: it returns, exits or lets an
    exception out, and the process has an exit status. *)
Theorem main_ends (f : nat) (sp : path) (w : world) :
  (budget w < f)%nat ->
  fst (main f sp w) <> OutOfFuel /\
  exit_code (fst (main f sp w)) <> None.
Proof.
  intros Hw.
  assert (fst (main f sp w) <> OutOfFuel) as N.
  { destruct (exists_ (fs w) sp) eqn:E.
    - rewrite (main_started f sp w E). unfold bind.
      destruct (proj1 (navigation_ends f) sp sp
                  (fst (siblings_of (fs w) sp)) (snd (siblings_of (fs w) sp))
                  init_scan (started w)) as [N _];
        [exact Hw|].
      unfold navigate_directory.
      destruct (navigate_loop f sp sp _ _ init_scan (started w))
        as [[sig| | |] w1]; cbn [fst] in N; try discriminate. congruence.
    - rewrite (main_missing f sp w E). discriminate. }
  split; [exact N|].
  destruct (fst (main f sp w)); cbn; congruence.
Qed.

End NavigationEnds.

(** C9.  Stepping between siblings clamps and never wraps.  At index 0
    [p] is not on the menu and is turned down as an invalid choice, and
    the parent's handling of a 'prev' there stays at 0 with the notice
    "Already at first folder"; at the last index the same holds for [n]
    and "No more folders at this level".  From any index in range a
    'next' or 'prev' leads to the neighbouring index or stays, so the
    index remains within [0, number of siblings - 1], where a sibling is
    always found; and a walk over the siblings, begun at index 0, never
    fails to find the sibling it indexes, whatever is typed. *)
Theorem sibling_stepping_clamps
        (siblings : list path) (i : Z)
        (f : nat) (d sp : path) (st : scan_state) (w : world)
        (line : string) (rest : list string) :
  0 <= i < len siblings ->
  stdin w = line :: rest ->
  let n := len siblings in
  (* unavailable at the ends *)
  has_prev (Some siblings) (Some 0) = false /\
  has_next (Some siblings) (Some (n - 1)) = false /\
  (choice_of line = "p" ->
   navigate_loop (S f) d sp (Some siblings) (Some 0) st w =
   navigate_loop f d sp (Some siblings) (Some 0) st
     (say [MInvalidChoice] (prompted d sp (Some siblings) (Some 0) st w))) /\
  (choice_of line = "n" ->
   navigate_loop (S f) d sp (Some siblings) (Some (n - 1)) st w =
   navigate_loop f d sp (Some siblings) (Some (n - 1)) st
     (say [MInvalidChoice]
          (prompted d sp (Some siblings) (Some (n - 1)) st w))) /\
  (* the parent's clamp *)
  sibling_step SigPrev 0 n = Goto 0 (Some MAlreadyFirst) /\
  sibling_step SigNext (n - 1) n = Goto (n - 1) (Some MNoMoreFolders) /\
  (* no wrap-around, and the index stays in range *)
  (exists j notice,
      sibling_step SigNext i n = Goto j notice /\ 0 <= j < n /\
      (j = i + 1 \/ j = i /\ i = n - 1 /\ notice = Some MNoMoreFolders)) /\
  (exists j notice,
      sibling_step SigPrev i n = Goto j notice /\ 0 <= j < n /\
      (j = i - 1 \/ j = i /\ i = 0 /\ notice = Some MAlreadyFirst)) /\
  (exists sibling, py_nth siblings i = Some sibling /\
                   nth_error siblings (Z.to_nat i) = Some sibling) /\
  (forall (f0 : nat) (start : path) (w0 w' : world) (r : res unit),
      sibling_loop f0 siblings 0 start w0 = (r, w') ->
      r <> Raised IndexError).
Proof.
  intros Hi Hin n.
  assert (siblings <> []) as Hne.
  { intros ->. unfold len in Hi. simpl in Hi. lia. }
  assert (0 <= 0 < n) as H0 by (unfold n; lia).
  assert (0 <= n - 1 < n) as Hl by (unfold n; lia).
  split; [|split; [|split; [|split; [|split; [|split; [|split; [|split; [|split]]]]]]]].
  10: { intros f0 start w0 w' r E X. subst r.
        destruct (proj2 (keeps_navigation f0) siblings 0 start
                        (Z.le_refl 0) _ _ _ E) as (_ & _ & _ & R).
        discriminate (R IndexError eq_refl). }
  - rewrite has_prev_spec by exact Hne. reflexivity.
  - rewrite has_next_spec by exact Hne. apply Z.ltb_irrefl.
  - intros C. apply (navigate_p_unavailable _ _ _ _ _ _ _ _ _ Hin C).
    rewrite has_prev_spec by exact Hne. reflexivity.
  - intros C. apply (navigate_n_unavailable _ _ _ _ _ _ _ _ _ Hin C).
    rewrite has_next_spec by exact Hne. apply Z.ltb_irrefl.
  - destruct (sibling_step_prev 0 n H0) as [[? _]|[_ E]]; [lia|exact E].
  - destruct (sibling_step_next (n - 1) n Hl) as [[? _]|[_ E]]; [lia|exact E].
  - destruct (sibling_step_next i n Hi) as [[L E]|[L E]].
    + exists (i + 1), None. repeat split; auto; lia.
    + exists i, (Some MNoMoreFolders). repeat split; auto; lia.
  - destruct (sibling_step_prev i n Hi) as [[L E]|[L E]].
    + exists (i - 1), None. repeat split; auto; lia.
    + exists i, (Some MAlreadyFirst). repeat split; auto; lia.
  - destruct (py_nth_in_range siblings i Hi) as [a Ha].
    exists a. split; [exact Ha|].
    unfold py_nth in Ha.
    destruct (i <? 0) eqn:E; [apply Z.ltb_lt in E; lia | exact Ha].
Qed.

Lemma sibling_stepping_clamps_witness :
  let siblings := get_subdirs three_siblings ["work"] in
  len siblings = 3 /\
  has_prev (Some siblings) (Some 0) = false /\
  has_next (Some siblings) (Some 2) = false /\
  sibling_step SigPrev 0 3 = Goto 0 (Some MAlreadyFirst) /\
  sibling_step SigNext 2 3 = Goto 2 (Some MNoMoreFolders).
Proof.
  intros siblings.
  assert (0 <= 1 < len siblings) as Hi by (vm_compute; split; congruence).
  assert (stdin (world_of three_siblings ["p"]) = "p" :: []) as Hin
      by reflexivity.
  pose proof (sibling_stepping_clamps
                siblings 1 0 ["work"; "alpha"] ["work"] init_scan
                (world_of three_siblings ["p"]) "p" [] Hi Hin) as H.
  cbv zeta in H.
  destruct H as (P & N & _ & _ & CP & CN & _).
  split; [reflexivity|].
  split; [exact P|].
  split; [exact N|].
  split; [exact CP | exact CN].
Defined.

(** * The rest of the program *)

(** ** How a session starts and ends *)

(** X1.  A starting path that does not exist: [main] prints the banner and
    the error, and ends the process with status 1; no line is read,
    nothing is deleted, [stats] is not even created. *)
Theorem missing_start_exits_1 (f : nat) (sp : path) (w : world) :
  exists_ (fs w) sp = false ->
  main f sp w = (Exited 1, say [MBanner; MPathMissing sp] w) /\
  exit_code (fst (main f sp w)) = Some 1 /\
  stdin (snd (main f sp w)) = stdin w /\
  fs (snd (main f sp w)) = fs w /\
  stats (snd (main f sp w)) = stats w.
Proof.
  intros H. rewrite (main_missing f sp w H). repeat split.
Qed.

Lemma missing_start_exits_1_witness :
  main 0 ["nowhere"] (world_of reference_tree ["w"]) =
  (Exited 1,
   say [MBanner; MPathMissing ["nowhere"]] (world_of reference_tree ["w"])).
Proof.
  apply (missing_start_exits_1 0 ["nowhere"] (world_of reference_tree ["w"])).
  reflexivity.
Defined.

(** X2.  When the input ends at the prompt for a choice, [input] raises
    [EOFError] and nobody catches it: the visit, the walks around it and
    [main] are left at once, the process ends with status 1 and no
    summary, and nothing has been deleted in that turn. *)
Theorem end_of_input_aborts_session
        (f : nat) (d sp : path) (ps : option (list path)) (idx : option Z)
        (st : scan_state) (w : world) :
  stdin w = [] ->
  let aborted :=
    say (view_msgs (fs w) d sp ps idx st) w in
  navigate_loop (S f) d sp ps idx st w = (Raised EOFError, aborted) /\
  (forall (B : Type) (k : signal -> M B),
      bind (navigate_loop (S f) d sp ps idx st) k w =
      (Raised EOFError, aborted)) /\
  fs aborted = fs w /\ stats aborted = stats w /\
  (exists_ (fs w) d = true ->
   fst (main (S f) d w) = Raised EOFError /\
   exit_code (fst (main (S f) d w)) = Some 1 /\
   existsb is_summary (stdout (snd (main (S f) d w))) =
   existsb is_summary (stdout w)).
Proof.
  intros Hin aborted.
  assert (forall d0 sp0 ps0 idx0 st0 w0,
             stdin w0 = [] ->
             navigate_loop (S f) d0 sp0 ps0 idx0 st0 w0 =
             (Raised EOFError, say (view_msgs (fs w0) d0 sp0 ps0 idx0 st0) w0))
    as N.
  { intros d0 sp0 ps0 idx0 st0 w0 H0. cbn [navigate_loop].
    rewrite !bind_query,
      (bind_ok _ _ _ _ _ (render_run _ _ _ _ _)),
      (bind_ok _ _ _ _ _ (show_actions_run _ _ _ _ _ _ _)).
    rewrite (bind_raised _ _ _ _ _
               (input_eof MPromptChoice (say _ (say _ w0)) H0)).
    rewrite !consume_say, !say_say. f_equal. unfold consume.
    rewrite H0. cbn [tl]. unfold view_msgs. destruct w0. cbn in *.
    now subst. }
  split; [now apply N|].
  split; [intros B k; apply bind_raised; now apply N|].
  split; [reflexivity|]. split; [reflexivity|].
  intros E. rewrite (main_started (S f) d w E). unfold navigate_directory.
  rewrite (bind_raised _ _ _ _ _ (N d d _ _ init_scan (started w) Hin)).
  cbn [fst snd exit_code]. split; [reflexivity|]. split; [reflexivity|].
  cbn [say stdout started]. rewrite !existsb_app.
  assert (existsb is_summary
            (view_msgs (fs (started w)) d d
                       (fst (siblings_of (fs w) d))
                       (snd (siblings_of (fs w) d)) init_scan) = false) as V.
  { destruct (existsb is_summary _) eqn:X; [|reflexivity].
    apply existsb_exists in X. destruct X as (m & I & S0).
    apply view_has_no_summary in I. congruence. }
  rewrite V. cbn. now rewrite !orb_false_r.
Qed.

Lemma end_of_input_aborts_session_witness :
  fst (main 3 ["proj"] (world_of reference_tree [])) = Raised EOFError /\
  exit_code (fst (main 3 ["proj"] (world_of reference_tree []))) = Some 1.
Proof.
  destruct (end_of_input_aborts_session
              2 ["proj"] ["proj"] None None init_scan
              (world_of reference_tree []) eq_refl) as (_ & _ & _ & _ & M).
  destruct (M eq_refl) as (R & X & _). split; [exact R | exact X].
Defined.

(** X3.  Every session comes to an end of its own.  With a recursion budget
    above twice the number of lines of input plus the height of the
    tree, [main] returns, exits or lets an exception out: the model
    never stops for want of budget, and the process has an exit
    status. *)
Theorem every_session_ends (f : nat) (sp : path) (w : world) :
  (2 * List.length (stdin w) + height (fs w) < f)%nat ->
  fst (main f sp w) <> OutOfFuel /\
  exit_code (fst (main f sp w)) <> None.
Proof. intros H. now apply main_ends. Qed.

Lemma every_session_ends_witness :
  fst (main 40 ["proj"] (world_of reference_tree ["c"; "1"; "u"]))
  <> OutOfFuel /\
  exit_code (fst (main 40 ["proj"] (world_of reference_tree ["c"; "1"; "u"])))
  <> None.
Proof.
  apply (every_session_ends 40 ["proj"]
           (world_of reference_tree ["c"; "1"; "u"])).
  vm_compute. lia.
Defined.


(** ** Directories that cannot be listed *)

(** X5.  A directory that [iterdir] cannot list (it is missing, it is a file,
    or it may not be read) raises a subclass of [OSError], which every
    caller swallows: it has no cleanable entries and no subdirectories,
    the recursive scan finds nothing in it at any depth, the wipe leaves
    it alone and frees nothing, and the view shows it as empty. *)
Theorem unlistable_directory_reads_as_empty (fs0 : node) (d : path) (e : exc) :
  iterdir fs0 d = inr e ->
  is_OSError e = true /\
  find_cleanable_in_dir fs0 d = [] /\
  get_subdirs fs0 d = [] /\
  (forall max_depth, scan_recursive fs0 d max_depth = (0, 0)) /\
  (forall fuel w, fs w = fs0 ->
                  wipe_all_cleanable (S fuel) d w = (Ok 0, w)) /\
  (forall sp ps idx st,
      In MNoCleanable (view_msgs fs0 d sp ps idx st) /\
      In MNoSubdirectories (view_msgs fs0 d sp ps idx st) /\
      ~ In MOptClean (view_msgs fs0 d sp ps idx st) /\
      ~ In MOptRecursive (view_msgs fs0 d sp ps idx st)).
Proof.
  intros E.
  assert (find_cleanable_in_dir fs0 d = []) as C
      by (unfold find_cleanable_in_dir; now rewrite E).
  assert (get_subdirs fs0 d = []) as G
      by (unfold get_subdirs; now rewrite E).
  split; [exact (iterdir_raises_OSError _ _ _ E)|].
  split; [exact C|]. split; [exact G|].
  split.
  { intros max_depth. unfold scan_recursive.
    destruct (Z.to_nat (max_depth + 1)); cbn [scan_dir];
      [reflexivity | now rewrite E]. }
  split.
  { intros fuel w <-. cbn [wipe_all_cleanable].
    rewrite bind_query, C. cbn [for_each]. rewrite bind_ret, bind_query, G.
    reflexivity. }
  intros sp ps idx st. unfold view_msgs, render_msgs, action_msgs.
  rewrite C, G. cbn [nonempty orb].
  repeat split.
  - cbn. auto.
  - destruct (scan_found st); cbn; auto.
  - intros I.
    destruct (scan_found st), (negb (path_eqb d sp)), (has_next ps idx),
      (has_prev ps idx); cbn in I;
      repeat (destruct I as [I|I]; [discriminate|]); exact I.
  - intros I.
    destruct (scan_found st), (negb (path_eqb d sp)), (has_next ps idx),
      (has_prev ps idx); cbn in I;
      repeat (destruct I as [I|I]; [discriminate|]); exact I.
Qed.

Lemma unlistable_directory_reads_as_empty_witness :
  exists_ locked_tree ["vault"; "env"; "pyvenv.cfg"] = true /\
  find_cleanable_in_dir locked_tree ["vault"] = [] /\
  scan_recursive locked_tree ["vault"] 10 = (0, 0).
Proof.
  destruct (unlistable_directory_reads_as_empty
              locked_tree ["vault"] (PermissionError "Permission denied")
              eq_refl) as (_ & C & _ & S0 & _).
  split; [reflexivity|]. split; [exact C | exact (S0 10)].
Defined.

(** ** Deleting *)


(** ** The wipe in general *)

(** X7.  Whatever the tree holds: when the plain directories at and below
    [d] are nested less than [k] deep, list no name twice and none of
    the removals is refused, [wipe_all_cleanable] returns the bytes of
    all the cleanable directories at and below [d], every one of them
    is gone, [deleted_count] has grown by their number, and
    [total_freed], the input and whatever parts ways with [d] are as
    they were. *)
Theorem wipe_clears_everything_below
        (k fuel : nat) (d : path) (w : world) :
  (k <= fuel)%nat ->
  wipeable k w d = true ->
  let found := cleanable_below k (fs w) d in
  exists w',
    wipe_all_cleanable fuel d w = (Ok (cleanable_size found), w') /\
    (forall e t, In e found -> lookup (fs w') (entry_path e ++ t) = None) /\
    deleted_count (stats w') = deleted_count (stats w) + len found /\
    total_freed (stats w') = total_freed (stats w) /\
    stdin w' = stdin w /\
    untouched_outside d (fs w) (fs w').
Proof.
  intros Hf W found.
  destruct (wipe_all_cleanable_run k fuel d w Hf W)
    as (w' & E & _ & I & S0 & O & G).
  exists w'. split; [exact E|]. split; [exact G|].
  rewrite S0. cbn [deleted_count total_freed].
  repeat split; assumption.
Qed.

Lemma wipe_clears_everything_below_witness :
  exists w',
    wipe_all_cleanable 15 ["proj"] (world_of deep_reference []) =
    (Ok 350, w') /\
    lookup (fs w') deep_env = None /\
    deleted_count (stats w') = 3.
Proof.
  destruct (wipe_clears_everything_below
              15 15 ["proj"] (world_of deep_reference []))
    as (w' & E & G & D & _); [lia | vm_compute; reflexivity |].
  exists w'. split; [exact E|]. split.
  - pose proof (G (deep_env, VirtualEnv, 50) []) as L.
    rewrite app_nil_r in L. apply L. vm_compute. auto.
  - exact D.
Defined.

(** X8.  When the tree below [d] is within the reach of the recursive scan
    (less than 11 levels of plain directories), lists no name twice and
    refuses no removal, the [w] action deletes as many directories and
    frees as many bytes as [scan_recursive] reports there. *)
Theorem wipe_frees_what_the_scan_reports (fuel : nat) (d : path) (w : world) :
  (11 <= fuel)%nat ->
  wipeable 11 w d = true ->
  exists w',
    wipe_action fuel d w = (Ok tt, w') /\
    deleted_count (stats w') =
    deleted_count (stats w) + fst (scan_recursive (fs w) d 10) /\
    total_freed (stats w') =
    total_freed (stats w) + snd (scan_recursive (fs w) d 10) /\
    exists ms,
      stdout w' =
      stdout w ++ [MWiping (name d)] ++ ms ++
      [MFreedTree (snd (scan_recursive (fs w) d 10))].
Proof.
  intros Hf W.
  destruct (wipe_all_cleanable_run 11 fuel d (say [MWiping (name d)] w) Hf)
    as (w1 & E & R & I & S0 & O & G).
  { rewrite <- W. now apply wipeable_ext. }
  change (fs (say [MWiping (name d)] w)) with (fs w) in *.
  assert (scan_recursive (fs w) d 10 =
          (len (cleanable_below 11 (fs w) d),
           cleanable_size (cleanable_below 11 (fs w) d))) as Sc.
  { unfold scan_recursive. change (Z.to_nat (10 + 1)) with 11%nat.
    now rewrite scan_dir_counts. }
  rewrite Sc. cbn [fst snd].
  set (freed := cleanable_size (cleanable_below 11 (fs w) d)) in *.
  destruct (proj1 (keeps_wipe_all_cleanable fuel d _ _ _ E)) as (ms & Em & _).
  exists (say [MFreedTree freed] (credited freed w1)).
  unfold wipe_action. rewrite bind_print, (bind_ok _ _ _ _ _ E).
  split; [reflexivity|].
  cbn [say credited stats stdout deleted_count total_freed].
  rewrite S0. cbn [deleted_count total_freed].
  split; [reflexivity|]. split; [reflexivity|].
  exists ms. rewrite Em. cbn [say stdout].
  now rewrite <- !app_assoc.
Qed.

Lemma wipe_frees_what_the_scan_reports_witness :
  scan_recursive reference_tree ["proj"] 10 = (3, 350) /\
  exists w',
    wipe_action 11 ["proj"] (world_of reference_tree []) = (Ok tt, w') /\
    deleted_count (stats w') = 0 + 3 /\
    total_freed (stats w') = 0 + 350.
Proof.
  split; [vm_compute; reflexivity|].
  destruct (wipe_frees_what_the_scan_reports
              11 ["proj"] (world_of reference_tree []))
    as (w' & E & D & T & _); [lia | vm_compute; reflexivity |].
  exists w'. split; [exact E|]. split; [exact D | exact T].
Defined.

(** ** One turn of the menu *)

Section MenuTurn.

Variables (f : nat) (d sp : path) (ps : option (list path))
          (idx : option Z) (st : scan_state).
Variables (w : world) (line : string) (rest : list string).
Hypothesis Hin : stdin w = line :: rest.

(** Lines 172-325 once the view is out and the answer is in. *)
Lemma navigate_turn :
  navigate_loop (S f) d sp ps idx st w =
  (let continue := navigate_loop f d sp ps idx in
   let cleanable := find_cleanable_in_dir (fs w) d in
   let subdirs := get_subdirs (fs w) d in
   let choice := choice_of line in
   if String.eqb choice "q" then print MQuitting ;; sys_exit 0
   else if String.eqb choice "s" then ret SigNone
   else if String.eqb choice "u" && negb (path_eqb d sp) then ret SigUp
   else if String.eqb choice "n" && has_next ps idx then ret SigNext
   else if String.eqb choice "p" && has_prev ps idx then ret SigPrev
   else if String.eqb choice "r" && nonempty subdirs then
     st' <- recursive_scan_action d st ;; continue st'
   else if String.eqb choice "w" && (nonempty cleanable || scan_found st) then
     wipe_action f d ;; continue init_scan
   else if String.eqb choice "c" && nonempty cleanable then
     clean_action cleanable ;; continue st
   else if isdigit choice && nonempty subdirs then
     if (0 <=? int choice - 1) && (int choice - 1 <? len subdirs) then
       sibling_loop f subdirs 0 sp ;; continue st
     else print (MInvalidNumber (len subdirs)) ;; continue st
   else print MInvalidChoice ;; continue st)
    (prompted d sp ps idx st w).
Proof.
  cbn [navigate_loop].
  rewrite !bind_query.
  rewrite (bind_ok _ _ _ _ _ (render_run _ _ _ _ _)).
  rewrite (bind_ok _ _ _ _ _ (show_actions_run _ _ _ _ _ _ _)).
  rewrite (bind_ok _ _ _ _ _
             (input_cons MPromptChoice (say _ (say _ w)) _ _ Hin)).
  rewrite !consume_say, !say_say.
  reflexivity.
Qed.

End MenuTurn.

Section MenuFacts.

Lemma digits_are_no_letter (s l : string) :
  isdigit s = true -> In l menu_letters -> String.eqb s l = false.
Proof.
  intros D I. destruct (String.eqb s l) eqn:E; [|reflexivity].
  apply String.eqb_eq in E. subst s.
  cbn in I. repeat (destruct I as [<-|I]; [discriminate D|]). destruct I.
Qed.

Lemma In_view_inv (fs0 : node) (d sp : path) (ps : option (list path))
      (idx : option Z) (st : scan_state) (m : msg) :
  In m (view_msgs fs0 d sp ps idx st) <->
  In m (render_msgs d (find_cleanable_in_dir fs0 d) (get_subdirs fs0 d) st) \/
  In m (action_msgs
          (nonempty (find_cleanable_in_dir fs0 d) || scan_found st)
          (nonempty (find_cleanable_in_dir fs0 d)) (get_subdirs fs0 d)
          (negb (path_eqb d sp)) (has_next ps idx) (has_prev ps idx)) \/
  m = MPromptChoice.
Proof.
  unfold view_msgs. rewrite !in_app_iff. cbn [In]. intuition congruence.
Qed.

(** Which lines of the menu are shown: each one under the condition
    that its letter is taken under. *)
Lemma menu_lines (fs0 : node) (d sp : path) (ps : option (list path))
      (idx : option Z) (st : scan_state) :
  let view := view_msgs fs0 d sp ps idx st in
  (In MOptWipe view <->
   nonempty (find_cleanable_in_dir fs0 d) || scan_found st = true) /\
  (In MOptClean view <-> nonempty (find_cleanable_in_dir fs0 d) = true) /\
  (In MOptRecursive view <-> nonempty (get_subdirs fs0 d) = true) /\
  (In MOptUp view <-> path_eqb d sp = false) /\
  In MOptSkip view /\ In MOptQuit view.
Proof.
  intros view. unfold view.
  rewrite !In_view_inv. unfold render_msgs, action_msgs.
  destruct (nonempty (find_cleanable_in_dir fs0 d)),
    (scan_found st), (nonempty (get_subdirs fs0 d)),
    (path_eqb d sp), (has_next ps idx), (has_prev ps idx);
    cbn; intuition (discriminate || congruence).
Qed.

End MenuFacts.




(** X10.  The number typed only has to be in range: whichever of 1..n it is,
    the walk over the subdirectories starts at index 0, that is in the
    first subdirectory in sorted order, which is visited with a fresh
    scan state and with all the subdirectories as its siblings. *)
Theorem any_number_opens_the_first_subdirectory
        (f : nat) (d sp : path) (ps : option (list path)) (idx : option Z)
        (st : scan_state) (w : world) (line : string) (rest : list string) :
  stdin w = line :: rest ->
  isdigit (choice_of line) = true ->
  1 <= int (choice_of line) <= len (get_subdirs (fs w) d) ->
  let subdirs := get_subdirs (fs w) d in
  exists first others,
    subdirs = first :: others /\
    navigate_loop (S (S f)) d sp ps idx st w =
    bind (navigate_loop f first sp (Some subdirs) (Some 0) init_scan)
         (fun result =>
            after_visit f subdirs 0 sp result ;;
            navigate_loop (S f) d sp ps idx st)
         (prompted d sp ps idx st w).
Proof.
  intros Hin D R subdirs.
  destruct subdirs as [|first others] eqn:Es;
    [unfold subdirs in Es; rewrite Es in R; cbn in R; lia|].
  exists first, others. split; [reflexivity|].
  rewrite (navigate_turn (S f) d sp ps idx st w line rest Hin). cbv zeta.
  rewrite !(digits_are_no_letter _ _ D) by (cbn; tauto).
  cbn [andb]. rewrite D. fold subdirs. rewrite Es. cbn [nonempty andb].
  rewrite <- Es.
  replace ((0 <=? int (choice_of line) - 1) &&
           (int (choice_of line) - 1 <? len subdirs)) with true
    by (symmetry; apply andb_true_iff; split;
        [apply Z.leb_le | apply Z.ltb_lt]; unfold subdirs; lia).
  unfold bind at 1.
  assert (0 < len subdirs) as L0
      by (rewrite Es, len_cons; pose proof (len_nonneg others); lia).
  assert (py_nth subdirs 0 = Some first) as P0 by now rewrite Es.
  rewrite (sibling_loop_visit f subdirs 0 sp first _ L0 P0).
  unfold after_visit, bind.
  destruct (navigate_loop f first sp (Some subdirs) (Some 0) init_scan _)
    as [[sig|e|c|] w1]; try reflexivity.
Qed.

Lemma any_number_opens_the_first_subdirectory_witness :
  exists first others,
    get_subdirs three_siblings ["work"] = first :: others /\
    navigate_loop 3 ["work"] ["work"] None None init_scan
                  (world_of three_siblings ["3"; "q"]) =
    bind (navigate_loop 1 first ["work"]
                        (Some (get_subdirs three_siblings ["work"]))
                        (Some 0) init_scan)
         (fun result =>
            after_visit 1 (get_subdirs three_siblings ["work"]) 0 ["work"]
                        result ;;
            navigate_loop 2 ["work"] ["work"] None None init_scan)
         (prompted ["work"] ["work"] None None init_scan
                   (world_of three_siblings ["3"; "q"])).
Proof.
  apply (any_number_opens_the_first_subdirectory
           1 ["work"] ["work"] None None init_scan
           (world_of three_siblings ["3"; "q"]) "3" ["q"]).
  - reflexivity.
  - reflexivity.
  - vm_compute. split; discriminate.
Defined.



(** ** How the answer is read *)

Section Normalisation.

Lemma lower_append (a b : string) :
  lower (a ++ b) = (lower a ++ lower b)%string.
Proof. induction a as [|c a IH]; cbn; [reflexivity | now rewrite IH]. Qed.

Lemma lower_space (c : ascii) : is_space c = true -> lower_ascii c = c.
Proof.
  unfold is_space, lower_ascii.
  destruct (Nat.leb_spec 65 (nat_of_ascii c)),
    (Nat.leb_spec (nat_of_ascii c) 90); cbn [andb]; try reflexivity.
  destruct (Nat.leb_spec 9 (nat_of_ascii c)),
    (Nat.leb_spec (nat_of_ascii c) 13),
    (Nat.leb_spec 28 (nat_of_ascii c)),
    (Nat.leb_spec (nat_of_ascii c) 32); cbn; try discriminate; lia.
Qed.

Lemma lower_blank (s : string) : blank s = true -> lower s = s.
Proof.
  induction s as [|c s IH]; cbn; [reflexivity|].
  rewrite andb_true_iff. intros [C B]. now rewrite lower_space, IH.
Qed.

Lemma lower_upper_ascii (c : ascii) : lower_ascii (upper_ascii c) = lower_ascii c.
Proof. destruct c as [[] [] [] [] [] [] [] []]; reflexivity. Qed.

Lemma lower_upper (s : string) : lower (upper s) = lower s.
Proof.
  induction s as [|c s IH]; cbn; [reflexivity|].
  now rewrite lower_upper_ascii, IH.
Qed.

Lemma lstrip_blank (s : string) : blank s = true -> lstrip s = EmptyString.
Proof.
  induction s as [|c s IH]; cbn; [reflexivity|].
  rewrite andb_true_iff. intros [-> B]. now apply IH.
Qed.

Lemma rstrip_blank (s : string) : blank s = true -> rstrip s = EmptyString.
Proof.
  induction s as [|c s IH]; cbn; [reflexivity|].
  rewrite andb_true_iff. intros [-> B]. now rewrite IH.
Qed.

Lemma lstrip_blank_append (ws s : string) :
  blank ws = true -> lstrip (ws ++ s) = lstrip s.
Proof.
  induction ws as [|c ws IH]; cbn; [reflexivity|].
  rewrite andb_true_iff. intros [-> B]. now apply IH.
Qed.

Lemma rstrip_append_blank (s ws : string) :
  blank ws = true -> rstrip (s ++ ws) = rstrip s.
Proof.
  intros B. induction s as [|c s IH]; cbn.
  - now apply rstrip_blank.
  - now rewrite IH.
Qed.

Lemma strip_append_blank (s ws : string) :
  blank ws = true -> strip (s ++ ws) = strip s.
Proof.
  intros B. unfold strip. induction s as [|c s IH].
  - cbn. now rewrite lstrip_blank, rstrip_blank.
  - cbn [append lstrip]. destruct (is_space c); [exact IH|].
    change (String c (s ++ ws)) with (String c s ++ ws)%string.
    now apply rstrip_append_blank.
Qed.

End Normalisation.

(** X12.  The answer is read without regard to case and to the white space
    around it: typed in capitals and between blanks, it is the same
    choice, and the turn of the menu goes the same way. *)
Theorem answer_is_lowered_and_stripped
        (line ws ws' : string) :
  blank ws = true -> blank ws' = true ->
  choice_of (ws ++ upper line ++ ws') = choice_of line /\
  forall (f : nat) (d sp : path) (ps : option (list path)) (idx : option Z)
         (st : scan_state) (w : world) (rest : list string),
    navigate_loop (S f) d sp ps idx st
                  (with_stdin ((ws ++ upper line ++ ws')%string :: rest) w) =
    navigate_loop (S f) d sp ps idx st (with_stdin (line :: rest) w).
Proof.
  intros B B'.
  assert (choice_of (ws ++ upper line ++ ws') = choice_of line) as C.
  { unfold choice_of. rewrite !lower_append, lower_upper.
    rewrite (lower_blank ws B), (lower_blank ws' B').
    unfold strip at 1. rewrite (lstrip_blank_append _ _ B).
    fold (strip (lower line ++ ws')).
    now apply strip_append_blank. }
  split; [exact C|].
  intros f d sp ps idx st w rest.
  rewrite (navigate_turn f d sp ps idx st
             (with_stdin ((ws ++ upper line ++ ws')%string :: rest) w)
             _ rest eq_refl).
  rewrite (navigate_turn f d sp ps idx st (with_stdin (line :: rest) w)
             _ rest eq_refl).
  rewrite C. reflexivity.
Qed.

Lemma answer_is_lowered_and_stripped_witness :
  choice_of "  Q " = "q" /\
  navigate_loop 1 ["proj"] ["proj"] None None init_scan
                (with_stdin ["  Q "] (world_of reference_tree [])) =
  navigate_loop 1 ["proj"] ["proj"] None None init_scan
                (with_stdin ["q"] (world_of reference_tree [])).
Proof.
  destruct (answer_is_lowered_and_stripped "q" "  " " " eq_refl eq_refl)
    as [C N].
  split; [exact C|].
  exact (N 0%nat ["proj"] ["proj"] None None init_scan
           (world_of reference_tree []) []).
Defined.

(** ** The recursive scan from the menu *)

(** X13.  The [r] action, where there are subdirectories: the scan counts the
    cleanable directories at and below the current one (the current
    directory's own included) down to 11 levels, the line typed at
    "Press Enter" is thrown away, nothing is deleted or counted, and the
    loop goes on at the same directory.  What the scan found is
    remembered: when it found something, the next view shows the count
    and offers [w]; when it found nothing, neither. *)
Theorem recursive_scan_is_remembered
        (f : nat) (d sp : path) (ps : option (list path)) (idx : option Z)
        (st : scan_state) (w : world) (line enter : string)
        (rest : list string) :
  stdin w = line :: enter :: rest ->
  choice_of line = "r" ->
  get_subdirs (fs w) d <> [] ->
  let found := cleanable_below 11 (fs w) d in
  let st' :=
    if len found >? 0
    then mkScan (Some true) (len found) (cleanable_size found)
    else mkScan (Some false) (recursive_count st) (recursive_size st) in
  exists w',
    navigate_loop (S f) d sp ps idx st w =
    navigate_loop f d sp ps idx st' w' /\
    stdin w' = rest /\ fs w' = fs w /\ stats w' = stats w /\
    (In MOptWipe (view_msgs (fs w') d sp ps idx st') <-> found <> []) /\
    (In (MRecursiveScan (len found) (cleanable_size found))
        (view_msgs (fs w') d sp ps idx st') <-> found <> []).
Proof.
  intros Hin C S0 found st'.
  assert (nonempty (get_subdirs (fs w) d) = true) as Sn
      by (destruct (get_subdirs (fs w) d); [congruence | reflexivity]).
  assert (scan_recursive (fs w) d 10 = (len found, cleanable_size found))
    as Sc.
  { unfold scan_recursive. change (Z.to_nat (10 + 1)) with 11%nat.
    now rewrite scan_dir_counts. }
  set (p := prompted d sp ps idx st w).
  assert (stdin p = enter :: rest) as Hp by (cbn; now rewrite Hin).
  assert (exists ms,
             recursive_scan_action d st p =
             (Ok st', say [MPromptEnter] (consume (say ms p)))) as (ms & E).
  { unfold recursive_scan_action.
    rewrite bind_print, bind_query.
    change (fs (say [MScanning] p)) with (fs w). rewrite Sc.
    unfold st'. destruct (len found >? 0).
    - exists [MScanning; MFound (len found);
              MPotential (cleanable_size found)].
      rewrite !bind_bind, bind_print, !bind_bind, bind_print, bind_ret.
      rewrite !say_say.
      rewrite (bind_ok _ _ _ _ _ (input_cons MPromptEnter (say _ p) enter rest Hp)).
      reflexivity.
    - exists [MScanning; MNoneFound].
      rewrite !bind_bind, bind_print, bind_ret.
      rewrite !say_say.
      rewrite (bind_ok _ _ _ _ _ (input_cons MPromptEnter (say _ p) enter rest Hp)).
      reflexivity. }
  exists (say [MPromptEnter] (consume (say ms p))).
  split.
  { rewrite (navigate_r f d sp ps idx st w line (enter :: rest) Hin C Sn).
    fold p. now rewrite (bind_ok _ _ _ _ _ E). }
  split; [cbn; now rewrite Hin|]. split; [reflexivity|].
  split; [reflexivity|].
  change (fs (say [MPromptEnter] (consume (say ms p)))) with (fs w).
  assert (found = [] -> find_cleanable_in_dir (fs w) d = []) as F0.
  { unfold found. cbn [cleanable_below]. intros E0.
    now apply app_eq_nil in E0. }
  assert (found <> [] -> (len found >? 0) = true) as F1.
  { intros N. apply Z.gtb_lt. destruct found; [congruence|].
    rewrite len_cons. pose proof (len_nonneg found). lia. }
  destruct (menu_lines (fs w) d sp ps idx st') as (Hw & _).
  split.
  - rewrite Hw. unfold st'. destruct found as [|e0 l0] eqn:Ef.
    + rewrite (F0 eq_refl). cbn. split; [discriminate | congruence].
    + rewrite F1 by discriminate. cbn [scan_found has_recursive_items].
      rewrite orb_true_r. split; [discriminate | reflexivity].
  - rewrite In_view_inv. unfold render_msgs, action_msgs, st'.
    destruct found as [|e0 l0] eqn:Ef.
    + rewrite (F0 eq_refl). cbn [len List.length Z.of_nat Z.gtb Z.compare].
      cbn [scan_found has_recursive_items nonempty orb].
      split; [|congruence]. intros I. exfalso.
      destruct (nonempty (get_subdirs (fs w) d)),
        (negb (path_eqb d sp)), (has_next ps idx), (has_prev ps idx);
        cbn in I; intuition discriminate.
    + rewrite F1 by discriminate.
      cbn [scan_found has_recursive_items recursive_count recursive_size].
      split; [discriminate|]. intros _. left.
      rewrite !in_app_iff. right. right. left. cbn. auto.
Qed.

Lemma recursive_scan_is_remembered_witness :
  exists w',
    navigate_loop 2 ["proj"] ["proj"] None None init_scan
                  (world_of reference_tree ["r"; ""; "q"]) =
    navigate_loop 1 ["proj"] ["proj"] None None (mkScan (Some true) 3 350) w' /\
    stdin w' = ["q"] /\ fs w' = reference_tree.
Proof.
  destruct (recursive_scan_is_remembered
              1 ["proj"] ["proj"] None None init_scan
              (world_of reference_tree ["r"; ""; "q"]) "r" "" ["q"])
    as (w' & E & I & F & _).
  - reflexivity.
  - reflexivity.
  - vm_compute. discriminate.
  - exists w'. split; [exact E|]. split; [exact I | exact F].
Defined.

(** ** Walking the subdirectories *)

Section Walks.

Lemma navigate_number
      (f : nat) (d sp : path) (ps : option (list path)) (idx : option Z)
      (st : scan_state) (w : world) (line : string) (rest : list string) :
  stdin w = line :: rest ->
  isdigit (choice_of line) = true ->
  1 <= int (choice_of line) <= len (get_subdirs (fs w) d) ->
  navigate_loop (S f) d sp ps idx st w =
  bind (sibling_loop f (get_subdirs (fs w) d) 0 sp)
       (fun _ => navigate_loop f d sp ps idx st)
       (prompted d sp ps idx st w).
Proof.
  intros Hin D R.
  rewrite (navigate_turn f d sp ps idx st w line rest Hin). cbv zeta.
  rewrite !(digits_are_no_letter _ _ D) by (cbn; tauto).
  cbn [andb]. rewrite D.
  destruct (get_subdirs (fs w) d) as [|first others] eqn:Es;
    [cbn in R; lia|].
  cbn [nonempty andb].
  replace ((0 <=? int (choice_of line) - 1) &&
           (int (choice_of line) - 1 <? len (first :: others))) with true;
    [reflexivity|].
  symmetry. apply andb_true_iff. split; [apply Z.leb_le | apply Z.ltb_lt]; lia.
Qed.

Lemma child_is_not_start (d sp : path) (y : string) :
  is_prefix sp d = true -> path_eqb (d ++ [y]) sp = false.
Proof.
  intros P. destruct (path_eqb (d ++ [y]) sp) eqn:E; [|reflexivity].
  apply path_eqb_eq in E. apply is_prefix_inv in P. destruct P as [t ->].
  apply (f_equal (@List.length string)) in E.
  rewrite !length_app in E. cbn in E. lia.
Qed.

Lemma py_nth_middle {A} (done todo : list A) (a : A) :
  py_nth (done ++ a :: todo) (len done) = Some a.
Proof.
  unfold py_nth, len.
  destruct (Z.ltb_spec (Z.of_nat (List.length done)) 0); [lia|].
  rewrite Nat2Z.id, nth_error_app2 by lia.
  now rewrite Nat.sub_diag.
Qed.

Lemma sibling_loop_skips (f : nat) (subdirs : list path) (sp : path)
      (rest : list string) :
  forall todo done skips w,
    subdirs = done ++ todo ->
    stdin w = skips ++ rest ->
    Forall (fun l => choice_of l = "s") skips ->
    List.length skips = List.length todo ->
    sibling_loop (S (List.length todo + f)) subdirs (len done) sp w =
    (Ok tt, skipped_through subdirs (len done) todo sp w) /\
    stdin (skipped_through subdirs (len done) todo sp w) = rest /\
    fs (skipped_through subdirs (len done) todo sp w) = fs w /\
    stats (skipped_through subdirs (len done) todo sp w) = stats w.
Proof.
  induction todo as [|s todo IH]; intros done skips w Es Hin Hs Hl.
  - destruct skips; [|discriminate]. cbn [skipped_through].
    split; [|repeat split; exact Hin].
    apply sibling_loop_done. rewrite Es, app_nil_r. lia.
  - destruct skips as [|l skips]; [discriminate|].
    apply Forall_cons_iff in Hs. destruct Hs as [Cl Hs'].
    cbn [List.length Nat.add skipped_through].
    assert (len done < len subdirs) as Lt.
    { rewrite Es, len_app, len_cons. pose proof (len_nonneg todo). lia. }
    assert (py_nth subdirs (len done) = Some s) as Pn
        by (rewrite Es; apply py_nth_middle).
    rewrite (sibling_loop_visit _ subdirs (len done) sp s w Lt Pn).
    rewrite (bind_ok _ _ _ _ _
               (navigate_s _ s sp (Some subdirs) (Some (len done)) init_scan
                           w l (skips ++ rest) Hin Cl)).
    cbn [sibling_step]. rewrite bind_ret.
    set (w1 := prompted s sp (Some subdirs) (Some (len done)) init_scan w).
    destruct (IH (done ++ [s]) skips w1) as (E & I & F & T).
    + now rewrite <- app_assoc.
    + cbn. now rewrite Hin.
    + exact Hs'.
    + now injection Hl.
    + rewrite len_app in *. change (len [s]) with 1 in *.
      rewrite E. repeat split; assumption.
Qed.

End Walks.

(** X14.  Into a subdirectory and up again: after a number in range and then
    [u], the loop is back at the parent with the parent's scan state,
    two lines of input are used up, and nothing has been deleted or
    counted.  Below the starting directory [u] is always on offer. *)
Theorem up_returns_to_the_parent
        (f : nat) (d sp : path) (ps : option (list path)) (idx : option Z)
        (st : scan_state) (w : world) (line up : string)
        (rest : list string) :
  stdin w = line :: up :: rest ->
  isdigit (choice_of line) = true ->
  1 <= int (choice_of line) <= len (get_subdirs (fs w) d) ->
  choice_of up = "u" ->
  is_prefix sp d = true ->
  let subdirs := get_subdirs (fs w) d in
  exists first others,
    subdirs = first :: others /\
    let back :=
      prompted first sp (Some subdirs) (Some 0) init_scan
               (prompted d sp ps idx st w) in
    navigate_loop (S (S (S f))) d sp ps idx st w =
    navigate_loop (S (S f)) d sp ps idx st back /\
    In MOptUp (view_msgs (fs w) first sp (Some subdirs) (Some 0) init_scan) /\
    stdin back = rest /\ fs back = fs w /\ stats back = stats w.
Proof.
  intros Hin D R U P subdirs.
  destruct subdirs as [|first others] eqn:Es;
    [unfold subdirs in Es; rewrite Es in R; cbn in R; lia|].
  exists first, others. split; [reflexivity|]. intros back.
  assert (In first (get_subdirs (fs w) d)) as I1
      by (fold subdirs; rewrite Es; now left).
  destruct (In_get_subdirs_child _ _ _ I1) as [[y Ey] _].
  assert (path_eqb first sp = false) as Ne
      by (rewrite Ey; now apply child_is_not_start).
  split.
  { rewrite (navigate_number _ d sp ps idx st w line (up :: rest) Hin D R).
    fold subdirs. rewrite Es.
    set (p := prompted d sp ps idx st w).
    assert (stdin p = up :: rest) as Hp by (cbn; now rewrite Hin).
    unfold bind at 1.
    rewrite (sibling_loop_visit _ (first :: others) 0 sp first p);
      [|rewrite len_cons; pose proof (len_nonneg others); lia|reflexivity].
    rewrite (bind_ok _ _ _ _ _
               (navigate_u _ first sp (Some (first :: others)) (Some 0)
                           init_scan p up rest Hp U Ne)).
    cbn [sibling_step]. unfold ret, back. fold p. reflexivity. }
  split.
  { destruct (menu_lines (fs w) first sp (Some (first :: others)) (Some 0)
                         init_scan) as (_ & _ & _ & Hu & _).
    now apply Hu. }
  cbn. rewrite Hin. repeat split.
Qed.

Lemma up_returns_to_the_parent_witness :
  exists first others,
    get_subdirs three_siblings ["work"] = first :: others /\
    navigate_loop 3 ["work"] ["work"] None None init_scan
                  (world_of three_siblings ["2"; "u"; "q"]) =
    navigate_loop 2 ["work"] ["work"] None None init_scan
      (prompted first ["work"] (Some (get_subdirs three_siblings ["work"]))
                (Some 0) init_scan
                (prompted ["work"] ["work"] None None init_scan
                          (world_of three_siblings ["2"; "u"; "q"]))).
Proof.
  destruct (up_returns_to_the_parent
              0 ["work"] ["work"] None None init_scan
              (world_of three_siblings ["2"; "u"; "q"]) "2" "u" ["q"])
    as (first & others & Es & E & _).
  - reflexivity.
  - reflexivity.
  - vm_compute. split; discriminate.
  - reflexivity.
  - reflexivity.
  - exists first, others. split; [exact Es | exact E].
Defined.

(** X15.  Skipping through: after a number in range, one [s] in each
    subdirectory shows every subdirectory once, in sorted order and each
    with a fresh scan state, and then the parent is shown again with its
    own scan state; nothing has been deleted or counted on the way. *)
Theorem skipping_visits_every_subdirectory
        (f : nat) (d sp : path) (ps : option (list path)) (idx : option Z)
        (st : scan_state) (w : world) (line : string)
        (skips rest : list string) :
  stdin w = line :: skips ++ rest ->
  isdigit (choice_of line) = true ->
  1 <= int (choice_of line) <= len (get_subdirs (fs w) d) ->
  Forall (fun l => choice_of l = "s") skips ->
  List.length skips = List.length (get_subdirs (fs w) d) ->
  let subdirs := get_subdirs (fs w) d in
  let back :=
    skipped_through subdirs 0 subdirs sp (prompted d sp ps idx st w) in
  navigate_loop (S (S (List.length subdirs + f))) d sp ps idx st w =
  navigate_loop (S (List.length subdirs + f)) d sp ps idx st back /\
  stdin back = rest /\ fs back = fs w /\ stats back = stats w.
Proof.
  intros Hin D R Hs Hl subdirs back.
  set (p := prompted d sp ps idx st w).
  destruct (sibling_loop_skips f subdirs sp rest subdirs [] skips p)
    as (E & I & F & T).
  - reflexivity.
  - cbn. now rewrite Hin.
  - exact Hs.
  - exact Hl.
  - change (len (@nil path)) with 0 in *. fold back in E, I, F, T.
    split; [|repeat split; assumption].
    rewrite (navigate_number _ d sp ps idx st w line (skips ++ rest) Hin D R).
    fold subdirs p. now rewrite (bind_ok _ _ _ _ _ E).
Qed.

Lemma skipping_visits_every_subdirectory_witness :
  let w := world_of three_siblings ["1"; "s"; "S"; " s"; "q"] in
  navigate_loop 5 ["work"] ["work"] None None init_scan w =
  navigate_loop 4 ["work"] ["work"] None None init_scan
    (skipped_through (get_subdirs three_siblings ["work"]) 0
                     (get_subdirs three_siblings ["work"]) ["work"]
                     (prompted ["work"] ["work"] None None init_scan w)) /\
  stdin (skipped_through (get_subdirs three_siblings ["work"]) 0
                         (get_subdirs three_siblings ["work"]) ["work"]
                         (prompted ["work"] ["work"] None None init_scan w)) =
  ["q"].
Proof.
  intros w.
  destruct (skipping_visits_every_subdirectory
              0 ["work"] ["work"] None None init_scan w "1"
              ["s"; "S"; " s"] ["q"]) as (E & I & _).
  - reflexivity.
  - reflexivity.
  - vm_compute. split; discriminate.
  - repeat constructor.
  - reflexivity.
  - split; [exact E | exact I].
Defined.

(** ** What the two listings of a directory hold *)

Section Listings.

Variable fs0 : node.

Lemma In_cleanable_of (e p : path) :
  In p (map entry_path (cleanable_of fs0 e)) <->
  p = e /\ is_dir fs0 e = true /\ classify fs0 e <> None.
Proof.
  unfold cleanable_of. destruct (is_dir fs0 e); cbn [negb].
  - destruct (classify fs0 e) as [k|]; cbn.
    + split; [intros [<-|[]]; repeat split; discriminate |].
      intros (-> & _). now left.
    + split; [intros [] | intros (_ & _ & N); now apply N].
  - cbn. split; [intros [] | intros (_ & D & _); discriminate].
Qed.

Lemma In_cleanable_paths (d p : path) :
  In p (map entry_path (find_cleanable_in_dir fs0 d)) <->
  listed fs0 d p /\ is_dir fs0 p = true /\ classify fs0 p <> None.
Proof.
  unfold find_cleanable_in_dir, listed.
  destruct (iterdir fs0 d) as [entries|e].
  - rewrite in_map_iff. split.
    + intros (x & <- & I). apply in_flat_map in I.
      destruct I as (e & Ie & Ix).
      assert (In (entry_path x) (map entry_path (cleanable_of fs0 e))) as J
          by now apply in_map.
      apply In_cleanable_of in J. destruct J as (-> & D & C).
      split; [now exists entries | now split].
    + intros ((entries' & [= <-] & I) & D & C).
      assert (In p (map entry_path (cleanable_of fs0 p))) as J
          by now apply In_cleanable_of.
      apply in_map_iff in J. destruct J as (x & Ex & Ix).
      exists x. split; [exact Ex|]. apply in_flat_map. now exists p.
  - cbn. split; [intros [] | intros ((entries & [=] & _) & _)].
Qed.

Lemma In_subdirs (d p : path) :
  In p (get_subdirs fs0 d) <->
  listed fs0 d p /\ is_dir fs0 p = true /\ classify fs0 p = None.
Proof.
  assert (navigable fs0 p = true <->
          is_dir fs0 p = true /\ classify fs0 p = None) as N.
  { unfold navigable. rewrite classify_none, !andb_true_iff, !negb_true_iff.
    tauto. }
  unfold get_subdirs, listed. destruct (iterdir fs0 d) as [entries|e].
  - rewrite In_sorted, filter_In, N. split.
    + intros (I & D & C). split; [now exists entries | now split].
    + intros ((entries' & [= <-] & I) & D & C). now split.
  - cbn. split; [intros [] | intros ((entries & [=] & _) & _)].
Qed.




End Listings.



(** ** How deep the recursive scan looks *)

Section ScanDepth.

Variable fs0 : node.

Lemma flat_map_len_le {A B} (g h : A -> list B) (l : list A) :
  (forall a, In a l -> len (g a) <= len (h a)) ->
  len (flat_map g l) <= len (flat_map h l).
Proof.
  induction l as [|a l IH]; intros H; cbn [flat_map]; [lia|].
  rewrite !len_app.
  pose proof (H a (or_introl eq_refl)).
  assert (len (flat_map g l) <= len (flat_map h l))
    by (apply IH; intros; apply H; now right).
  lia.
Qed.

Lemma flat_map_same {A B} (g h : A -> list B) (l : list A) :
  (forall a, In a l -> g a = h a) -> flat_map g l = flat_map h l.
Proof.
  induction l as [|a l IH]; intros H; cbn [flat_map]; [reflexivity|].
  rewrite (H a (or_introl eq_refl)), IH; [reflexivity|].
  intros; apply H; now right.
Qed.

Lemma cleanable_below_grows (k : nat) :
  forall d, len (cleanable_below k fs0 d) <= len (cleanable_below (S k) fs0 d).
Proof.
  induction k as [|k IH]; intros d.
  - apply len_nonneg.
  - change (cleanable_below (S (S k)) fs0 d)
      with (find_cleanable_in_dir fs0 d ++
            flat_map (cleanable_below (S k) fs0) (get_subdirs fs0 d)).
    change (cleanable_below (S k) fs0 d)
      with (find_cleanable_in_dir fs0 d ++
            flat_map (cleanable_below k fs0) (get_subdirs fs0 d)).
    rewrite !len_app.
    pose proof (flat_map_len_le (cleanable_below k fs0)
                  (cleanable_below (S k) fs0) (get_subdirs fs0 d)
                  (fun a _ => IH a)).
    lia.
Qed.

Lemma cleanable_below_le (k k' : nat) (d : path) :
  (k <= k')%nat ->
  len (cleanable_below k fs0 d) <= len (cleanable_below k' fs0 d).
Proof.
  induction 1 as [|k' _ IH]; [lia|].
  pose proof (cleanable_below_grows k' d). lia.
Qed.

Lemma flat_is_unlistable (d : path) :
  height_at fs0 d = O -> exists e, iterdir fs0 d = inr e.
Proof.
  unfold height_at, iterdir.
  destruct (lookup fs0 d) as [[size|r es]|]; intros H.
  - eauto.
  - rewrite height_dir in H. discriminate.
  - eauto.
Qed.

Lemma cleanable_below_settles (k : nat) :
  forall d, (height_at fs0 d <= k)%nat ->
            cleanable_below (S k) fs0 d = cleanable_below k fs0 d.
Proof.
  induction k as [|k IH]; intros d H.
  - destruct (flat_is_unlistable d) as [e E]; [lia|].
    cbn [cleanable_below].
    unfold find_cleanable_in_dir, get_subdirs. now rewrite E.
  - change (cleanable_below (S (S k)) fs0 d)
      with (find_cleanable_in_dir fs0 d ++
            flat_map (cleanable_below (S k) fs0) (get_subdirs fs0 d)).
    change (cleanable_below (S k) fs0 d)
      with (find_cleanable_in_dir fs0 d ++
            flat_map (cleanable_below k fs0) (get_subdirs fs0 d)).
    f_equal. apply flat_map_same. intros s Is. apply IH.
    destruct (In_get_subdirs_child _ _ _ Is) as [[y ->] N].
    apply navigable_is_dir in N.
    pose proof (height_at_child fs0 d y N). lia.
Qed.

Lemma cleanable_below_settled (k k' : nat) (d : path) :
  (k <= k')%nat -> (height_at fs0 d <= k)%nat ->
  cleanable_below k' fs0 d = cleanable_below k fs0 d.
Proof.
  induction 1 as [|k' L IH]; intros H; [reflexivity|].
  rewrite cleanable_below_settles by lia. now apply IH.
Qed.

Lemma scan_recursive_found (d : path) (max_depth : Z) :
  scan_recursive fs0 d max_depth =
  (len (cleanable_below (Z.to_nat (max_depth + 1)) fs0 d),
   cleanable_size (cleanable_below (Z.to_nat (max_depth + 1)) fs0 d)).
Proof. unfold scan_recursive. now rewrite scan_dir_counts. Qed.

End ScanDepth.

(** X18.  A deeper scan never counts fewer directories; once [max_depth + 1]
    is at least the height of the tree at the directory, a deeper scan
    finds the same count and the same bytes, so the scan is then
    complete; and with a negative [max_depth] nothing is looked at. *)
Theorem deeper_scans_find_no_less (fs0 : node) (d : path) (k k' : Z) :
  k <= k' ->
  fst (scan_recursive fs0 d k) <= fst (scan_recursive fs0 d k') /\
  ((height_at fs0 d <= Z.to_nat (k + 1))%nat ->
   scan_recursive fs0 d k' = scan_recursive fs0 d k) /\
  (k' < 0 -> scan_recursive fs0 d k' = (0, 0)).
Proof.
  intros L. rewrite !scan_recursive_found. cbn [fst].
  assert (Z.to_nat (k + 1) <= Z.to_nat (k' + 1))%nat as Ln by lia.
  split; [now apply cleanable_below_le|].
  split.
  - intros H. now rewrite (cleanable_below_settled fs0 _ _ d Ln H).
  - intros N. replace (Z.to_nat (k' + 1)) with O by lia. reflexivity.
Qed.

Lemma deeper_scans_find_no_less_witness :
  fst (scan_recursive deep_reference ["proj"] 10) <=
  fst (scan_recursive deep_reference ["proj"] 20) /\
  scan_recursive deep_reference ["proj"] 10 = (2, 300) /\
  scan_recursive deep_reference ["proj"] 20 = (3, 350) /\
  scan_recursive deep_reference ["proj"] 30 =
  scan_recursive deep_reference ["proj"] 20.
Proof.
  split.
  - apply (deeper_scans_find_no_less deep_reference ["proj"] 10 20). lia.
  - split; [vm_compute; reflexivity|]. split; [vm_compute; reflexivity|].
    apply (deeper_scans_find_no_less deep_reference ["proj"] 20 30);
      [lia | vm_compute; lia].
Defined.

(** ** Where [main] places the starting directory *)

Section Siblings.

Lemma parent_is_self (sp : path) : path_eqb (parent sp) sp = true <-> sp = [].
Proof.
  rewrite path_eqb_eq. unfold parent. split; [|now intros ->].
  intros E. destruct sp as [|a sp]; [reflexivity|].
  assert (a :: sp <> []) as N by discriminate.
  pose proof (app_removelast_last "" N) as L. rewrite E in L.
  apply (f_equal (@List.length string)) in L.
  rewrite length_app in L. cbn in L. lia.
Qed.

Lemma index_nth (l : list path) (p : path) :
  forall i, index l p = Some i -> py_nth l i = Some p.
Proof.
  induction l as [|q l IH]; intros i; cbn [index]; [discriminate|].
  destruct (path_eqb q p) eqn:E.
  - intros [= <-]. apply path_eqb_eq in E. now subst.
  - destruct (index l p) as [j|] eqn:Ej; [|discriminate].
    cbn [option_map]. intros [= <-].
    destruct (index_Some_range _ _ _ Ej) as [R _].
    specialize (IH j eq_refl). revert IH. unfold py_nth.
    destruct (Z.ltb_spec j 0); [lia|].
    destruct (Z.ltb_spec (Z.succ j) 0); [lia|].
    replace (Z.to_nat (Z.succ j)) with (S (Z.to_nat j)) by lia.
    auto.
Qed.

Lemma index_None (l : list path) (p : path) :
  index l p = None <-> ~ In p l.
Proof.
  induction l as [|q l IH]; cbn [index In]; [tauto|].
  destruct (path_eqb q p) eqn:E.
  - apply path_eqb_eq in E. split; [discriminate | tauto].
  - assert (q <> p) as N by (intros ->; now rewrite path_eqb_refl in E).
    destruct (index l p) as [j|] eqn:Ej; cbn [option_map].
    + destruct (index_Some_range _ _ _ Ej) as [_ I].
      split; [discriminate|]. intros H. exfalso. apply H. now right.
    + split; [|reflexivity]. intros _ [?|I]; [congruence|].
      now apply (proj1 IH).
Qed.

End Siblings.

(** X19.  [main] gives the starting directory siblings exactly when it is not
    the root and is one of the plain subdirectories that [get_subdirs]
    finds in its parent; the index is then its (first) place in that
    sorted list.  A start that is a virtual environment or a
    [node_modules] itself, that is a file, or whose parent cannot be
    listed, has no siblings, and so never gets [n] or [p]. *)
Theorem start_is_placed_among_its_siblings (fs0 : node) (sp : path) :
  match siblings_of fs0 sp with
  | (Some l, Some i) =>
      sp <> [] /\ l = get_subdirs fs0 (parent sp) /\
      index l sp = Some i /\ py_nth l i = Some sp /\ 0 <= i < len l /\
      is_dir fs0 sp = true /\ classify fs0 sp = None
  | (None, None) =>
      (sp = [] \/ is_dir fs0 sp = false \/ classify fs0 sp <> None \/
       ~ listed fs0 (parent sp) sp) /\
      forall d st, ~ In MOptNext (view_msgs fs0 d sp None None st) /\
                   ~ In MOptPrev (view_msgs fs0 d sp None None st)
  | _ => False
  end.
Proof.
  unfold siblings_of.
  destruct (path_eqb (parent sp) sp) eqn:E; cbn [negb].
  - apply parent_is_self in E. split; [now left|].
    intros d st. rewrite next_offered, prev_offered. cbn. split; discriminate.
  - assert (sp <> []) as N.
    { intros H. apply parent_is_self in H. congruence. }
    destruct (index (get_subdirs fs0 (parent sp)) sp) as [i|] eqn:Ei.
    + destruct (index_Some_range _ _ _ Ei) as [R I].
      apply In_subdirs in I. destruct I as (_ & D & C).
      repeat split; try assumption; try lia.
      now apply index_nth.
    + apply index_None in Ei. rewrite In_subdirs in Ei. split.
      * right. destruct (is_dir fs0 sp); [|now left]. right.
        destruct (classify fs0 sp); [left; discriminate|].
        right. intros L. apply Ei. now split.
      * intros d st. rewrite next_offered, prev_offered. cbn.
        split; discriminate.
Qed.

(** ** What a session can and cannot remove *)

Section Pruning.

Lemma same_kind_refl (n : node) : same_kind n n = true.
Proof. destruct n; cbn; [apply Z.eqb_refl | apply Bool.eqb_reflx]. Qed.

Lemma same_kind_trans (a b c : node) :
  same_kind a b = true -> same_kind b c = true -> same_kind a c = true.
Proof.
  destruct a, b, c; cbn; try discriminate.
  - rewrite !Z.eqb_eq. congruence.
  - rewrite !Bool.eqb_true_iff. congruence.
Qed.

Lemma same_kind_file (size : Z) (n : node) :
  same_kind (File size) n = true <-> n = File size.
Proof.
  destruct n; cbn; [rewrite Z.eqb_eq|]; split; try congruence; discriminate.
Qed.

Lemma same_kind_dir (r : bool) (es : list (string * node)) (n : node) :
  same_kind n (Dir r es) = true -> exists es0, n = Dir r es0.
Proof.
  destruct n as [|r0 es0]; cbn; [discriminate|].
  rewrite Bool.eqb_true_iff. intros ->. now exists es0.
Qed.

(** What a removal leaves of a tree: every path leads to what it led to
    (a directory may have lost entries), or, at and below the removed
    entry, to nothing. *)
Lemma lookup_remove_at (p : path) :
  forall (n : node) (q : path),
    match lookup (remove_at p n) q with
    | Some c' => exists c, lookup n q = Some c /\ same_kind c c' = true
    | None => lookup n q = None \/ (p <> [] /\ is_prefix p q = true)
    end.
Proof.
  induction p as [|x p IH]; intros n q.
  - cbn [remove_at]. destruct (lookup n q) as [c|] eqn:E; [|now left].
    exists c. split; [reflexivity | apply same_kind_refl].
  - destruct n as [size|r es].
    + cbn [remove_at]. destruct (lookup (File size) q) as [c|] eqn:E;
        [|now left].
      exists c. split; [reflexivity | apply same_kind_refl].
    + destruct q as [|y q].
      * cbn [remove_at]. destruct p; cbn [lookup]; eexists;
          (split; [reflexivity | apply Bool.eqb_reflx]).
      * destruct p as [|x' p'].
        -- cbn [remove_at lookup]. rewrite find_entry_remove_entry.
           cbn [is_prefix].
           destruct (String.eqb x y); cbn [andb].
           ++ right. split; [discriminate | reflexivity].
           ++ destruct (find_entry y es) as [c|]; [|now left].
              destruct (lookup c q) as [c'|]; [|now left].
              exists c'. split; [reflexivity | apply same_kind_refl].
        -- change (remove_at (x :: x' :: p') (Dir r es))
             with (Dir r (update_entry x (remove_at (x' :: p')) es)).
           cbn [lookup]. rewrite find_entry_update_entry.
           change (is_prefix (x :: x' :: p') (y :: q))
             with (String.eqb x y && is_prefix (x' :: p') q).
           destruct (String.eqb x y); cbn [andb].
           ++ destruct (find_entry y es) as [c|]; cbn [option_map];
                [|now left].
              specialize (IH c q).
              destruct (lookup (remove_at (x' :: p') c) q) as [c'|];
                [exact IH|].
              destruct IH as [IH|[_ IH]]; [now left|].
              right. split; [discriminate | exact IH].
           ++ destruct (find_entry y es) as [c|]; [|now left].
              destruct (lookup c q) as [c'|]; [|now left].
              exists c'. split; [reflexivity | apply same_kind_refl].
Qed.

Variable fs0 : node.

Lemma pruned_refl : pruned fs0 fs0.
Proof.
  split.
  - intros q n' E. exists n'. split; [exact E | apply same_kind_refl].
  - intros q n _ E. exists n. split; [exact E | apply same_kind_refl].
Qed.

Lemma is_dir_nothing_new (fs1 : node) (p : path) :
  nothing_new fs0 fs1 -> is_dir fs1 p = true -> is_dir fs0 p = true.
Proof.
  intros N. unfold is_dir.
  destruct (lookup fs1 p) as [[|r es]|] eqn:E; try discriminate.
  destruct (N _ _ E) as (n & -> & K). destruct n; [discriminate K|reflexivity].
Qed.

Lemma exists_nothing_new (fs1 : node) (p : path) :
  nothing_new fs0 fs1 -> exists_ fs1 p = true -> exists_ fs0 p = true.
Proof.
  intros N. unfold exists_.
  destruct (lookup fs1 p) as [n'|] eqn:E; try discriminate.
  now destruct (N _ _ E) as (n & -> & K).
Qed.

(** Removals cannot make a directory cleanable that was not. *)
Lemma classify_nothing_new (fs1 : node) (p : path) :
  nothing_new fs0 fs1 -> classify fs1 p <> None -> classify fs0 p <> None.
Proof.
  intros N C. apply classify_cleanable. apply classify_cleanable in C.
  apply orb_true_iff in C. apply orb_true_iff. destruct C as [V|M].
  - left. apply is_venv_true_iff in V. destruct V as [D X].
    apply is_venv_true_iff. split; [now apply (is_dir_nothing_new fs1)|].
    apply existsb_exists in X. destruct X as (i & Ii & X).
    apply existsb_exists. exists i. split; [exact Ii|].
    now apply (exists_nothing_new fs1).
  - right. unfold is_node_modules in *. apply andb_true_iff in M.
    destruct M as [D Nm]. apply andb_true_iff.
    split; [now apply (is_dir_nothing_new fs1) | exact Nm].
Qed.

Lemma pruned_remove_at (fs1 : node) (p : path) :
  pruned fs0 fs1 -> classify fs0 p <> None -> pruned fs0 (remove_at p fs1).
Proof.
  intros [N K] C. split.
  - intros q n' E. pose proof (lookup_remove_at p fs1 q) as L.
    rewrite E in L. destruct L as (c & Ec & Sc).
    destruct (N _ _ Ec) as (n & En & Sn).
    exists n. split; [exact En | exact (same_kind_trans _ _ _ Sn Sc)].
  - intros q n O E. destruct (K q n O E) as (c & Ec & Sc).
    pose proof (lookup_remove_at p fs1 q) as L.
    destruct (lookup (remove_at p fs1) q) as [c'|].
    + destruct L as (c1 & E1 & S1). rewrite Ec in E1. injection E1 as <-.
      exists c'. split; [reflexivity | exact (same_kind_trans _ _ _ Sc S1)].
    + exfalso. destruct L as [L|[Np Pp]]; [congruence|].
      apply C. now apply O.
Qed.

(** *** Steps that leave the tree alone *)

Lemma steady_ret {A} (a : A) : steady (ret a).
Proof. now intros w r w' [= <- <-]. Qed.

Lemma steady_out_of_fuel {A} : steady (@out_of_fuel A).
Proof. now intros w r w' [= <- <-]. Qed.

Lemma steady_raise {A} (e : exc) : steady (@raise A e).
Proof. now intros w r w' [= <- <-]. Qed.

Lemma steady_sys_exit {A} (c : Z) : steady (@sys_exit A c).
Proof. now intros w r w' [= <- <-]. Qed.

Lemma steady_print (m : msg) : steady (print m).
Proof. now intros w r w' [= <- <-]. Qed.

Lemma steady_query {A} (g : node -> A) : steady (query g).
Proof. now intros w r w' [= <- <-]. Qed.

Lemma steady_input (prompt : msg) : steady (input prompt).
Proof.
  intros w r w'. unfold input. destruct (stdin w); now intros [= <- <-].
Qed.

Lemma steady_set_stats (s : stats_t) : steady (set_stats s).
Proof. now intros w r w' [= <- <-]. Qed.

Lemma steady_get_stats : steady get_stats.
Proof. now intros w r w' [= <- <-]. Qed.

Lemma steady_incr_deleted_count : steady incr_deleted_count.
Proof. now intros w r w' [= <- <-]. Qed.

Lemma steady_add_total_freed (freed : Z) : steady (add_total_freed freed).
Proof. now intros w r w' [= <- <-]. Qed.

Lemma steady_bind {A B} (m : M A) (k : A -> M B) :
  steady m -> (forall a, steady (k a)) -> steady (bind m k).
Proof.
  intros Hm Hk w r w' E. unfold bind in E.
  destruct (m w) as [[a|e|c|] w1] eqn:E1;
    try (injection E as <- <-; exact (Hm _ _ _ E1)).
  rewrite (Hk a _ _ _ E). exact (Hm _ _ _ E1).
Qed.

Ltac steady_step :=
  match goal with
  | |- steady (bind _ _) => apply steady_bind; [|intros ?]
  | |- steady (ret _) => apply steady_ret
  | |- steady (print _) => apply steady_print
  | |- steady (query _) => apply steady_query
  | |- steady (input _) => apply steady_input
  | |- steady (sys_exit _) => apply steady_sys_exit
  | |- steady (when ?b _) => destruct b; cbn [when]
  | |- steady (if ?b then _ else _) => destruct b
  | |- steady (let '(_, _) := ?x in _) => destruct x
  end.

Lemma steady_render (d : path) (c : list entry) (s : list path)
      (st : scan_state) : steady (render d c s st).
Proof. unfold render. repeat steady_step. Qed.

Lemma steady_show_actions (a b : bool) (s : list path) (c n p : bool) :
  steady (show_actions a b s c n p).
Proof. unfold show_actions. repeat steady_step. Qed.

Lemma steady_recursive_scan_action (d : path) (st : scan_state) :
  steady (recursive_scan_action d st).
Proof. unfold recursive_scan_action. repeat steady_step. Qed.

(** *** Steps that only prune *)

Lemma prunes_steady {A} (m : M A) : steady m -> prunes fs0 m.
Proof. intros H w r w' P E. now rewrite (H _ _ _ E). Qed.

Lemma prunes_bind {A B} (m : M A) (k : A -> M B) :
  prunes fs0 m -> (forall a, prunes fs0 (k a)) -> prunes fs0 (bind m k).
Proof.
  intros Hm Hk w r w' P E. unfold bind in E.
  destruct (m w) as [[a|e|c|] w1] eqn:E1;
    try (injection E as <- <-; exact (Hm _ _ _ P E1)).
  exact (Hk a _ _ _ (Hm _ _ _ P E1) E).
Qed.

Lemma prunes_bind_query {A B} (g : node -> A) (k : A -> M B) :
  (forall fs1, pruned fs0 fs1 -> prunes fs0 (k (g fs1))) ->
  prunes fs0 (bind (query g) k).
Proof.
  intros H w r w' P E. rewrite bind_query in E. exact (H _ P _ _ _ P E).
Qed.

Lemma prunes_for_each {A S} (body : S -> A -> M S) (l : list A) :
  (forall s a, In a l -> prunes fs0 (body s a)) ->
  forall s, prunes fs0 (for_each l s body).
Proof.
  induction l as [|a l IH]; intros Hb s; cbn [for_each].
  - apply prunes_steady, steady_ret.
  - apply prunes_bind; [apply Hb; now left|].
    intros s'. apply IH. intros; apply Hb; now right.
Qed.

(** The one step that changes the tree. *)
Lemma prunes_delete_directory (p : path) :
  classify fs0 p <> None -> prunes fs0 (delete_directory p).
Proof.
  intros C w r w' P E.
  destruct (rmtree p w) as [[[]|e|c|] w1] eqn:R.
  - rewrite (delete_directory_done _ _ _ R) in E. injection E as <- <-.
    apply rmtree_ok_inv in R. subst w1. cbn [fs].
    now apply pruned_remove_at.
  - rewrite (delete_directory_failed _ _ _ _ R) in E. injection E as <- <-.
    apply rmtree_raised_same in R. now subst w1.
  - destruct (delete_directory_total p w) as (ok & w2 & D).
    unfold delete_directory, try_except, bind in D. rewrite R in D.
    discriminate D.
  - destruct (delete_directory_total p w) as (ok & w2 & D).
    unfold delete_directory, try_except, bind in D. rewrite R in D.
    discriminate D.
Qed.

Lemma prunes_wipe_entry (d : path) (freed : Z) (e : entry) :
  classify fs0 (entry_path e) <> None -> prunes fs0 (wipe_entry d freed e).
Proof.
  destruct e as [[p k] size]. cbn [entry_path fst]. intros C.
  unfold wipe_entry.
  apply prunes_bind; [now apply prunes_delete_directory | intros ok].
  apply prunes_steady. destruct ok; [|apply steady_ret].
  apply steady_bind; [apply steady_print | intros _].
  apply steady_bind; [apply steady_incr_deleted_count | intros _].
  apply steady_ret.
Qed.

Lemma prunes_clean_entry (freed : Z) (e : entry) :
  classify fs0 (entry_path e) <> None -> prunes fs0 (clean_entry freed e).
Proof.
  destruct e as [[p k] size]. cbn [entry_path fst]. intros C.
  unfold clean_entry.
  apply prunes_bind; [now apply prunes_delete_directory | intros ok].
  apply prunes_steady. destruct ok; [|apply steady_ret].
  apply steady_bind; [apply steady_print | intros _].
  apply steady_bind; [apply steady_incr_deleted_count | intros _].
  apply steady_ret.
Qed.

(** What a pruned tree lists as cleanable was cleanable at the start. *)
Lemma found_was_cleanable (fs1 : node) (d : path) (e : entry) :
  pruned fs0 fs1 -> In e (find_cleanable_in_dir fs1 d) ->
  classify fs0 (entry_path e) <> None.
Proof.
  intros [N _] I. apply In_find_cleanable in I.
  destruct I as (_ & _ & C & _).
  apply (classify_nothing_new fs1); [exact N | congruence].
Qed.

Lemma prunes_wipe_all_cleanable (fuel : nat) :
  forall d, prunes fs0 (wipe_all_cleanable fuel d).
Proof.
  induction fuel as [|fuel IH]; intros d; cbn [wipe_all_cleanable].
  - apply prunes_steady, steady_out_of_fuel.
  - apply prunes_bind_query. intros fs1 P1.
    apply prunes_bind.
    { apply prunes_for_each. intros s e Ie. apply prunes_wipe_entry.
      exact (found_was_cleanable fs1 d e P1 Ie). }
    intros freed. apply prunes_bind_query. intros fs2 P2.
    apply prunes_for_each. intros s a _.
    apply prunes_bind; [apply IH | intros; apply prunes_steady, steady_ret].
Qed.

Lemma prunes_wipe_action (fuel : nat) (d : path) :
  prunes fs0 (wipe_action fuel d).
Proof.
  unfold wipe_action.
  apply prunes_bind; [apply prunes_steady, steady_print | intros _].
  apply prunes_bind; [apply prunes_wipe_all_cleanable | intros freed].
  apply prunes_steady.
  apply steady_bind; [apply steady_add_total_freed | intros _].
  apply steady_print.
Qed.

Lemma prunes_clean_action (fs1 : node) (d : path) :
  pruned fs0 fs1 -> prunes fs0 (clean_action (find_cleanable_in_dir fs1 d)).
Proof.
  intros P1. unfold clean_action.
  apply prunes_bind.
  { apply prunes_for_each. intros s e Ie. apply prunes_clean_entry.
    exact (found_was_cleanable fs1 d e P1 Ie). }
  intros freed. apply prunes_steady.
  apply steady_bind; [apply steady_add_total_freed | intros _].
  apply steady_print.
Qed.

Lemma prunes_navigation (fuel : nat) :
  (forall d sp ps idx st, prunes fs0 (navigate_loop fuel d sp ps idx st)) /\
  (forall subdirs i sp, prunes fs0 (sibling_loop fuel subdirs i sp)).
Proof.
  induction fuel as [|fuel [IHn IHs]]; split.
  - intros. apply prunes_steady, steady_out_of_fuel.
  - intros. apply prunes_steady, steady_out_of_fuel.
  - intros d sp ps idx st. cbn [navigate_loop].
    apply prunes_bind_query. intros fs1 P1.
    apply prunes_bind_query. intros fs2 P2.
    apply prunes_bind; [apply prunes_steady, steady_render | intros _].
    apply prunes_bind; [apply prunes_steady, steady_show_actions | intros _].
    apply prunes_bind; [apply prunes_steady, steady_input | intros line].
    destruct (String.eqb (strip (lower line)) "q");
      [apply prunes_steady; repeat steady_step|].
    repeat match goal with
           | |- prunes _ (if ?b then _ else _) => destruct b
           end;
      try (apply prunes_steady, steady_ret);
      try (apply prunes_bind;
           [first [ apply prunes_steady, steady_recursive_scan_action
                  | apply prunes_wipe_action
                  | now apply prunes_clean_action
                  | apply prunes_steady, steady_print
                  | apply IHs ]
           | intros; apply IHn ]).
  - intros subdirs i sp. cbn [sibling_loop].
    destruct (i <? len subdirs); [|apply prunes_steady, steady_ret].
    destruct (py_nth subdirs i) as [subdir|];
      [|apply prunes_steady, steady_raise].
    apply prunes_bind; [apply IHn | intros result].
    destruct (sibling_step result i (len subdirs)) as [|j notice];
      [apply prunes_steady, steady_ret|].
    apply prunes_bind; [|intros; apply IHs].
    destruct notice; apply prunes_steady;
      [apply steady_print | apply steady_ret].
Qed.

Lemma prunes_main (fuel : nat) (sp : path) : prunes fs0 (main fuel sp).
Proof.
  unfold main.
  apply prunes_bind; [apply prunes_steady, steady_print | intros _].
  apply prunes_bind_query. intros fs1 P1.
  destruct (negb (exists_ fs1 sp)).
  - apply prunes_steady. repeat steady_step.
  - apply prunes_bind; [apply prunes_steady, steady_set_stats | intros _].
    apply prunes_bind_query. intros fs2 P2.
    apply prunes_bind; [apply (proj1 (prunes_navigation fuel)) | intros _].
    apply prunes_steady.
    apply steady_bind; [apply steady_get_stats | intros s].
    apply steady_print.
Qed.

End Pruning.

(** X20.  Whatever is typed, however the session ends, and whatever the
    operating system refuses: a session only ever removes directories
    that were a virtual environment or a [node_modules] when it began.
    Every file that does not lie in such a directory is still there with
    its size, every directory that does not lie in one is still a
    directory, and nothing is in the tree afterwards that was not there
    before. *)
Theorem session_keeps_the_source (f : nat) (sp : path) (w : world) :
  let fs' := fs (snd (main f sp w)) in
  (forall q size,
      outside_cleanable (fs w) q ->
      lookup (fs w) q = Some (File size) ->
      lookup fs' q = Some (File size)) /\
  (forall q,
      outside_cleanable (fs w) q ->
      is_dir (fs w) q = true -> is_dir fs' q = true) /\
  (forall q size,
      lookup fs' q = Some (File size) -> lookup (fs w) q = Some (File size)) /\
  (forall q, is_dir fs' q = true -> is_dir (fs w) q = true).
Proof.
  intros fs'.
  assert (pruned (fs w) fs') as [N K].
  { unfold fs'. destruct (main f sp w) as [r w'] eqn:E.
    exact (prunes_main (fs w) f sp w r w' (pruned_refl (fs w)) E). }
  repeat split.
  - intros q size O E. destruct (K q _ O E) as (n' & E' & S0).
    apply same_kind_file in S0. now subst.
  - intros q O D. unfold is_dir in *.
    destruct (lookup (fs w) q) as [[|r es]|] eqn:E; try discriminate.
    destruct (K q _ O E) as (n' & -> & S0).
    destruct n'; [discriminate S0 | reflexivity].
  - intros q size E. destruct (N q _ E) as (n & En & S0).
    destruct n; cbn in S0; [|discriminate].
    apply Z.eqb_eq in S0. now subst.
  - intros q. now apply is_dir_nothing_new.
Qed.

(** ** After a wipe *)

Section AfterWipe.

Lemma find_entry_In (y : string) (es : list (string * node)) (c : node) :
  find_entry y es = Some c -> In (y, c) es.
Proof.
  induction es as [|[k n] es IH]; cbn [find_entry]; [discriminate|].
  destruct (String.eqb k y) eqn:E.
  - apply String.eqb_eq in E. intros [= <-]. left. now subst.
  - intros H. right. now apply IH.
Qed.

Lemma In_find_entry (y : string) (es : list (string * node)) (c : node) :
  In (y, c) es -> exists c0, find_entry y es = Some c0.
Proof.
  induction es as [|[k n] es IH]; cbn [find_entry In]; [intros []|].
  destruct (String.eqb k y) eqn:E; [eauto|].
  intros [[= -> ->]|I]; [|now apply IH].
  now rewrite String.eqb_refl in E.
Qed.

Lemma listed_nothing_new (fs1 fs2 : node) (d e : path) :
  nothing_new fs1 fs2 -> listed fs2 d e -> listed fs1 d e.
Proof.
  intros N (entries & E & I).
  destruct (iterdir_inl_inv fs2 d entries E) as (es2 & L2 & ->).
  apply in_map_iff in I. destruct I as ([y c] & <- & Iy). cbn [fst].
  destruct (N _ _ L2) as (n & L1 & K).
  apply same_kind_dir in K. destruct K as [es1 ->].
  destruct (In_find_entry _ _ _ Iy) as [c2 F2].
  assert (lookup fs2 (d ++ [y]) = Some c2) as Ly
      by (rewrite lookup_app, L2; cbn; now rewrite F2).
  destruct (N _ _ Ly) as (c1 & L1y & _).
  rewrite lookup_app, L1 in L1y. cbn in L1y.
  destruct (find_entry y es1) as [c0|] eqn:F1; [|discriminate].
  exists (map (fun e => div d (fst e)) es1). split.
  - unfold iterdir. now rewrite L1.
  - apply in_map_iff. exists (y, c0). split; [reflexivity|].
    now apply find_entry_In.
Qed.

Lemma is_dir_gone (fs1 : node) (p : path) :
  lookup fs1 p = None -> is_dir fs1 p = true -> False.
Proof. unfold is_dir. now intros ->. Qed.

(** If what [fs1] had to clean at and below [d] is gone in [fs2], and
    [fs2] has nothing that [fs1] had not, then [fs2] has nothing to
    clean there. *)
Lemma nothing_cleanable_left (k : nat) :
  forall (fs1 fs2 : node) (d : path),
    nothing_new fs1 fs2 ->
    (forall e, In e (cleanable_below k fs1 d) ->
               lookup fs2 (entry_path e) = None) ->
    cleanable_below k fs2 d = [].
Proof.
  induction k as [|k IH]; intros fs1 fs2 d N G; [reflexivity|].
  change (cleanable_below (S k) fs1 d)
    with (find_cleanable_in_dir fs1 d ++
          flat_map (cleanable_below k fs1) (get_subdirs fs1 d)) in G.
  change (cleanable_below (S k) fs2 d)
    with (find_cleanable_in_dir fs2 d ++
          flat_map (cleanable_below k fs2) (get_subdirs fs2 d)).
  assert (forall p, listed fs2 d p -> is_dir fs2 p = true ->
                    classify fs1 p = None) as Plain.
  { intros p L2 D2. destruct (classify fs1 p) as [kd|] eqn:C; [|reflexivity].
    exfalso.
    assert (In p (map entry_path (find_cleanable_in_dir fs1 d))) as I.
    { apply In_cleanable_paths. split; [now apply (listed_nothing_new fs1 fs2)|].
      split; [now apply (is_dir_nothing_new fs1 fs2) | congruence]. }
    apply in_map_iff in I. destruct I as (e & <- & Ie).
    apply (is_dir_gone fs2 (entry_path e)); [|exact D2].
    apply G, in_app_iff. now left. }
  assert (find_cleanable_in_dir fs2 d = []) as F.
  { destruct (find_cleanable_in_dir fs2 d) as [|e l] eqn:E; [reflexivity|].
    exfalso.
    assert (In (entry_path e) (map entry_path (find_cleanable_in_dir fs2 d)))
      as I by (rewrite E; now left).
    apply In_cleanable_paths in I. destruct I as (L2 & D2 & C2).
    apply (classify_nothing_new fs1 fs2 _ N) in C2.
    now rewrite (Plain _ L2 D2) in C2. }
  rewrite F. cbn [app].
  rewrite (flat_map_same _ (fun _ => []) (get_subdirs fs2 d)).
  - now induction (get_subdirs fs2 d).
  - intros s Is. apply In_subdirs in Is. destruct Is as (L2 & D2 & C2).
    apply (IH fs1 fs2 s N). intros e Ie. apply G, in_app_iff. right.
    apply in_flat_map. exists s. split; [|exact Ie].
    apply In_subdirs. split; [now apply (listed_nothing_new fs1 fs2)|].
    split; [now apply (is_dir_nothing_new fs1 fs2) | now apply Plain].
Qed.

End AfterWipe.

(** X21.  A wipe leaves nothing to wipe: under the conditions of the general
    wipe, once the [w] action is through there is no cleanable directory
    left at or below the directory, a recursive scan of it reports 0
    items and 0 bytes, and the menu, shown again with the scan state
    reset, offers neither [w] nor [c]. *)
Theorem nothing_is_left_after_a_wipe
        (k fuel : nat) (d : path) (w : world) :
  (k <= fuel)%nat ->
  wipeable k w d = true ->
  exists w',
    wipe_action fuel d w = (Ok tt, w') /\
    cleanable_below k (fs w') d = [] /\
    find_cleanable_in_dir (fs w') d = [] /\
    (forall max_depth,
        (Z.to_nat (max_depth + 1) <= k)%nat ->
        scan_recursive (fs w') d max_depth = (0, 0)) /\
    (forall sp ps idx,
        ~ In MOptWipe (view_msgs (fs w') d sp ps idx init_scan) /\
        ~ In MOptClean (view_msgs (fs w') d sp ps idx init_scan)).
Proof.
  intros Hf W.
  destruct (wipe_all_cleanable_run k fuel d (say [MWiping (name d)] w) Hf)
    as (w1 & E & R & I & S0 & O & G).
  { rewrite <- W. now apply wipeable_ext. }
  change (fs (say [MWiping (name d)] w)) with (fs w) in *.
  set (freed := cleanable_size (cleanable_below k (fs w) d)) in *.
  exists (say [MFreedTree freed] (credited freed w1)).
  split.
  { unfold wipe_action. now rewrite bind_print, (bind_ok _ _ _ _ _ E). }
  change (fs (say [MFreedTree freed] (credited freed w1))) with (fs w1).
  assert (nothing_new (fs w) (fs w1)) as N.
  { exact (proj1 (prunes_wipe_all_cleanable
                    (fs w) fuel d (say [MWiping (name d)] w) _ _
                    (pruned_refl (fs w)) E)). }
  assert (cleanable_below k (fs w1) d = []) as Z0.
  { apply (nothing_cleanable_left k (fs w) (fs w1) d N).
    intros e Ie. specialize (G e [] Ie). now rewrite app_nil_r in G. }
  assert (find_cleanable_in_dir (fs w1) d = []) as F0.
  { destruct k as [|k0]; [discriminate W|].
    change (cleanable_below (S k0) (fs w1) d)
      with (find_cleanable_in_dir (fs w1) d ++
            flat_map (cleanable_below k0 (fs w1)) (get_subdirs (fs w1) d))
      in Z0.
    now apply app_eq_nil in Z0. }
  split; [exact Z0|]. split; [exact F0|]. split.
  - intros max_depth L. rewrite scan_recursive_found.
    pose proof (cleanable_below_le (fs w1) _ _ d L) as Le.
    rewrite Z0 in Le. change (len (@nil entry)) with 0 in Le.
    destruct (cleanable_below (Z.to_nat (max_depth + 1)) (fs w1) d) as [|e l];
      [reflexivity|].
    rewrite len_cons in Le. pose proof (len_nonneg l). lia.
  - intros sp ps idx.
    destruct (menu_lines (fs w1) d sp ps idx init_scan) as (Hw & Hc & _).
    rewrite Hw, Hc, F0. cbn. split; discriminate.
Qed.

Lemma nothing_is_left_after_a_wipe_witness :
  exists w',
    wipe_action 15 ["proj"] (world_of deep_reference []) = (Ok tt, w') /\
    cleanable_below 15 (fs w') ["proj"] = [] /\
    scan_recursive (fs w') ["proj"] 10 = (0, 0).
Proof.
  destruct (nothing_is_left_after_a_wipe
              15 15 ["proj"] (world_of deep_reference []))
    as (w' & E & Z0 & _ & S0 & _); [lia | vm_compute; reflexivity |].
  exists w'. split; [exact E|]. split; [exact Z0|].
  apply S0. vm_compute. lia.
Defined.

(** ** The statistics and the lines that report them *)

Section Accounting.

Lemma deletions_reported_app (l l' : list msg) :
  deletions_reported (l ++ l') = deletions_reported l + deletions_reported l'.
Proof. unfold deletions_reported. now rewrite filter_app, len_app. Qed.

Lemma freed_reported_app (l l' : list msg) :
  freed_reported (l ++ l') = freed_reported l + freed_reported l'.
Proof.
  unfold freed_reported. induction l as [|m l IH]; cbn [app fold_right];
    [reflexivity|]. rewrite IH. lia.
Qed.

Lemma balance_say (ms : list msg) (w : world) :
  deletions_reported ms = 0 -> freed_reported ms = 0 ->
  balance (say ms w) = balance w.
Proof.
  intros D F. unfold balance. cbn [say stdout stats].
  rewrite deletions_reported_app, freed_reported_app, D, F.
  f_equal; lia.
Qed.

Lemma balanced_same {A} (m : M A) :
  (forall w r w', m w = (r, w') ->
                  stats w' = stats w /\ stdout w' = stdout w) ->
  balanced m.
Proof.
  intros H w r w' E. destruct (H _ _ _ E) as [S0 O].
  unfold balance. now rewrite S0, O.
Qed.

Lemma balanced_ret {A} (a : A) : balanced (ret a).
Proof. apply balanced_same. now intros w r w' [= <- <-]. Qed.

Lemma balanced_out_of_fuel {A} : balanced (@out_of_fuel A).
Proof. apply balanced_same. now intros w r w' [= <- <-]. Qed.

Lemma balanced_raise {A} (e : exc) : balanced (@raise A e).
Proof. apply balanced_same. now intros w r w' [= <- <-]. Qed.

Lemma balanced_sys_exit {A} (c : Z) : balanced (@sys_exit A c).
Proof. apply balanced_same. now intros w r w' [= <- <-]. Qed.

Lemma balanced_query {A} (g : node -> A) : balanced (query g).
Proof. apply balanced_same. now intros w r w' [= <- <-]. Qed.

Lemma balanced_print (m : msg) :
  is_deletion m = false -> freed_of m = 0 -> balanced (print m).
Proof.
  intros D F w r w' [= <- <-]. apply (balance_say [m] w).
  - unfold deletions_reported. cbn [filter]. now rewrite D.
  - cbn. lia.
Qed.

Lemma balanced_input (prompt : msg) :
  is_deletion prompt = false -> freed_of prompt = 0 ->
  balanced (input prompt).
Proof.
  intros D F w r w' E.
  assert (balance (say [prompt] w) = balance w) as B.
  { apply balance_say; [unfold deletions_reported; cbn [filter];
                        now rewrite D | cbn; lia]. }
  unfold input in E. destruct (stdin w); injection E as <- <-; exact B.
Qed.

Lemma balanced_bind {A B} (m : M A) (k : A -> M B) :
  balanced m -> (forall a, balanced (k a)) -> balanced (bind m k).
Proof.
  intros Hm Hk w r w' E. unfold bind in E.
  destruct (m w) as [[a|e|c|] w1] eqn:E1;
    try (injection E as <- <-; exact (Hm _ _ _ E1)).
  rewrite (Hk a _ _ _ E). exact (Hm _ _ _ E1).
Qed.

Lemma balanced_for_each {A S} (body : S -> A -> M S) (l : list A) :
  (forall s a, balanced (body s a)) -> forall s, balanced (for_each l s body).
Proof.
  intros Hb. induction l as [|a l IH]; intros s; cbn [for_each].
  - apply balanced_ret.
  - apply balanced_bind; [apply Hb | exact IH].
Qed.

Lemma balanced_delete_directory (p : path) : balanced (delete_directory p).
Proof.
  intros w r w' E.
  destruct (rmtree p w) as [[[]|e|c|] w1] eqn:R.
  - rewrite (delete_directory_done _ _ _ R) in E. injection E as <- <-.
    apply rmtree_ok_inv in R. now subst w1.
  - rewrite (delete_directory_failed _ _ _ _ R) in E. injection E as <- <-.
    apply rmtree_raised_same in R. subst w1.
    now apply balance_say.
  - destruct (delete_directory_total p w) as (ok & w2 & D).
    unfold delete_directory, try_except, bind in D. rewrite R in D.
    discriminate D.
  - destruct (delete_directory_total p w) as (ok & w2 & D).
    unfold delete_directory, try_except, bind in D. rewrite R in D.
    discriminate D.
Qed.

(** A line that reports a deletion, and the count that goes with it. *)
Lemma balanced_counted (m : msg) (freed : Z) :
  is_deletion m = true -> freed_of m = 0 ->
  balanced (print m ;; incr_deleted_count ;; ret freed).
Proof.
  intros D F w r w' E. rewrite bind_print in E.
  injection E as <- <-. unfold balance.
  cbn [say stdout stats deleted_count total_freed].
  rewrite deletions_reported_app, freed_reported_app.
  unfold deletions_reported at 2. cbn [filter]. rewrite D.
  cbn [freed_reported fold_right]. rewrite F.
  change (len [m]) with 1. f_equal; lia.
Qed.

(** The bytes on the books, and the line that reports them. *)
Lemma balanced_credited (m : Z -> msg) (freed : Z) :
  is_deletion (m freed) = false -> freed_of (m freed) = freed ->
  balanced (add_total_freed freed ;; print (m freed)).
Proof.
  intros D F w r w' [= <- <-]. unfold balance.
  cbn [say stdout stats deleted_count total_freed].
  rewrite deletions_reported_app, freed_reported_app.
  unfold deletions_reported at 2. cbn [filter]. rewrite D.
  cbn [freed_reported fold_right]. rewrite F.
  change (len (@nil msg)) with 0. f_equal; lia.
Qed.

Lemma balanced_wipe_entry (d : path) (freed : Z) (e : entry) :
  balanced (wipe_entry d freed e).
Proof.
  destruct e as [[p k] size]. unfold wipe_entry.
  apply balanced_bind; [apply balanced_delete_directory | intros ok].
  destruct ok; [now apply balanced_counted | apply balanced_ret].
Qed.

Lemma balanced_clean_entry (freed : Z) (e : entry) :
  balanced (clean_entry freed e).
Proof.
  destruct e as [[p k] size]. unfold clean_entry.
  apply balanced_bind; [apply balanced_delete_directory | intros ok].
  destruct ok; [now apply balanced_counted | apply balanced_ret].
Qed.

Lemma balanced_wipe_all_cleanable (fuel : nat) :
  forall d, balanced (wipe_all_cleanable fuel d).
Proof.
  induction fuel as [|fuel IH]; intros d; cbn [wipe_all_cleanable].
  - apply balanced_out_of_fuel.
  - apply balanced_bind; [apply balanced_query | intros cleanable].
    apply balanced_bind;
      [apply balanced_for_each; intros; apply balanced_wipe_entry
      | intros freed].
    apply balanced_bind; [apply balanced_query | intros subdirs].
    apply balanced_for_each. intros s a.
    apply balanced_bind; [apply IH | intros; apply balanced_ret].
Qed.

Lemma balanced_wipe_action (fuel : nat) (d : path) :
  balanced (wipe_action fuel d).
Proof.
  unfold wipe_action.
  apply balanced_bind; [now apply balanced_print | intros _].
  apply balanced_bind; [apply balanced_wipe_all_cleanable | intros freed].
  now apply (balanced_credited MFreedTree).
Qed.

Lemma balanced_clean_action (c : list entry) : balanced (clean_action c).
Proof.
  unfold clean_action.
  apply balanced_bind;
    [apply balanced_for_each; intros; apply balanced_clean_entry
    | intros freed].
  now apply (balanced_credited MFreed).
Qed.

Ltac balanced_step :=
  match goal with
  | |- balanced (bind _ _) => apply balanced_bind; [|intros ?]
  | |- balanced (ret _) => apply balanced_ret
  | |- balanced (print _) => apply balanced_print; reflexivity
  | |- balanced (query _) => apply balanced_query
  | |- balanced (input _) => apply balanced_input; reflexivity
  | |- balanced (sys_exit _) => apply balanced_sys_exit
  | |- balanced (when ?b _) => destruct b; cbn [when]
  | |- balanced (if ?b then _ else _) => destruct b
  | |- balanced (let '(_, _) := ?x in _) => destruct x
  end.

Lemma balanced_render (d : path) (c : list entry) (s : list path)
      (st : scan_state) : balanced (render d c s st).
Proof. unfold render. repeat balanced_step. Qed.

Lemma balanced_show_actions (a b : bool) (s : list path) (c n p : bool) :
  balanced (show_actions a b s c n p).
Proof. unfold show_actions. repeat balanced_step. Qed.

Lemma balanced_recursive_scan_action (d : path) (st : scan_state) :
  balanced (recursive_scan_action d st).
Proof. unfold recursive_scan_action. repeat balanced_step. Qed.

Lemma balanced_navigation (fuel : nat) :
  (forall d sp ps idx st, balanced (navigate_loop fuel d sp ps idx st)) /\
  (forall subdirs i sp, balanced (sibling_loop fuel subdirs i sp)).
Proof.
  induction fuel as [|fuel [IHn IHs]]; split.
  - intros. apply balanced_out_of_fuel.
  - intros. apply balanced_out_of_fuel.
  - intros d sp ps idx st. cbn [navigate_loop].
    apply balanced_bind; [apply balanced_query | intros cleanable].
    apply balanced_bind; [apply balanced_query | intros subdirs].
    apply balanced_bind; [apply balanced_render | intros _].
    apply balanced_bind; [apply balanced_show_actions | intros _].
    apply balanced_bind; [now apply balanced_input | intros line].
    destruct (String.eqb (strip (lower line)) "q");
      [repeat balanced_step|].
    repeat match goal with
           | |- balanced (if ?b then _ else _) => destruct b
           end;
      try apply balanced_ret;
      try (apply balanced_bind;
           [first [ apply balanced_recursive_scan_action
                  | apply balanced_wipe_action
                  | apply balanced_clean_action
                  | apply balanced_print; reflexivity
                  | apply IHs ]
           | intros; apply IHn ]).
  - intros subdirs i sp. cbn [sibling_loop].
    destruct (i <? len subdirs); [|apply balanced_ret].
    destruct (py_nth subdirs i) as [subdir|]; [|apply balanced_raise].
    apply balanced_bind; [apply IHn | intros result].
    destruct (sibling_step result i (len subdirs)) as [|j notice] eqn:Es;
      [apply balanced_ret|].
    apply balanced_bind; [|intros; apply IHs].
    destruct notice as [m|]; [|apply balanced_ret].
    assert (m = MNoMoreFolders \/ m = MAlreadyFirst) as [-> | ->].
    { unfold sibling_step in Es.
      destruct result;
        [ inversion Es | discriminate
        | destruct (i + 1 >=? len subdirs); inversion Es; auto
        | destruct (i - 1 <? 0); inversion Es; auto ]. }
    + now apply balanced_print.
    + now apply balanced_print.
Qed.

End Accounting.

(** X22.  The statistics of a session are what its output reports: however
    the session ends, [deleted_count] is the number of "Deleted" lines
    printed since [main] began and [total_freed] is the sum of the
    "Freed" lines, failed removals counting for nothing; and the summary
    that closes a session that runs to its end shows just these two
    figures. *)
Theorem summary_counts_what_was_reported (f : nat) (sp : path) (w : world) :
  exists_ (fs w) sp = true ->
  exists ms,
    stdout (snd (main f sp w)) = stdout w ++ ms /\
    deleted_count (stats (snd (main f sp w))) = deletions_reported ms /\
    total_freed (stats (snd (main f sp w))) = freed_reported ms /\
    (fst (main f sp w) = Ok tt ->
     exists ms0,
       ms = ms0 ++ [MSummary (deletions_reported ms0) (freed_reported ms0)]).
Proof.
  intros X. rewrite (main_started f sp w X).
  destruct (navigate_directory f sp sp (fst (siblings_of (fs w) sp))
                               (snd (siblings_of (fs w) sp)) (started w))
    as [r1 w1] eqn:N.
  pose proof (proj1 (balanced_navigation f) _ _ _ _ _ _ _ _ N) as B.
  destruct (proj1 (keeps_navigation f) _ _ _ _ _ _ _ _ N)
    as ((ms1 & O & _) & _).
  cbn [started stdout] in O.
  assert (deleted_count (stats w1) = deletions_reported ([MBanner] ++ ms1) /\
          total_freed (stats w1) = freed_reported ([MBanner] ++ ms1))
    as [D F].
  { unfold balance in B. cbn [started stats stdout deleted_count total_freed]
      in B. rewrite O in B.
    rewrite !deletions_reported_app, !freed_reported_app in B.
    rewrite !deletions_reported_app, !freed_reported_app.
    change (deletions_reported [MBanner]) with 0 in *.
    change (freed_reported [MBanner]) with 0 in *.
    injection B as B1 B2. split; lia. }
  unfold bind. rewrite N.
  destruct r1 as [sig|e|c|].
  - exists (([MBanner] ++ ms1) ++
            [MSummary (deleted_count (stats w1)) (total_freed (stats w1))]).
    cbn [fst snd get_stats print stdout stats].
    rewrite O, <- !app_assoc. split; [reflexivity|].
    rewrite !deletions_reported_app, !freed_reported_app in *.
    split; [cbn; cbn in D; lia|]. split; [cbn; cbn in F; lia|].
    intros _. exists ([MBanner] ++ ms1).
    rewrite !deletions_reported_app, !freed_reported_app, <- D, <- F.
    now rewrite <- !app_assoc.
  - exists ([MBanner] ++ ms1). cbn [fst snd]. rewrite O, <- app_assoc.
    split; [reflexivity|]. split; [exact D|]. split; [exact F|discriminate].
  - exists ([MBanner] ++ ms1). cbn [fst snd]. rewrite O, <- app_assoc.
    split; [reflexivity|]. split; [exact D|]. split; [exact F|discriminate].
  - exists ([MBanner] ++ ms1). cbn [fst snd]. rewrite O, <- app_assoc.
    split; [reflexivity|]. split; [exact D|]. split; [exact F|discriminate].
Qed.

Lemma summary_counts_what_was_reported_witness :
  exists ms,
    stdout (snd (main 40 ["proj"] (busy_world ["c"; "1"; "c"; "q"]))) =
    [] ++ ms /\
    deleted_count
      (stats (snd (main 40 ["proj"] (busy_world ["c"; "1"; "c"; "q"])))) =
    deletions_reported ms /\
    deletions_reported ms = 2.
Proof.
  destruct (summary_counts_what_was_reported
              40 ["proj"] (busy_world ["c"; "1"; "c"; "q"]) eq_refl)
    as (ms & O & D & _).
  exists ms. split; [exact O|]. split; [exact D|].
  rewrite <- D. vm_compute. reflexivity.
Defined.

(** ** The path a wipe reports *)

(** X23.  The wipe names what it deletes relative to the parent of the
    directory it works in.  Every entry it finds lies below that parent,
    so [relative_to] always has an answer ([ValueError] cannot occur):
    the name of the directory followed by the name of the entry, or the
    name of the entry alone when the directory is the root. *)
Theorem wipe_reports_paths_from_the_parent (fs0 : node) (d : path) (e : entry) :
  In e (find_cleanable_in_dir fs0 d) ->
  is_prefix (parent d) (entry_path e) = true /\
  parent d ++ relative_to (entry_path e) (parent d) = entry_path e /\
  relative_to (entry_path e) (parent d) =
  match d with
  | [] => [name (entry_path e)]
  | _ :: _ => [name d; name (entry_path e)]
  end /\
  wipe_note d e =
  MWipeDeleted (match d with
                | [] => [name (entry_path e)]
                | _ :: _ => [name d; name (entry_path e)]
                end) (get_dir_size fs0 (entry_path e)).
Proof.
  intros I. apply In_find_cleanable in I.
  destruct I as ((y & Ey) & _ & _ & Sz & _).
  assert (name (entry_path e) = y) as Ny
      by (rewrite Ey; unfold name; apply last_last).
  assert (relative_to (entry_path e) (parent d) =
          match d with
          | [] => [name (entry_path e)]
          | _ :: _ => [name d; name (entry_path e)]
          end) as R.
  { rewrite Ny, Ey. unfold relative_to, parent, name.
    destruct d as [|a d']; [reflexivity|].
    assert (a :: d' <> []) as N by discriminate.
    rewrite (app_removelast_last "" N) at 2.
    rewrite <- app_assoc. cbn [app].
    now rewrite skipn_app, skipn_all, Nat.sub_diag. }
  split; [|split; [|split]].
  - rewrite Ey. unfold parent. destruct d as [|a d']; [reflexivity|].
    assert (a :: d' <> []) as N by discriminate.
    rewrite (app_removelast_last "" N) at 2.
    rewrite <- app_assoc. apply is_prefix_app.
  - rewrite R, Ny, Ey. unfold parent, name.
    destruct d as [|a d']; [reflexivity|].
    assert (a :: d' <> []) as N by discriminate.
    rewrite (app_removelast_last "" N) at 3.
    now rewrite <- app_assoc.
  - exact R.
  - unfold wipe_note. now rewrite R, Sz.
Qed.

Lemma wipe_reports_paths_from_the_parent_witness :
  relative_to ["proj"; "src"; "env"] (parent ["proj"; "src"]) =
  ["src"; "env"] /\
  wipe_note ["proj"; "src"] (["proj"; "src"; "env"], VirtualEnv, 50) =
  MWipeDeleted ["src"; "env"] 50.
Proof.
  destruct (wipe_reports_paths_from_the_parent
              reference_tree ["proj"; "src"]
              (["proj"; "src"; "env"], VirtualEnv, 50))
    as (_ & _ & R & N).
  - vm_compute. auto.
  - split; [exact R | exact N].
Defined.

(** ** Cleaning when some removals are refused *)

Section Refusals.


Variable d : path.


End Refusals.


